(** * SearchFacade: the read side of the encrypted full-text index

    A shallow embedding of [src/api/worker/search/SearchFacade.js].

    The facade is written against collaborators that live in other files of
    the application (tokenizer, crypto helpers of [IndexUtils], the id order
    of [EntityFunctions], the indexed-db transaction, the mail indexer, the
    entity loader).  They are collected in the class [Collaborators]; every
    method of the facade is translated over an arbitrary instance of it.

    Promises are modelled by their settled outcome ([Resolved] / [Rejected])
    and the object state they leave behind is passed explicitly: a method
    that mutates the [SearchResult] it is given returns the mutated record
    together with the outcome of its promise.

    The one place where callbacks overlap is the assembler, which maps the
    element-data lookups with [Promise.map] and a concurrency of five.  It
    is modelled by the state of that map: the lookups in flight and the
    queue of the entries not taken up yet.  Which of the lookups in flight
    is answered next is left to the collaborator [answeredNext]. *)

From Stdlib Require Import String Ascii.
From Stdlib Require Import ZArith NArith List Bool Lia.
From Stdlib Require Import Permutation Sorted.
Import ListNotations.

Set Implicit Arguments.

Local Open Scope Z_scope.

(** ** Promises and errors *)

(** The error classes the facade distinguishes with [catch (Class, ...)]. *)
Inductive Error : Type :=
| NotFoundError
| NotAuthorizedError
| CancelledError
| TypeError
| OtherError (message : string).

Inductive Promise (A : Type) : Type :=
| Resolved (value : A)
| Rejected (reason : Error).

Arguments Resolved {A} value.
Arguments Rejected {A} reason.

Definition bindP {A B : Type} (p : Promise A) (k : A -> Promise B) : Promise B :=
  match p with
  | Resolved a => k a
  | Rejected e => Rejected e
  end.

Declare Scope promise_scope.
Delimit Scope promise_scope with promise.
Notation "'await' x <- p ; k" := (bindP p (fun x => k))
  (at level 10, x name, p at level 100, k at level 200) : promise_scope.
Local Open Scope promise_scope.

(** [mapInCallContext]: the callbacks run one after the other, the first
    rejection rejects the whole. *)
Fixpoint mapInCallContext {A B : Type} (f : A -> Promise B) (l : list A) : Promise (list B) :=
  match l with
  | [] => Resolved []
  | x :: xs =>
      await y <- f x;
      await ys <- mapInCallContext f xs;
      Resolved (y :: ys)
  end.

(** ** JavaScript values *)

Definition bytes : Type := list Byte.byte.

(** Truthiness of an optional number ([?number]): [null], [undefined] and
    [0] are falsy. *)
Definition truthyZ (x : option Z) : bool :=
  match x with
  | Some v => negb (v =? 0)
  | None => false
  end.

Definition truthyN (x : option N) : bool :=
  match x with
  | Some v => negb (v =? 0)%N
  | None => false
  end.

(** Truthiness of an optional object or array: only [null] / [undefined]
    are falsy (an empty array is truthy). *)
Definition truthyObj {A : Type} (x : option A) : bool :=
  match x with
  | Some _ => true
  | None => false
  end.

(** [Array.prototype.slice(0, e)] for an integral [e]: a negative end counts
    from the back. *)
Definition slice0 {A : Type} (l : list A) (e : Z) : list A :=
  if e <? 0 then firstn (Z.to_nat (Z.of_nat (length l) + e)) l
  else firstn (Z.to_nat e) l.

(** [Array.prototype.sort(cmp)]: a stable sort; [cmp a b <= 0] keeps [a]
    before [b]. *)
Fixpoint sortInsert {A : Type} (cmp : A -> A -> Z) (x : A) (l : list A) : list A :=
  match l with
  | [] => [x]
  | y :: ys => if cmp x y <=? 0 then x :: y :: ys else y :: sortInsert cmp x ys
  end.

Definition sortBy {A : Type} (cmp : A -> A -> Z) (l : list A) : list A :=
  fold_right (sortInsert cmp) [] l.

(** [String.prototype.startsWith] and [endsWith]. *)
Definition startsWith (s p : string) : bool := String.prefix p s.

Definition endsWith (s p : string) : bool :=
  (String.length p <=? String.length s)%nat
  && String.eqb (String.substring (String.length s - String.length p) (String.length p) s) p.

(** The one-character string consisting of a double quote. *)
Definition dquote : string := String (Ascii.ascii_of_nat 34) EmptyString.

(** ** Data model ([SearchTypes]) *)

(** A row descriptor of the metadata of a word: [key] addresses the row of
    encrypted index entries, [size] is the number of entries in it. *)
Record SearchIndexMetadataEntry : Type := {
  key : N;
  size : N;
  app : N;
  mtype : N
}.

Record TypeInfo : Type := {
  appId : N;
  typeId : N
}.

Section DataModel.

Variable Id : Type.
Variable TypeRef : Type.

(** [IdTuple]: [listId] at index 0, element id at index 1. *)
Definition IdTuple : Type := (Id * Id)%type.

Record SearchIndexEntry : Type := {
  id : Id;
  attribute : N;
  positions : list N;
  encId : bytes
}.

Record EncryptedSearchIndexEntryWithHash : Type := {
  encEntry : bytes;
  idHash : Z
}.

Record KeyToEncryptedIndexEntries : Type := {
  e_indexKey : string;
  e_indexEntries : list EncryptedSearchIndexEntryWithHash
}.

Record KeyToIndexEntries : Type := {
  indexKey : string;
  indexEntries : list SearchIndexEntry
}.

Record SearchRestriction : Type := {
  rtype : TypeRef;
  start : option Z;
  end_ : option Z;
  attributeIds : option (list N);
  listId : option Id
}.

(** The result handed to the caller; it is also the cursor of the
    pagination.  A row of [lastReadSearchIndexRow] is the pair
    [[token, lastReadRowKey]]. *)
Record SearchResult : Type := {
  query : string;
  restriction : SearchRestriction;
  results : list IdTuple;
  currentIndexTimestamp : Z;
  moreResultsEntries : list SearchIndexEntry;
  lastReadSearchIndexRow : list (string * option N);
  matchWordOrder : bool
}.

(** The element data row starts with the list id of the element. *)
Record ElementDataDbRow : Type := {
  elementListId : Id
}.

(** The three object stores the facade reads, each as its lookup.  A row of
    [SearchIndexOS] is given by the blocks [iterateBinaryBlocks] yields for
    it, in order. *)
Record Db : Type := {
  SearchIndexMetaDataOS : string -> option bytes;
  SearchIndexOS : N -> option (list bytes);
  ElementDataOS : string -> option ElementDataDbRow
}.

Record SuggestionFacade : Type := {
  sf_type : TypeRef;
  getSuggestions : string -> list string
}.

(** The state reachable from [this]: the database, the mail indexer's
    current horizon, the registered suggestion facades, and the clock read
    by [Date.now()]. *)
Record SearchFacade : Type := {
  _db : Db;
  mailIndexer_currentIndexTimestamp : Z;
  _suggestionFacades : list SuggestionFacade;
  dateNow : Z
}.

End DataModel.

Arguments Build_SearchIndexEntry {Id}.
Arguments Build_SearchRestriction {Id TypeRef}.
Arguments Build_SearchResult {Id TypeRef}.
Arguments Build_ElementDataDbRow {Id}.
Arguments Build_Db {Id}.
Arguments Build_SuggestionFacade {TypeRef}.
Arguments Build_SearchFacade {Id TypeRef}.

(** ** Collaborators *)

(** Everything [SearchFacade.js] imports.  [Id] stands for the id strings of
    the application (never empty, hence always truthy); [Id_eq_dec] is
    [===] on them. *)
Class Collaborators : Type := {
  Id : Type;
  Id_eq_dec : forall a b : Id, {a = b} + {a <> b};
  TypeRef : Type;
  Entity : Type;
  TypeModel : Type;
  (* EntityFunctions *)
  firstBiggerThanSecond : Id -> Id -> bool;
  isSameTypeRef : TypeRef -> TypeRef -> bool;
  resolveTypeReference : TypeRef -> Promise TypeModel;
  MailTypeRef : TypeRef;
  (* TutanotaConstants *)
  FULL_INDEXED_TIMESTAMP : Z;
  NOTHING_INDEXED_TIMESTAMP : Z;
  (* Encoding, DateUtils *)
  timestampToGeneratedId : Z -> Id;
  uint8ArrayToBase64 : bytes -> string;
  getStartOfDay : Z -> Z;
  (* Tokenizer *)
  tokenize : string -> list string;
  (* IndexUtils; the key and the iv are those of the open database *)
  typeRefToTypeInfo : TypeRef -> TypeInfo;
  encryptIndexKeyBase64 : string -> string;
  decryptMetaData : bytes -> list SearchIndexMetadataEntry;
  getIdFromEncSearchIndexEntry : bytes -> bytes;
  arrayHash : bytes -> Z;
  decryptSearchIndexEntry : bytes -> SearchIndexEntry Id;
  (* MailIndexer: awaiting [mailboxIndexingPromise], and [indexMailboxes]
     which starts an extension of the index back to the given time *)
  awaitMailboxIndexing : SearchFacade Id TypeRef -> SearchFacade Id TypeRef * Promise unit;
  indexMailboxes : SearchFacade Id TypeRef -> Z -> SearchFacade Id TypeRef;
  (* DbFacade: of the [transaction.get] requests of one transaction that
     are in flight, given by their keys, oldest first, the position of the
     one that is answered next (IndexedDB answers the oldest: position 0) *)
  answeredNext : list string -> nat;
  (* EntityWorker *)
  load : SearchFacade Id TypeRef -> TypeRef -> IdTuple Id -> Promise Entity;
  (* the prefix check of [_containsSuggestionToken], which walks the loaded
     entity through the type-model registry and the tokenizer *)
  containsSuggestionToken : Entity -> TypeModel -> option (list N) -> string -> Promise bool
}.

(** The laws of the id order: [firstBiggerThanSecond] is a strict total
    order. *)
Class IdOrder (C : Collaborators) : Prop := {
  fbts_irrefl : forall a : Id, firstBiggerThanSecond a a = false;
  fbts_trans : forall a b c : Id,
      firstBiggerThanSecond a b = true -> firstBiggerThanSecond b c = true ->
      firstBiggerThanSecond a c = true;
  fbts_total : forall a b : Id,
      a = b \/ firstBiggerThanSecond a b = true \/ firstBiggerThanSecond b a = true
}.

(** ** The facade *)

Section Facade.

Context {C : Collaborators}.

Local Abbreviation Restriction := (SearchRestriction Id TypeRef).
Local Abbreviation Result := (SearchResult Id TypeRef).
Local Abbreviation Facade := (SearchFacade Id TypeRef).
Local Abbreviation Entry := (SearchIndexEntry Id).

(** [===] on ids. *)
Definition Id_eqb (a b : Id) : bool := if Id_eq_dec a b then true else false.

(** Modelled from the spec: [compareNewestFirst] of [EntityFunctions] is not
    among the sources; the spec orders results newest first, that is by id
    descending. *)
Definition compareNewestFirst (a b : Id) : Z :=
  if Id_eqb a b then 0 else if firstBiggerThanSecond a b then -1 else 1.

(** [compareNewestFirst] applied to id tuples compares their element ids. *)
Definition compareTuplesNewestFirst (a b : IdTuple Id) : Z :=
  compareNewestFirst (snd a) (snd b).

(** Modelled from the spec: [contains] of [ArrayUtils] is not among the
    sources; membership of an attribute id in the whitelist. *)
Definition contains (l : list N) (x : N) : bool := existsb (N.eqb x) l.

(** [Set.prototype.has] on a set that may still be [undefined]. *)
Definition hasZ (s : option (list Z)) (x : Z) : bool :=
  match s with
  | Some l => existsb (Z.eqb x) l
  | None => false
  end.

Definition hasId (s : option (list Id)) (x : Id) : bool :=
  match s with
  | Some l => existsb (Id_eqb x) l
  | None => false
  end.

(** Record updates for the fields the facade assigns. *)
Definition set_results (sr : Result) (rs : list (IdTuple Id)) : Result :=
  {| query := query sr; restriction := restriction sr; results := rs;
     currentIndexTimestamp := currentIndexTimestamp sr;
     moreResultsEntries := moreResultsEntries sr;
     lastReadSearchIndexRow := lastReadSearchIndexRow sr;
     matchWordOrder := matchWordOrder sr |}.

Definition set_lastReadSearchIndexRow (sr : Result) (rows : list (string * option N)) : Result :=
  {| query := query sr; restriction := restriction sr; results := results sr;
     currentIndexTimestamp := currentIndexTimestamp sr;
     moreResultsEntries := moreResultsEntries sr;
     lastReadSearchIndexRow := rows;
     matchWordOrder := matchWordOrder sr |}.

(** *** [_getSearchEndTimestamp] *)

Definition defaultEndTimestamp (this : Facade) (restriction : Restriction) : Z :=
  if isSameTypeRef MailTypeRef (rtype restriction) then
    if mailIndexer_currentIndexTimestamp this =? NOTHING_INDEXED_TIMESTAMP
    then dateNow this
    else mailIndexer_currentIndexTimestamp this
  else FULL_INDEXED_TIMESTAMP.

Definition _getSearchEndTimestamp (this : Facade) (restriction : Restriction) : Z :=
  match end_ restriction with
  | Some e => if truthyZ (Some e) then e else defaultEndTimestamp this restriction
  | None => defaultEndTimestamp this restriction
  end.

(** *** [_tryExtendIndex] *)

(** A [CancelledError] of the awaited indexing is logged and swallowed. *)
Definition catchCancelled (p : Promise unit) : Promise unit :=
  match p with
  | Rejected CancelledError => Resolved tt
  | other => other
  end.

Definition _tryExtendIndex (this : Facade) (restriction : Restriction) : Facade * Promise unit :=
  if isSameTypeRef MailTypeRef (rtype restriction) then
    let (this1, p1) := awaitMailboxIndexing this in
    match p1 with
    | Resolved _ =>
        match end_ restriction with
        | Some e =>
            if (mailIndexer_currentIndexTimestamp this1 >? FULL_INDEXED_TIMESTAMP)
               && truthyZ (Some e)
               && (mailIndexer_currentIndexTimestamp this1 >? e)
            then
              let this2 := indexMailboxes this1 (getStartOfDay e) in
              let (this3, p3) := awaitMailboxIndexing this2 in
              (this3, catchCancelled p3)
            else (this1, Resolved tt)
        | None => (this1, Resolved tt)
        end
    | Rejected _ => (this1, catchCancelled p1)
    end
  else (this, Resolved tt).

(** *** [_findEntriesForMetadata] *)

(** [new Array(entry.size)] filled at the iteration index of each block: a
    slot no block was written to stays a hole ([None]); blocks beyond
    [entry.size] extend the array. *)
Definition _findEntriesForMetadata (this : Facade) (entry : SearchIndexMetadataEntry)
  : list (option bytes) :=
  match SearchIndexOS (_db this) (key entry) with
  | None => []
  | Some blocks => map Some blocks ++ repeat None (N.to_nat (size entry) - length blocks)
  end.

(** *** [_findEntriesForSearchToken] *)

(** The filter that selects [rowsToRead], together with the value its
    closure leaves in [lastReadRowId].  [entitiesToRead] and [lastReadRowId]
    are the two counters the closure updates. *)
Fixpoint selectRowsToRead (maxResults : option Z) (fromRow : option N)
  (entitiesToRead lastReadRowId : N) (rows : list SearchIndexMetadataEntry)
  : list SearchIndexMetadataEntry * N :=
  match rows with
  | [] => ([], lastReadRowId)
  | r :: rest =>
      if truthyZ maxResults then
        if (negb (truthyN fromRow)
            || match fromRow with Some f => (key r <? f)%N | None => false end)
           && (entitiesToRead <? 1000)%N
        then
          let (sel, last) :=
            selectRowsToRead maxResults fromRow (entitiesToRead + size r)%N (key r) rest in
          (r :: sel, last)
        else selectRowsToRead maxResults fromRow entitiesToRead lastReadRowId rest
      else
        let (sel, last) := selectRowsToRead maxResults fromRow entitiesToRead lastReadRowId rest in
        (r :: sel, last)
  end.

(** The descriptors of a word for the searched type, newest first. *)
Definition filteredRows (this : Facade) (restriction : Restriction) (searchToken : string)
  : list SearchIndexMetadataEntry :=
  let indexKey := encryptIndexKeyBase64 searchToken in
  let safeRows :=
    match SearchIndexMetaDataOS (_db this) indexKey with
    | Some metaData => decryptMetaData metaData
    | None => []
    end in
  let typeInfo := typeRefToTypeInfo (rtype restriction) in
  rev (filter (fun r => (app r =? appId typeInfo)%N && (mtype r =? typeId typeInfo)%N) safeRows).

(** The descriptors one call reads for a cursor row. *)
Definition rowsToRead (this : Facade) (restriction : Restriction) (maxResults : option Z)
  (searchTokenInfo : string * option N) : list SearchIndexMetadataEntry :=
  fst (selectRowsToRead maxResults (snd searchTokenInfo) 0%N 0%N
         (filteredRows this restriction (fst searchTokenInfo))).

(** An entry paired with the hash of its encrypted id; a hole of the array
    cannot be sliced by [getIdFromEncSearchIndexEntry] and fails the page. *)
Definition withIdHash (slot : option bytes) : Promise EncryptedSearchIndexEntryWithHash :=
  match slot with
  | Some entry =>
      Resolved {| encEntry := entry; idHash := arrayHash (getIdFromEncSearchIndexEntry entry) |}
  | None => Rejected TypeError
  end.

(** Returns the cursor row as the call leaves it ([searchTokenInfo[1] =
    lastReadRowId]) and the outcome of the promise.  [flat] concatenates the
    arrays read for the selected descriptors. *)
Definition _findEntriesForSearchToken (this : Facade) (restriction : Restriction)
  (maxResults : option Z) (searchTokenInfo : string * option N)
  : (string * option N) * Promise KeyToEncryptedIndexEntries :=
  let (searchToken, fromRow) := searchTokenInfo in
  let indexKey := encryptIndexKeyBase64 searchToken in
  let (rowsToRead, lastReadRowId) :=
    selectRowsToRead maxResults fromRow 0%N 0%N (filteredRows this restriction searchToken) in
  ((searchToken, Some lastReadRowId),
   await indexEntries <-
     mapInCallContext withIdHash (concat (map (_findEntriesForMetadata this) rowsToRead));
   Resolved {| e_indexKey := indexKey; e_indexEntries := indexEntries |}).

(** *** [_findIndexEntries] *)

(** The cursor rows are visited in order; a rejection leaves the rows after
    it untouched. *)
Fixpoint _findIndexEntriesFrom (this : Facade) (restriction : Restriction)
  (maxResults : option Z) (rows : list (string * option N))
  : list (string * option N) * Promise (list KeyToEncryptedIndexEntries) :=
  match rows with
  | [] => ([], Resolved [])
  | token :: rest =>
      let (token', p) := _findEntriesForSearchToken this restriction maxResults token in
      match p with
      | Rejected e => (token' :: rest, Rejected e)
      | Resolved k =>
          let (rest', q) := _findIndexEntriesFrom this restriction maxResults rest in
          (token' :: rest', await ks <- q; Resolved (k :: ks))
      end
  end.

Definition _findIndexEntries (this : Facade) (searchResult : Result) (maxResults : option Z)
  : Result * Promise (list KeyToEncryptedIndexEntries) :=
  let (rows, p) :=
    _findIndexEntriesFrom this (restriction searchResult) maxResults
      (lastReadSearchIndexRow searchResult) in
  (set_lastReadSearchIndexRow searchResult rows, p).

(** *** [_filterByEncryptedId] *)

Definition matchingEncIdsOf (results : list KeyToEncryptedIndexEntries) : option (list Z) :=
  fold_left
    (fun (matchingEncIds : option (list Z)) keyToEncryptedIndexEntry =>
       match matchingEncIds with
       | None => Some (map idHash (e_indexEntries keyToEncryptedIndexEntry))
       | Some _ =>
           Some (map idHash
                   (filter (fun indexEntry => hasZ matchingEncIds (idHash indexEntry))
                      (e_indexEntries keyToEncryptedIndexEntry)))
       end)
    results None.

Definition _filterByEncryptedId (results : list KeyToEncryptedIndexEntries)
  : list KeyToEncryptedIndexEntries :=
  let matchingEncIds := matchingEncIdsOf results in
  map (fun r =>
         {| e_indexKey := e_indexKey r;
            e_indexEntries :=
              filter (fun entry => hasZ matchingEncIds (idHash entry)) (e_indexEntries r) |})
    results.

(** *** [_decryptSearchResult] *)

Definition _decryptSearchResult (results : list KeyToEncryptedIndexEntries)
  : list (KeyToIndexEntries Id) :=
  map (fun searchResult =>
         {| indexKey := e_indexKey searchResult;
            indexEntries :=
              map (fun entry => decryptSearchIndexEntry (encEntry entry))
                (e_indexEntries searchResult) |})
    results.

(** *** [_isValidAttributeAndTime] and [_filterByTypeAndAttributeAndTime] *)

Definition _isValidAttributeAndTime (restriction : Restriction) (entry : Entry)
  (minIncludedId : Id) (maxExcludedId : option Id) : bool :=
  if match attributeIds restriction with
     | Some ids => negb (contains ids (attribute entry))
     | None => false
     end
  then false
  else if match maxExcludedId with
          | Some maxId => negb (firstBiggerThanSecond maxId (id entry))
          | None => false
          end
  then false
  else negb (firstBiggerThanSecond minIncludedId (id entry)).

Definition minIncludedIdOf (this : Facade) (restriction : Restriction) : Id :=
  timestampToGeneratedId (_getSearchEndTimestamp this restriction).

Definition maxExcludedIdOf (restriction : Restriction) : option Id :=
  match start restriction with
  | Some s => if truthyZ (Some s) then Some (timestampToGeneratedId (s + 1)) else None
  | None => None
  end.

(** The predicate the first pass of [_filterByTypeAndAttributeAndTime]
    filters every entry with. *)
Definition acceptsEntry (this : Facade) (restriction : Restriction) (entry : Entry) : bool :=
  _isValidAttributeAndTime restriction entry
    (minIncludedIdOf this restriction) (maxExcludedIdOf restriction).

Definition matchingIdsOf (results : list (KeyToIndexEntries Id)) : option (list Id) :=
  fold_left
    (fun (matchingIds : option (list Id)) keyToIndexEntry =>
       match matchingIds with
       | None => Some (map (@id Id) (indexEntries keyToIndexEntry))
       | Some _ =>
           Some (map (@id Id)
                   (filter (fun entry => hasId matchingIds (id entry))
                      (indexEntries keyToIndexEntry)))
       end)
    results None.

Definition _filterByTypeAndAttributeAndTime (this : Facade)
  (results : list (KeyToIndexEntries Id)) (restriction : Restriction)
  : list (KeyToIndexEntries Id) :=
  let results1 :=
    map (fun result =>
           {| indexKey := indexKey result;
              indexEntries := filter (acceptsEntry this restriction) (indexEntries result) |})
      results in
  let matchingIds := matchingIdsOf results1 in
  map (fun r =>
         {| indexKey := indexKey r;
            indexEntries := filter (fun entry => hasId matchingIds (id entry)) (indexEntries r) |})
    results1.

(** *** [_reduceWords] *)

(** The entry of a later word for the same element and attribute. *)
Definition findSameAttribute (firstWordEntry : Entry) (entries : list Entry) : option Entry :=
  find (fun e => Id_eqb (id e) (id firstWordEntry)
                 && (attribute e =? attribute firstWordEntry)%N)
    entries.

(** The body of the [for] loop, from index [i] on, over [results[i..]]. *)
Fixpoint reducePositions (firstWordEntry : Entry) (i : N)
  (rest : list (KeyToIndexEntries Id)) (filteredPositions : list N) : list N :=
  match rest with
  | [] => filteredPositions
  | r :: rest' =>
      let filteredPositions' :=
        match findSameAttribute firstWordEntry (indexEntries r) with
        | Some entry =>
            filter (fun firstWordPosition =>
                      truthyN (find (fun position => (position =? firstWordPosition + i)%N)
                                 (positions entry)))
              filteredPositions
        | None => []
        end in
      reducePositions firstWordEntry (i + 1)%N rest' filteredPositions'
  end.

(** The callback of the outer [filter]: the loop run on a copy of the
    positions of [firstWordEntry], and the test [filteredPositions.length > 0]
    on its outcome.  [rest] is [results[1..]]. *)
Definition keepsFirstWordEntry (rest : list (KeyToIndexEntries Id)) (firstWordEntry : Entry)
  : bool :=
  (0 <? length (reducePositions firstWordEntry 1%N rest (positions firstWordEntry)))%nat.

(** [results[0]] of an empty array is [undefined]; reading [indexEntries] of
    it throws. *)
Definition _reduceWords (results : list (KeyToIndexEntries Id)) (matchWordOrder : bool)
  : Promise (list Entry) :=
  match results with
  | [] => Rejected TypeError
  | first :: rest =>
      if matchWordOrder then Resolved (filter (keepsFirstWordEntry rest) (indexEntries first))
      else Resolved (indexEntries first)
  end.

(** *** [_reduceToUniqueElementIds] *)

Fixpoint uniqueElementIdsFrom (uniqueIds : list Id) (previousResult : Result)
  (entries : list Entry) : list Entry :=
  match entries with
  | [] => []
  | entry :: rest =>
      if negb (existsb (Id_eqb (id entry)) uniqueIds)
         && negb (truthyObj (find (fun r => Id_eqb (snd r) (id entry)) (results previousResult)))
      then entry :: uniqueElementIdsFrom (id entry :: uniqueIds) previousResult rest
      else uniqueElementIdsFrom uniqueIds previousResult rest
  end.

Definition _reduceToUniqueElementIds (entries : list Entry) (previousResult : Result)
  : list Entry :=
  uniqueElementIdsFrom [] previousResult entries.

(** *** [_filterByListIdAndGroupSearchResults] *)

(** [maxResults && n >= maxResults]. *)
Definition reachedMaxResults (maxResults : option Z) (n : nat) : bool :=
  match maxResults with
  | Some m => truthyZ (Some m) && (m <=? Z.of_nat n)
  | None => false
  end.

(** [maxResults || indexEntries.length + 1]. *)
Definition sliceEnd (maxResults : option Z) (n : nat) : Z :=
  match maxResults with
  | Some m => if truthyZ (Some m) then m else Z.of_nat n + 1
  | None => Z.of_nat n + 1
  end.

(** [Promise.map (..., {concurrency: 5})]: at most five mappers have a
    lookup in flight. *)
Definition concurrency : nat := 5.

(** What [Promise.map] holds while it runs: [results] of the search result,
    the entries whose element-data lookup is in flight, oldest first, and
    the queue of the entries not taken up yet.  [queue.push] and
    [queue.pop] work at the same end of the queue, which is the head of the
    list here: the entry queued last comes first. *)
Record Mapping : Type := {
  m_results : list (IdTuple Id);
  m_inFlight : list Entry;
  m_queue : list Entry
}.

(** The callback on the element data of [entry]: the id tuple is pushed when
    the row is there and lies in the list the restriction asks for. *)
Definition onElementData (this : Facade) (restriction : Restriction) (entry : Entry)
  (results : list (IdTuple Id)) : list (IdTuple Id) :=
  match ElementDataOS (_db this) (uint8ArrayToBase64 (encId entry)) with
  | Some elementData =>
      if match listId restriction with
         | Some l => Id_eqb l (elementListId elementData)
         | None => true
         end
      then results ++ [(elementListId elementData, id entry)]
      else results
  | None => results
  end.

(** The mapper called for [entry]: with [maxResults] reached it calls [stop]
    and returns at once, otherwise it asks for the element data, and the
    lookup is in flight. *)
Definition mapper (maxResults : option Z) (entry : Entry) (results : list (IdTuple Id))
  (inFlight : list Entry) : list Entry :=
  if reachedMaxResults maxResults (length results) then inFlight
  else inFlight ++ [entry].

(** [Promise.map] going through the array: an entry is queued when five
    lookups are in flight, and handed to the mapper otherwise. *)
Definition takeUp (maxResults : option Z) (st : Mapping) (entry : Entry) : Mapping :=
  if (concurrency <=? length (m_inFlight st))%nat
  then {| m_results := m_results st; m_inFlight := m_inFlight st;
          m_queue := entry :: m_queue st |}
  else {| m_results := m_results st;
          m_inFlight := mapper maxResults entry (m_results st) (m_inFlight st);
          m_queue := m_queue st |}.

(** [_drainQueue]: while fewer than five lookups are in flight, the entry
    queued last is popped and handed to the mapper. *)
Fixpoint drainQueue (maxResults : option Z) (results : list (IdTuple Id))
  (queue inFlight : list Entry) : list Entry * list Entry :=
  match queue with
  | [] => ([], inFlight)
  | entry :: rest =>
      if (length inFlight <? concurrency)%nat
      then drainQueue maxResults results rest (mapper maxResults entry results inFlight)
      else (queue, inFlight)
  end.

(** One lookup is answered: its callback runs, and [Promise.map] drains the
    queue. *)
Definition lookupAnswered (this : Facade) (restriction : Restriction)
  (maxResults : option Z) (st : Mapping) : Mapping :=
  let keys := map (fun entry => uint8ArrayToBase64 (encId entry)) (m_inFlight st) in
  let k := if (answeredNext keys <? length (m_inFlight st))%nat then answeredNext keys
           else 0%nat in
  match nth_error (m_inFlight st) k with
  | Some entry =>
      let results := onElementData this restriction entry (m_results st) in
      let (queue, inFlight) :=
        drainQueue maxResults results (m_queue st)
          (firstn k (m_inFlight st) ++ skipn (S k) (m_inFlight st)) in
      {| m_results := results; m_inFlight := inFlight; m_queue := queue |}
  | None => st
  end.

(** The lookups are answered one by one until none is in flight; every
    answer settles one lookup, so [n] answers are enough when [n] entries
    were mapped. *)
Fixpoint settleLookups (n : nat) (this : Facade) (restriction : Restriction)
  (maxResults : option Z) (st : Mapping) : Mapping :=
  match n with
  | O => st
  | S n' =>
      match m_inFlight st with
      | [] => st
      | _ :: _ =>
          settleLookups n' this restriction maxResults
            (lookupAnswered this restriction maxResults st)
      end
  end.

(** [Promise.map] over the entries, with the mapper that tests [results]
    against [maxResults] when it is called: the first five mappers are
    called in the order of the array before any lookup is answered; each
    answer pushes its result and lets the map take the next entry from the
    end of the queue.  The value is [results] once every lookup has been
    answered.  When [stop] has been called the promise of the page settles
    with lookups still in flight; their results are pushed all the same.
    The page of a [search] starts without results and maps at most
    [maxResults] entries, so none of its mappers finds [maxResults] reached
    with a lookup in flight: its promise settles when every lookup is
    answered. *)
Definition groupSearchResults (this : Facade) (restriction : Restriction)
  (maxResults : option Z) (entries : list Entry) (results : list (IdTuple Id))
  : list (IdTuple Id) :=
  m_results
    (settleLookups (length entries) this restriction maxResults
       (fold_left (takeUp maxResults) entries
          {| m_results := results; m_inFlight := []; m_queue := [] |})).

Definition _filterByListIdAndGroupSearchResults (this : Facade) (indexEntries : list Entry)
  (searchResult : Result) (maxResults : option Z) : Result * Promise unit :=
  let sorted := sortBy (fun l r => compareNewestFirst (id l) (id r)) indexEntries in
  let sliced := slice0 sorted (sliceEnd maxResults (length sorted)) in
  (set_results searchResult
     (groupSearchResults this (restriction searchResult) maxResults sliced
        (results searchResult)),
   Resolved tt).

(** *** [_startOrContinueSearch], [getMoreSearchResults], [_searchForTokens] *)

(** The stages between reading the index and assembling the results. *)
Definition reduceIndexEntries (this : Facade) (searchResult : Result)
  (keyToEncryptedIndexEntries : list KeyToEncryptedIndexEntries) : Promise (list Entry) :=
  let filtered := _filterByEncryptedId keyToEncryptedIndexEntries in
  let decrypted := _decryptSearchResult filtered in
  let keyToIndexEntries :=
    _filterByTypeAndAttributeAndTime this decrypted (restriction searchResult) in
  await searchIndexEntries <- _reduceWords keyToIndexEntries (matchWordOrder searchResult);
  Resolved (_reduceToUniqueElementIds searchIndexEntries searchResult).

Definition _startOrContinueSearch (this : Facade) (searchResult : Result)
  (maxResults : option Z) : Result * Promise unit :=
  let (searchResult1, found) := _findIndexEntries this searchResult maxResults in
  match (await k <- found; reduceIndexEntries this searchResult1 k) with
  | Resolved searchIndexEntries =>
      _filterByListIdAndGroupSearchResults this searchIndexEntries searchResult1 maxResults
  | Rejected e => (searchResult1, Rejected e)
  end.

Definition getMoreSearchResults (this : Facade) (searchResult : Result) (moreResultCount : Z)
  : Result * Promise unit :=
  _startOrContinueSearch this searchResult (Some moreResultCount).

(** [suggestions] is accepted and not used. *)
Definition _searchForTokens (this : Facade) (searchResult : Result)
  (suggestions : list string) (maxResults : option Z) : Facade * (Result * Promise unit) :=
  let (this', extended) := _tryExtendIndex this (restriction searchResult) in
  match extended with
  | Resolved _ => (this', _startOrContinueSearch this' searchResult maxResults)
  | Rejected e => (this', (searchResult, Rejected e))
  end.

(** *** [_loadAndReduce] *)

(** The reducer of [Promise.reduce], over the remaining candidates.  The
    first component lists the candidates [load] was called for, in call
    order; the second is the outcome of the reduction. *)
Fixpoint loadAndReduceFrom (this : Facade) (restriction : Restriction) (model : TypeModel)
  (suggestionToken : string) (minSuggestionCount : Z)
  (candidates finalResults : list (IdTuple Id))
  : list (IdTuple Id) * Promise (list (IdTuple Id)) :=
  match candidates with
  | [] => ([], Resolved finalResults)
  | result :: rest =>
      if Z.of_nat (length finalResults) >=? minSuggestionCount then
        loadAndReduceFrom this restriction model suggestionToken minSuggestionCount
          rest finalResults
      else
        let step :=
          await entity <- load this (rtype restriction) result;
          await found <-
            containsSuggestionToken entity model (attributeIds restriction) suggestionToken;
          Resolved (if found : bool then finalResults ++ [result] else finalResults) in
        let continue finalResults' :=
          let (loaded, outcome) :=
            loadAndReduceFrom this restriction model suggestionToken minSuggestionCount
              rest finalResults' in
          (result :: loaded, outcome) in
        match step with
        | Resolved finalResults' => continue finalResults'
        | Rejected NotFoundError => continue finalResults
        | Rejected NotAuthorizedError => continue finalResults
        | Rejected e => ([result], Rejected e)
        end
  end.

Definition _loadAndReduce (this : Facade) (restriction : Restriction)
  (candidates : list (IdTuple Id)) (suggestionToken : string) (minSuggestionCount : Z)
  : list (IdTuple Id) * Promise (list (IdTuple Id)) :=
  if (0 <? length candidates)%nat then
    match resolveTypeReference (rtype restriction) with
    | Resolved model =>
        loadAndReduceFrom this restriction model suggestionToken minSuggestionCount
          candidates []
    | Rejected e => ([], Rejected e)
    end
  else ([], Resolved []).

(** A candidate passes when its entity loads and the prefix check finds the
    suggestion word in it. *)
Definition passesPrefixCheck (this : Facade) (restriction : Restriction) (model : TypeModel)
  (suggestionToken : string) (candidate : IdTuple Id) : bool :=
  match load this (rtype restriction) candidate with
  | Resolved entity =>
      match containsSuggestionToken entity model (attributeIds restriction) suggestionToken with
      | Resolved found => found
      | Rejected _ => false
      end
  | Rejected _ => false
  end.

(** A run of the reduction with one more candidate loaded in front of it. *)
Definition afterLoading (candidate : IdTuple Id)
  (run : list (IdTuple Id) * Promise (list (IdTuple Id)))
  : list (IdTuple Id) * Promise (list (IdTuple Id)) :=
  (candidate :: fst run, snd run).

(** *** [search] *)

(** [Array.prototype.pop]: the last element, if any, and the array it
    leaves. *)
Definition pop {A : Type} (l : list A) : option A * list A :=
  match rev l with
  | [] => (None, [])
  | x :: r => (Some x, rev r)
  end.

Definition initialResult (this : Facade) (query : string) (restriction : Restriction)
  (searchTokens : list string) : Result :=
  {| query := query;
     restriction := restriction;
     results := [];
     currentIndexTimestamp := _getSearchEndTimestamp this restriction;
     moreResultsEntries := [];
     lastReadSearchIndexRow := map (fun token => (token, None)) searchTokens;
     matchWordOrder :=
       (1 <? length searchTokens)%nat && startsWith query dquote && endsWith query dquote |}.

(** [searchPromise.then(() => { result.results.sort(compareNewestFirst); return result })] *)
Definition sortedResult (result : Result) : Result :=
  set_results result (sortBy compareTuplesNewestFirst (results result)).

(** The branch for one search word with a suggestion facade: the result is
    returned as [_searchForTokens] leaves it. *)
Definition searchFirstWord (this : Facade) (result : Result) (suggestions : list string)
  (maxResults : option Z) : Facade * Promise Result :=
  let '(this', (result', p)) := _searchForTokens this result suggestions maxResults in
  (this', await _ <- p; Resolved result').

(** The branch for several search words with a suggestion facade: the last
    cursor row is popped and its word is used as prefix filter on the loaded
    entities. *)
Definition searchWithSuggestionToken (this : Facade) (result : Result)
  (minSuggestionCount : Z) : Facade * Promise Result :=
  match pop (lastReadSearchIndexRow result) with
  | (Some row, rows) =>
      let suggestionToken := fst row in
      let '(this', (result1, p)) :=
        _searchForTokens this (set_lastReadSearchIndexRow result rows) [suggestionToken] None in
      (this',
       await _ <- p;
       let result2 := sortedResult result1 in
       await filteredResults <-
         snd (_loadAndReduce this' (restriction result2) (results result2)
                suggestionToken minSuggestionCount);
       Resolved (sortedResult (set_results result2 filteredResults)))
  | (None, _) => (this, Rejected TypeError)
  end.

(** The branch without suggestions. *)
Definition searchAllTokens (this : Facade) (result : Result) (maxResults : option Z)
  : Facade * Promise Result :=
  let '(this', (result', p)) := _searchForTokens this result [] maxResults in
  (this', await _ <- p; Resolved (sortedResult result')).

Definition findSuggestionFacade (this : Facade) (restriction : Restriction)
  : option (SuggestionFacade TypeRef) :=
  find (fun f => isSameTypeRef (sf_type f) (rtype restriction)) (_suggestionFacades this).

Definition search (this : Facade) (query : string) (restriction : Restriction)
  (minSuggestionCount : Z) (maxResults : option Z) : Facade * Promise Result :=
  let searchTokens := tokenize query in
  let result := initialResult this query restriction searchTokens in
  if (0 <? length searchTokens)%nat then
    let isFirstWordSearch := (length searchTokens =? 1)%nat in
    match findSuggestionFacade this restriction with
    | Some suggestionFacade =>
        if (minSuggestionCount >? 0) && isFirstWordSearch then
          searchFirstWord this result
            (getSuggestions suggestionFacade (hd EmptyString searchTokens)) maxResults
        else if (minSuggestionCount >? 0) && negb isFirstWordSearch then
          searchWithSuggestionToken this result minSuggestionCount
        else searchAllTokens this result maxResults
    | None => searchAllTokens this result maxResults
    end
  else (this, Resolved result).

End Facade.

(** ** The specification's reading of three conditions

    Definitions that follow the words of the specification, to be compared
    with the translation of the code. *)

(** "The query is fully enclosed in double quotes": it begins with a double
    quote and it ends with one. *)
Definition fullyQuoted (q : string) : Prop :=
  (exists rest, q = (dquote ++ rest)%string) /\ (exists front, q = (front ++ dquote)%string).

Section Claimed.

Context {C : Collaborators}.

(** The end timestamp as the specification words it: [restriction.end] when
    it is set, otherwise the horizon that depends on the type. *)
Definition claimedEndTimestamp (this : SearchFacade Id TypeRef)
  (restriction : SearchRestriction Id TypeRef) : Z :=
  match end_ restriction with
  | Some e => e
  | None => defaultEndTimestamp this restriction
  end.

(** [a >= b] and [a < b] in the id order. *)
Definition idGe (a b : Id) : Prop := a = b \/ firstBiggerThanSecond a b = true.
Definition idLt (a b : Id) : Prop := firstBiggerThanSecond b a = true.

(** The acceptance condition of the constraint filter as the specification
    words it, an id bound being in force whenever the field is set. *)
Definition claimedAccepts (this : SearchFacade Id TypeRef)
  (restriction : SearchRestriction Id TypeRef) (entry : SearchIndexEntry Id) : Prop :=
  (attributeIds restriction = None
   \/ exists ids, attributeIds restriction = Some ids /\ In (attribute entry) ids)
  /\ idGe (id entry) (timestampToGeneratedId (claimedEndTimestamp this restriction))
  /\ (start restriction = None
      \/ exists s, start restriction = Some s
                   /\ idLt (id entry) (timestampToGeneratedId (s + 1))).

(** The condition the code implements: a bound given as [0] counts as not
    given. *)
Definition amendedAccepts (this : SearchFacade Id TypeRef)
  (restriction : SearchRestriction Id TypeRef) (entry : SearchIndexEntry Id) : Prop :=
  (attributeIds restriction = None
   \/ exists ids, attributeIds restriction = Some ids /\ In (attribute entry) ids)
  /\ idGe (id entry)
       (timestampToGeneratedId
          (match end_ restriction with
           | Some e => if e =? 0 then defaultEndTimestamp this restriction else e
           | None => defaultEndTimestamp this restriction
           end))
  /\ (start restriction = None \/ start restriction = Some 0
      \/ exists s, start restriction = Some s
                   /\ idLt (id entry) (timestampToGeneratedId (s + 1))).

(** [ei] is an entry for the element and the attribute of [e1]. *)
Definition sameElementAndAttribute (e1 ei : SearchIndexEntry Id) : Prop :=
  id ei = id e1 /\ attribute ei = attribute e1.

(** The entry the pass finds for [e1] in the list of a term: an entry of
    the list for the element and the attribute of [e1], the first one in
    the list if it has several. *)
Definition foundFor (e1 : SearchIndexEntry Id) (entries : list (SearchIndexEntry Id))
  (ei : SearchIndexEntry Id) : Prop :=
  exists before after,
    entries = before ++ ei :: after
    /\ sameElementAndAttribute e1 ei
    /\ forall e, In e before -> ~ sameElementAndAttribute e1 e.

(** The phrase condition for a first-term entry [e1] and the entry lists of
    the later terms: every later term [i] has an entry [ei] for the element
    and the attribute of [e1], and some position [p] of [e1] is left when the
    positions of [e1] have been intersected with [{ p | p + i in
    ei.positions }] for every [i]. *)
Definition phraseMatches (e1 : SearchIndexEntry Id)
  (rest : list (KeyToIndexEntries Id)) : Prop :=
  exists p : N,
    In p (positions e1)
    /\ forall (i : nat) (r : KeyToIndexEntries Id),
         nth_error rest i = Some r ->
         exists ei,
           foundFor e1 (indexEntries r) ei
           /\ In (p + N.of_nat (S i))%N (positions ei).

(** The same condition with any entry of the list for the element and the
    attribute of [e1], not only the first. *)
Definition phraseMatchesSomeEntry (e1 : SearchIndexEntry Id)
  (rest : list (KeyToIndexEntries Id)) : Prop :=
  exists p : N,
    In p (positions e1)
    /\ forall (i : nat) (r : KeyToIndexEntries Id),
         nth_error rest i = Some r ->
         exists ei,
           In ei (indexEntries r)
           /\ sameElementAndAttribute e1 ei
           /\ In (p + N.of_nat (S i))%N (positions ei).

(** No later term lists two entries for the element and the attribute of
    [e1]. *)
Definition oneEntryPerAttribute (e1 : SearchIndexEntry Id)
  (rest : list (KeyToIndexEntries Id)) : Prop :=
  forall r a b,
    In r rest -> In a (indexEntries r) -> In b (indexEntries r) ->
    sameElementAndAttribute e1 a -> sameElementAndAttribute e1 b -> a = b.

End Claimed.

(** ** Vocabulary of the properties *)

Section Vocabulary.

Context {C : Collaborators}.

Local Abbreviation Result := (SearchResult Id TypeRef).
Local Abbreviation Facade := (SearchFacade Id TypeRef).
Local Abbreviation Entry := (SearchIndexEntry Id).

(** The fields of a [SearchResult] other than [results] and the cursor
    values: no page assigns them. *)
Definition sameRequest (a b : Result) : Prop :=
  query a = query b
  /\ restriction a = restriction b
  /\ currentIndexTimestamp a = currentIndexTimestamp b
  /\ moreResultsEntries a = moreResultsEntries b
  /\ matchWordOrder a = matchWordOrder b
  /\ map fst (lastReadSearchIndexRow a) = map fst (lastReadSearchIndexRow b).

(** Later pages on a result, each run against the facade state of its time
    with its own count. *)
Definition laterPages (pages : list (Facade * Z)) (result : Result) : Result :=
  fold_left (fun sr page => fst (getMoreSearchResults (fst page) sr (snd page))) pages result.

(** Two searches settle alike: with the same results, or with the same
    error. *)
Definition sameResults (p1 p2 : Promise (SearchResult Id TypeRef)) : Prop :=
  match p1, p2 with
  | Resolved a, Resolved b => results a = results b
  | Rejected e1, Rejected e2 => e1 = e2
  | _, _ => False
  end.

(** Ids are encrypted deterministically: index entries that decrypt to the
    same id carry the same encrypted id. *)
Definition deterministicIdEncryption : Prop :=
  forall b1 b2 : bytes,
    id (decryptSearchIndexEntry b1) = id (decryptSearchIndexEntry b2) ->
    encId (decryptSearchIndexEntry b1) = encId (decryptSearchIndexEntry b2).

(** [a] is at least as new as [b]. *)
Definition newerEq (a b : Id) : Prop := a = b \/ firstBiggerThanSecond a b = true.

Definition newer (a b : Id) : Prop := firstBiggerThanSecond a b = true.

(** An entry that came out of [decryptSearchIndexEntry]. *)
Definition decrypted (e : Entry) : Prop := exists b, e = decryptSearchIndexEntry b.

(** Entries the assembler cannot tell apart. *)
Definition sameKey (a b : Entry) : Prop := id a = id b /\ encId a = encId b.

(** Entry lists the assembler treats alike: the same ids, each once. *)
Definition equivalentEntries (u1 u2 : list Entry) : Prop :=
  NoDup (map (@id Id) u1) /\ NoDup (map (@id Id) u2)
  /\ (forall i, In i (map (@id Id) u1) <-> In i (map (@id Id) u2))
  /\ Forall decrypted u1 /\ Forall decrypted u2.

(** Two settled promises of lists agree up to the order of the elements. *)
Definition permutedOutcome {A : Type} (p1 p2 : Promise (list A)) : Prop :=
  match p1, p2 with
  | Resolved a, Resolved b => Permutation a b
  | Rejected e1, Rejected e2 => e1 = e2
  | _, _ => False
  end.

End Vocabulary.

Section IntersectionShape.

Variables (R E K : Type).
Variable eqb : K -> K -> bool.
Variable key : E -> K.
Variable entriesOf : R -> list E.

(** The shape shared by [matchingEncIdsOf] and [matchingIdsOf]. *)
Definition hasKey (s : option (list K)) (x : K) : bool :=
  match s with
  | Some l => existsb (eqb x) l
  | None => false
  end.

Definition matchingKeysOf (rs : list R) : option (list K) :=
  fold_left
    (fun (matching : option (list K)) r =>
       match matching with
       | None => Some (map key (entriesOf r))
       | Some _ =>
           Some (map key (filter (fun e => hasKey matching (key e)) (entriesOf r)))
       end)
    rs None.

End IntersectionShape.

(** ** A concrete store: the scenarios of the specification

    Ids are numbers (a larger id is newer), an encrypted index entry is the
    byte of its id, the byte of its attribute and one byte per position, and
    a metadata row is four bytes per descriptor. *)

Module Scenario.

Definition byteOfN (n : N) : Byte.byte :=
  match Byte.of_N n with
  | Some b => b
  | None => Byte.x00
  end.

Definition block (elementId attr : N) (poss : list N) : bytes :=
  byteOfN elementId :: byteOfN attr :: map byteOfN poss.

Fixpoint decodeMetaData (row : bytes) : list SearchIndexMetadataEntry :=
  match row with
  | k :: s :: a :: t :: rest =>
      {| key := Byte.to_N k; size := Byte.to_N s; app := Byte.to_N a; mtype := Byte.to_N t |}
        :: decodeMetaData rest
  | _ => []
  end.

Definition decodeEntry (b : bytes) : SearchIndexEntry N :=
  match b with
  | i :: a :: poss =>
      {| id := Byte.to_N i; attribute := Byte.to_N a;
         positions := map Byte.to_N poss; encId := [i] |}
  | _ => {| id := 0%N; attribute := 0%N; positions := []; encId := [Byte.x00] |}
  end.

Definition isSeparator (c : ascii) : bool :=
  Ascii.eqb c " "%char || Ascii.eqb c (Ascii.ascii_of_nat 34).

Fixpoint splitWords (s current : string) : list string :=
  match s with
  | EmptyString =>
      match current with
      | EmptyString => []
      | _ => [current]
      end
  | String c rest =>
      if isSeparator c then
        match current with
        | EmptyString => splitWords rest EmptyString
        | _ => current :: splitWords rest EmptyString
        end
      else splitWords rest (current ++ String c EmptyString)%string
  end.

(** The entities behind the ids, as the words of their text; 90 is gone and
    70 cannot be read; 30 is a contact. *)
Definition loadEntity (t : IdTuple N) : Promise (list string) :=
  let i := snd t in
  if (i =? 100)%N then Resolved ["beta"%string; "alpha"%string]
  else if (i =? 90)%N then Rejected NotFoundError
  else if (i =? 80)%N then Resolved ["alpha"%string; "gamma"%string]
  else if (i =? 70)%N then Rejected (OtherError "connection lost"%string)
  else if (i =? 30)%N then Resolved ["ann"%string; "berlin"%string]
  else Rejected NotFoundError.

#[export] Instance collaborators : Collaborators := {|
  Id := N;
  Id_eq_dec := N.eq_dec;
  TypeRef := string;
  Entity := list string;
  TypeModel := unit;
  firstBiggerThanSecond := fun a b => (b <? a)%N;
  isSameTypeRef := String.eqb;
  resolveTypeReference := fun _ => Resolved tt;
  MailTypeRef := "Mail"%string;
  FULL_INDEXED_TIMESTAMP := 0;
  NOTHING_INDEXED_TIMESTAMP := 4398046511103;
  timestampToGeneratedId := Z.to_N;
  uint8ArrayToBase64 := string_of_list_byte;
  getStartOfDay := fun t => t - t mod 86400000;
  tokenize := fun text => splitWords text EmptyString;
  typeRefToTypeInfo :=
    fun t => {| appId := 1; typeId := if String.eqb t "Mail" then 1%N else 2%N |};
  encryptIndexKeyBase64 := fun token => token;
  decryptMetaData := decodeMetaData;
  getIdFromEncSearchIndexEntry := firstn 1;
  arrayHash := fun b => match b with i :: _ => Z.of_N (Byte.to_N i) | [] => 0 end;
  decryptSearchIndexEntry := decodeEntry;
  awaitMailboxIndexing := fun this => (this, Resolved tt);
  indexMailboxes := fun this _ => this;
  answeredNext := fun _ => 0%nat;
  load := fun _ _ t => loadEntity t;
  containsSuggestionToken :=
    fun entity _ _ token => Resolved (existsb (fun w => startsWith w token) entity)
|}.

(** The list every element belongs to. *)
Definition L : N := 7%N.

(** The id tuple of element [i]. *)
Definition element (i : N) : IdTuple (@Id collaborators) := (L, i).

Definition metaDataRow (k s t : N) : bytes := [byteOfN k; byteOfN s; byteOfN 1; byteOfN t].

(** [alpha] posts on ids 100, 90 and 80, [beta] on 100, 80 and 70 (mail);
    [food], [fool], [foot] and [ann] post on one contact each and [foo] on
    none. *)
Definition db : Db N := {|
  SearchIndexMetaDataOS := fun indexKey =>
    if String.eqb indexKey "alpha" then Some (metaDataRow 1 3 1)
    else if String.eqb indexKey "beta" then Some (metaDataRow 2 3 1)
    else if String.eqb indexKey "food" then Some (metaDataRow 3 1 2)
    else if String.eqb indexKey "fool" then Some (metaDataRow 4 1 2)
    else if String.eqb indexKey "foot" then Some (metaDataRow 5 1 2)
    else if String.eqb indexKey "ann" then Some (metaDataRow 6 1 2)
    else None;
  SearchIndexOS := fun k =>
    if (k =? 1)%N then Some [block 100 1 [3]; block 90 1 [5]; block 80 1 [2]]%N
    else if (k =? 2)%N then Some [block 100 1 [4]; block 80 1 [7]; block 70 1 [1]]%N
    else if (k =? 3)%N then Some [block 60 1 [1]]%N
    else if (k =? 4)%N then Some [block 50 1 [1]]%N
    else if (k =? 5)%N then Some [block 40 1 [1]]%N
    else if (k =? 6)%N then Some [block 30 1 [1]]%N
    else None;
  ElementDataOS := fun _ => Some {| elementListId := L |}
|}.

Definition facade : SearchFacade N string := {|
  _db := db;
  mailIndexer_currentIndexTimestamp := 0;
  _suggestionFacades :=
    [ {| sf_type := "Contact"%string;
         getSuggestions := fun t =>
           if String.eqb t "foo" then ["food"; "fool"; "foot"]%string else [] |} ];
  dateNow := 1000
|}.

Definition mails : SearchRestriction N string :=
  {| rtype := "Mail"%string; start := None; end_ := None; attributeIds := None; listId := None |}.

Definition contacts : SearchRestriction N string :=
  {| rtype := "Contact"%string; start := None; end_ := None; attributeIds := None;
     listId := None |}.

(** Scenario S3 after the first page of two results: the cursor of [alpha]
    stands at row 1. *)
Definition firstPage : SearchResult N string :=
  {| query := "alpha"%string;
     restriction := mails;
     results := [(L, 100%N); (L, 90%N)];
     currentIndexTimestamp := 0;
     moreResultsEntries := [];
     lastReadSearchIndexRow := [("alpha"%string, Some 1%N)];
     matchWordOrder := false |}.

(** The same result with the cursor of [alpha] at 0. *)
Definition rewoundPage : SearchResult N string :=
  {| query := "alpha"%string;
     restriction := mails;
     results := [(L, 100%N); (L, 90%N)];
     currentIndexTimestamp := 0;
     moreResultsEntries := [];
     lastReadSearchIndexRow := [("alpha"%string, Some 0%N)];
     matchWordOrder := false |}.

(** The value a settled promise resolved with, if it did. *)
Definition resolved {A : Type} (p : Promise A) : option A :=
  match p with
  | Resolved a => Some a
  | Rejected _ => None
  end.

(** The result of a search and of [n] further pages of [m] results each. *)
Fixpoint morePages (n : nat) (m : Z) (sr : SearchResult N string) : SearchResult N string :=
  match n with
  | O => sr
  | S k => morePages k m (fst (getMoreSearchResults facade sr m))
  end.

End Scenario.

(** ** Vocabulary of the further properties *)

Section PageVocabulary.

Context {C : Collaborators}.

(** The array slots one call of [_findEntriesForSearchToken] gets for a
    cursor row: the rows of the descriptors it selects, concatenated. *)
Definition slotsRead (this : SearchFacade Id TypeRef) (restriction : SearchRestriction Id TypeRef)
  (maxResults : option Z) (searchTokenInfo : string * option N) : list (option bytes) :=
  concat (map (_findEntriesForMetadata this)
            (rowsToRead this restriction maxResults searchTokenInfo)).

(** The index entries among them, decrypted. *)
Definition postingsRead (this : SearchFacade Id TypeRef)
  (restriction : SearchRestriction Id TypeRef) (maxResults : option Z)
  (searchTokenInfo : string * option N) : list (SearchIndexEntry Id) :=
  flat_map (fun slot : option bytes =>
              match slot with
              | Some b => [decryptSearchIndexEntry b]
              | None => []
              end)
    (slotsRead this restriction maxResults searchTokenInfo).

(** [results] after the element data of the entries [looked] have been
    answered, in that order. *)
Definition lookedUp (this : SearchFacade Id TypeRef)
  (restriction : SearchRestriction Id TypeRef) (looked : list (SearchIndexEntry Id))
  (results : list (IdTuple Id)) : list (IdTuple Id) :=
  fold_left (fun acc entry => onElementData this restriction entry acc) looked results.

(** The entries [Promise.map] still has to deal with. *)
Definition pending (st : Mapping) : list (SearchIndexEntry Id) :=
  m_inFlight st ++ m_queue st.

(** Entries wait in the queue only while five lookups are in flight. *)
Definition queueWaits (st : Mapping) : Prop :=
  m_queue st <> [] -> (concurrency <= length (m_inFlight st))%nat.

(** [maxResults] is not reached as long as [results] holds fewer than [n]
    tuples. *)
Definition neverReached (maxResults : option Z) (n : nat) : Prop :=
  forall k : nat, (k < n)%nat -> reachedMaxResults maxResults k = false.

(** Two runs of [Promise.map] that stand alike: the same results, and entry
    by entry the same ids and encrypted ids in flight and in the queue. *)
Definition sameLookups (a b : Mapping) : Prop :=
  m_results a = m_results b
  /\ Forall2 sameKey (m_inFlight a) (m_inFlight b)
  /\ Forall2 sameKey (m_queue a) (m_queue b).

(** The lookups of a run are within bounds: at most five are in flight, and
    the results and the lookups in flight together do not exceed [bound]. *)
Definition withinBound (bound : Z) (st : Mapping) : Prop :=
  (length (m_inFlight st) <= concurrency)%nat
  /\ Z.of_nat (length (m_results st) + length (m_inFlight st)) <= bound.

(** The transaction answers its lookups in the order they were asked, as
    IndexedDB does for the requests of one transaction. *)
Definition answersInOrder : Prop := forall keys : list string, answeredNext keys = 0%nat.

(** The order in which [Promise.map] asks for the element data of the
    entries when every lookup is answered before the next one: the first
    five in the order of the array, and the others from the end of the
    array backwards. *)
Definition lookupOrder (entries : list (SearchIndexEntry Id)) : list (SearchIndexEntry Id) :=
  firstn concurrency entries ++ rev (skipn concurrency entries).

(** The element data of an entry puts it into the results under list id
    [l]: the row exists, starts with [l], and [l] is the list the
    restriction asks for, if it asks for one. *)
Definition storedUnder (this : SearchFacade Id TypeRef)
  (restriction : SearchRestriction Id TypeRef) (entry : SearchIndexEntry Id) (l : Id) : Prop :=
  ElementDataOS (_db this) (uint8ArrayToBase64 (encId entry))
    = Some {| elementListId := l |}
  /\ (forall wanted, listId restriction = Some wanted -> wanted = l).

End PageVocabulary.

Section HashVocabulary.

Context {C : Collaborators}.

(** Entries that decrypt to the same id carry the same id hash, over all
    the entries read for the words of a query. *)
Definition sameIdSameHash (ks : list KeyToEncryptedIndexEntries) : bool :=
  let all := flat_map e_indexEntries ks in
  forallb
    (fun x1 : EncryptedSearchIndexEntryWithHash =>
       forallb
         (fun x2 : EncryptedSearchIndexEntryWithHash =>
            implb (Id_eqb (id (decryptSearchIndexEntry (encEntry x1)))
                     (id (decryptSearchIndexEntry (encEntry x2))))
              (idHash x1 =? idHash x2))
         all)
    all.

(** The encrypted entries a page reads for its cursor rows. *)
Definition entriesRead (this : SearchFacade Id TypeRef)
  (restriction : SearchRestriction Id TypeRef) (maxResults : option Z)
  (rows : list (string * option N)) : list bytes :=
  flat_map
    (fun row =>
       flat_map (fun slot : option bytes => match slot with Some b => [b] | None => [] end)
         (slotsRead this restriction maxResults row))
    rows.

(** Among the given encrypted entries, the hash of the encrypted id is a
    function of the id. *)
Definition hashFollowsId (bs : list bytes) : bool :=
  forallb
    (fun b1 : bytes =>
       forallb
         (fun b2 : bytes =>
            implb (Id_eqb (id (decryptSearchIndexEntry b1)) (id (decryptSearchIndexEntry b2)))
              (arrayHash (getIdFromEncSearchIndexEntry b1)
               =? arrayHash (getIdFromEncSearchIndexEntry b2)))
         bs)
    bs.

(** A search result with the word-order flag replaced. *)
Definition withMatchWordOrder (sr : SearchResult Id TypeRef) (flag : bool)
  : SearchResult Id TypeRef :=
  {| query := query sr; restriction := restriction sr; results := results sr;
     currentIndexTimestamp := currentIndexTimestamp sr;
     moreResultsEntries := moreResultsEntries sr;
     lastReadSearchIndexRow := lastReadSearchIndexRow sr;
     matchWordOrder := flag |}.

End HashVocabulary.

(** Seven index entries of one word, oldest first. *)
Module SevenMails.

Definition entries : list (SearchIndexEntry N) :=
  map (fun i => Scenario.decodeEntry (Scenario.block i 1 [1%N]))
    [10; 20; 30; 40; 50; 60; 70]%N.

End SevenMails.

(** A word with five index rows of 250 entries each. *)
Module LargeWord.

Definition db : Db N := {|
  SearchIndexMetaDataOS := fun indexKey =>
    if String.eqb indexKey "big"
    then Some (concat (map (fun k => Scenario.metaDataRow k 250 1) [11; 12; 13; 14; 15]%N))
    else None;
  SearchIndexOS := fun _ => None;
  ElementDataOS := fun _ => None
|}.

Definition facade : SearchFacade N string := {|
  _db := db;
  mailIndexer_currentIndexTimestamp := 0;
  _suggestionFacades := [];
  dateNow := 1000
|}.

End LargeWord.

(** * Properties *)

(** ** Strings *)

Lemma prefix_cons (c a : ascii) (s t : string) :
  String.prefix (String c s) (String a t) = if ascii_dec c a then String.prefix s t else false.
Proof. reflexivity. Qed.

Lemma startsWith_dquote (q : string) :
  startsWith q dquote = true <-> exists rest, q = (dquote ++ rest)%string.
Proof.
  unfold startsWith, dquote. split.
  - destruct q as [|a q]; [discriminate|].
    rewrite prefix_cons.
    destruct (ascii_dec (ascii_of_nat 34) a) as [E|]; [|discriminate].
    intros _. exists q. now rewrite <- E.
  - intros [rest ->]. change (String.prefix (String (ascii_of_nat 34) EmptyString)
                                (String (ascii_of_nat 34) rest) = true).
    rewrite prefix_cons.
    destruct (ascii_dec (ascii_of_nat 34) (ascii_of_nat 34)); [|congruence].
    now destruct rest.
Qed.

Lemma substring_last (q : string) (a : ascii) :
  exists front c,
    String a q = (front ++ String c EmptyString)%string
    /\ substring (String.length q) 1 (String a q) = String c EmptyString.
Proof.
  revert a. induction q as [|b q IH]; intros a.
  - exists EmptyString, a. now split.
  - destruct (IH b) as (front & c & Hq & Hs).
    exists (String a front), c. split.
    + simpl. now rewrite <- Hq.
    + exact Hs.
Qed.

Lemma append_last_inj (s t : string) (c d : ascii) :
  (s ++ String c EmptyString)%string = (t ++ String d EmptyString)%string -> c = d.
Proof.
  revert t. induction s as [|a s IH]; intros [|b t]; simpl; intros H.
  - now inversion H.
  - inversion H as [[Ha Ht]]. now destruct t.
  - inversion H as [[Ha Hs]]. now destruct s.
  - inversion H. eauto.
Qed.

Lemma endsWith_dquote (q : string) :
  endsWith q dquote = true <-> exists front, q = (front ++ dquote)%string.
Proof.
  unfold endsWith, dquote. destruct q as [|a q].
  - simpl. split; [discriminate|]. intros [[|b front] H]; discriminate.
  - destruct (substring_last q a) as (front & c & Hq & Hs).
    replace (String.length (String a q) - String.length (String (ascii_of_nat 34) EmptyString))%nat
      with (String.length q) by (simpl; lia).
    change (String.length (String (ascii_of_nat 34) EmptyString)) with 1%nat.
    rewrite Hs. replace (1 <=? String.length (String a q))%nat with true
      by (symmetry; apply Nat.leb_le; simpl; lia).
    rewrite andb_true_l. rewrite String.eqb_eq. split.
    + intros [= ->]. now exists front.
    + intros [front' H']. rewrite Hq in H'.
      now rewrite (append_last_inj _ _ _ _ H').
Qed.

(** ** What a page leaves untouched *)

Section Frame.

Context {C : Collaborators}.

Local Abbreviation Restriction := (SearchRestriction Id TypeRef).
Local Abbreviation Result := (SearchResult Id TypeRef).
Local Abbreviation Facade := (SearchFacade Id TypeRef).

Lemma sameRequest_refl (a : Result) : sameRequest a a.
Proof. repeat split. Qed.

Lemma sameRequest_trans (a b c : Result) :
  sameRequest a b -> sameRequest b c -> sameRequest a c.
Proof.
  unfold sameRequest. intros (?&?&?&?&?&?) (?&?&?&?&?&?).
  repeat split; congruence.
Qed.

Lemma sameRequest_set_results (a : Result) rs : sameRequest (set_results a rs) a.
Proof. repeat split. Qed.

Lemma findEntriesForSearchToken_token (this : Facade) (r : Restriction) m row :
  fst (fst (_findEntriesForSearchToken this r m row)) = fst row.
Proof.
  unfold _findEntriesForSearchToken. destruct row as [token fromRow].
  now destruct (selectRowsToRead _ _ _ _ _).
Qed.

Lemma findIndexEntriesFrom_tokens (this : Facade) (r : Restriction) m rows :
  map fst (fst (_findIndexEntriesFrom this r m rows)) = map fst rows.
Proof.
  induction rows as [|row rows IH]; [reflexivity|].
  simpl. pose proof (findEntriesForSearchToken_token this r m row) as Ht.
  destruct (_findEntriesForSearchToken this r m row) as [row' [k|e]]; simpl in *.
  - destruct (_findIndexEntriesFrom this r m rows) as [rows' q]; simpl in *. congruence.
  - congruence.
Qed.

Lemma findIndexEntries_sameRequest (this : Facade) (sr : Result) m :
  sameRequest (fst (_findIndexEntries this sr m)) sr.
Proof.
  unfold _findIndexEntries.
  pose proof (findIndexEntriesFrom_tokens this (restriction sr) m (lastReadSearchIndexRow sr)).
  destruct (_findIndexEntriesFrom _ _ _ _) as [rows p]. simpl in *.
  repeat split; assumption.
Qed.

Lemma startOrContinueSearch_sameRequest (this : Facade) (sr : Result) m :
  sameRequest (fst (_startOrContinueSearch this sr m)) sr.
Proof.
  unfold _startOrContinueSearch.
  pose proof (findIndexEntries_sameRequest this sr m) as H.
  destruct (_findIndexEntries this sr m) as [sr1 found]. simpl in H.
  destruct (bindP found _); simpl; [|assumption].
  eapply sameRequest_trans; [apply sameRequest_set_results|assumption].
Qed.

Lemma searchForTokens_sameRequest (this : Facade) (sr : Result) suggestions m :
  sameRequest (fst (snd (_searchForTokens this sr suggestions m))) sr.
Proof.
  unfold _searchForTokens. destruct (_tryExtendIndex this (restriction sr)) as [this' [u|e]]; simpl.
  - apply startOrContinueSearch_sameRequest.
  - apply sameRequest_refl.
Qed.

End Frame.

(** ** The request fields of the result of [search] *)

Section SearchRequest.

Context {C : Collaborators}.

Local Abbreviation Restriction := (SearchRestriction Id TypeRef).
Local Abbreviation Result := (SearchResult Id TypeRef).
Local Abbreviation Facade := (SearchFacade Id TypeRef).

Lemma pop_spec (A : Type) (l : list A) :
  match pop l with
  | (Some x, r) => l = r ++ [x]
  | (None, r) => l = [] /\ r = []
  end.
Proof.
  unfold pop. destruct (rev l) as [|x r] eqn:E.
  - split; [|reflexivity]. apply (f_equal (@rev A)) in E. now rewrite rev_involutive in E.
  - apply (f_equal (@rev A)) in E. now rewrite rev_involutive in E.
Qed.

Lemma pop_removelast (A : Type) (l : list A) (x : A) (r : list A) :
  pop l = (Some x, r) -> r = removelast l /\ l = r ++ [x].
Proof.
  intros H. pose proof (pop_spec l) as P. rewrite H in P. subst l.
  now rewrite removelast_last.
Qed.

Lemma sortedResult_sameRequest (sr : Result) : sameRequest (sortedResult sr) sr.
Proof. apply sameRequest_set_results. Qed.

Lemma searchFirstWord_resolved (this this' : Facade) (result res : Result) suggestions m :
  searchFirstWord this result suggestions m = (this', Resolved res) ->
  sameRequest res result.
Proof.
  unfold searchFirstWord.
  pose proof (searchForTokens_sameRequest this result suggestions m) as H.
  destruct (_searchForTokens this result suggestions m) as [t [result' [u|e]]]; simpl in *;
    intros [= _ <-]; assumption.
Qed.

Lemma searchAllTokens_resolved (this this' : Facade) (result res : Result) m :
  searchAllTokens this result m = (this', Resolved res) ->
  sameRequest res result.
Proof.
  unfold searchAllTokens.
  pose proof (searchForTokens_sameRequest this result [] m) as H.
  destruct (_searchForTokens this result [] m) as [t [result' [u|e]]]; simpl in *;
    intros [= _ <-].
  eapply sameRequest_trans; [apply sortedResult_sameRequest|assumption].
Qed.

Lemma searchWithSuggestionToken_resolved (this this' : Facade) (result res : Result) msc :
  searchWithSuggestionToken this result msc = (this', Resolved res) ->
  sameRequest res
    (set_lastReadSearchIndexRow result (removelast (lastReadSearchIndexRow result))).
Proof.
  unfold searchWithSuggestionToken.
  destruct (pop (lastReadSearchIndexRow result)) as [[row|] rows] eqn:P; [|discriminate].
  apply pop_removelast in P as [-> _].
  set (sr0 := set_lastReadSearchIndexRow result _).
  pose proof (searchForTokens_sameRequest this sr0 [fst row] None) as H.
  destruct (_searchForTokens this sr0 [fst row] None) as [t [result1 [u|e]]]; simpl in *;
    [|discriminate].
  destruct (snd (_loadAndReduce _ _ _ _ _)) as [filtered|e]; simpl; [|discriminate].
  intros [= _ <-].
  eapply sameRequest_trans; [apply sortedResult_sameRequest|].
  eapply sameRequest_trans; [apply sameRequest_set_results|].
  eapply sameRequest_trans; [apply sortedResult_sameRequest|assumption].
Qed.

(** Whatever branch [search] takes, the word-order flag of the result it
    resolves with is the one computed for the initial result. *)
Lemma search_resolved_matchWordOrder (this this' : Facade) q (r : Restriction) msc m res :
  search this q r msc m = (this', Resolved res) ->
  matchWordOrder res = matchWordOrder (initialResult this q r (tokenize q)).
Proof.
  unfold search.
  destruct (0 <? length (tokenize q))%nat; [|now intros [= _ <-]].
  destruct (findSuggestionFacade this r) as [sf|].
  - destruct ((msc >? 0) && (length (tokenize q) =? 1)%nat).
    + intros H. now apply searchFirstWord_resolved in H as (_&_&_&_&?&_).
    + destruct ((msc >? 0) && negb (length (tokenize q) =? 1)%nat).
      * intros H. now apply searchWithSuggestionToken_resolved in H as (_&_&_&_&?&_).
      * intros H. now apply searchAllTokens_resolved in H as (_&_&_&_&?&_).
  - intros H. now apply searchAllTokens_resolved in H as (_&_&_&_&?&_).
Qed.

End SearchRequest.

(** ** C8: when the word order has to match *)

(** C8.  For every query, the result [search] resolves with has
    [matchWordOrder] set if and only if the tokenizer yields at least two
    search words and the query begins and ends with a double quote. *)
Theorem search_matchWordOrder_iff :
  forall (C : Collaborators) (this this' : SearchFacade Id TypeRef) (q : string)
         (r : SearchRestriction Id TypeRef) (minSuggestionCount : Z) (maxResults : option Z)
         (result : SearchResult Id TypeRef),
    search this q r minSuggestionCount maxResults = (this', Resolved result) ->
    (matchWordOrder result = true <-> (2 <= length (tokenize q))%nat /\ fullyQuoted q).
Proof.
  intros C this this' q r msc m result H.
  rewrite (search_resolved_matchWordOrder _ _ _ _ _ H). simpl.
  unfold fullyQuoted. rewrite <- startsWith_dquote, <- endsWith_dquote.
  rewrite !andb_true_iff, Nat.ltb_lt. intuition lia.
Qed.

(** The quoted query of scenario S2 against the scenario store. *)
Lemma search_matchWordOrder_iff_witness :
  match search (C := Scenario.collaborators) Scenario.facade
          (dquote ++ "alpha beta" ++ dquote)%string Scenario.mails 0 (Some 10) with
  | (_, Resolved result) =>
      matchWordOrder result = true
      <-> (2 <= length (tokenize (Collaborators := Scenario.collaborators)
                          (dquote ++ "alpha beta" ++ dquote)%string))%nat
          /\ fullyQuoted (dquote ++ "alpha beta" ++ dquote)%string
  | (_, Rejected _) => False
  end.
Proof.
  destruct (search (C := Scenario.collaborators) Scenario.facade
              (dquote ++ "alpha beta" ++ dquote)%string Scenario.mails 0 (Some 10))
    as [this' [result|e]] eqn:E.
  - exact (search_matchWordOrder_iff Scenario.collaborators _ _ _ _ _ E).
  - vm_compute in E. discriminate E.
Defined.

(** ** C10: the cursor of a search with a suggestion word *)

Section SuggestionCursor.

Context {C : Collaborators}.

Local Abbreviation Restriction := (SearchRestriction Id TypeRef).
Local Abbreviation Result := (SearchResult Id TypeRef).
Local Abbreviation Facade := (SearchFacade Id TypeRef).

Lemma laterPages_sameRequest (pages : list (Facade * Z)) (result : Result) :
  sameRequest (laterPages pages result) result.
Proof.
  unfold laterPages. revert result.
  induction pages as [|page pages IH]; intros result; [apply sameRequest_refl|].
  simpl. eapply sameRequest_trans; [apply IH|].
  apply startOrContinueSearch_sameRequest.
Qed.

(** The index keys a page gets entries for are those of its cursor rows, in
    order. *)
Lemma findIndexEntriesFrom_keys (this : Facade) (r : Restriction) m rows ks :
  snd (_findIndexEntriesFrom this r m rows) = Resolved ks ->
  map e_indexKey ks = map (fun row => encryptIndexKeyBase64 (fst row)) rows.
Proof.
  revert ks. induction rows as [|[token fromRow] rows IH]; intros ks; simpl.
  - now intros [= <-].
  - unfold _findEntriesForSearchToken.
    destruct (selectRowsToRead _ _ _ _ _) as [toRead lastRead].
    destruct (mapInCallContext withIdHash _) as [entries|e]; simpl; [|discriminate].
    destruct (_findIndexEntriesFrom this r m rows) as [rows' [ks'|e]]; simpl in *;
      [|discriminate].
    intros [= <-]. simpl. f_equal. now apply IH.
Qed.

Lemma findIndexEntries_keys (this : Facade) (sr : Result) m ks :
  snd (_findIndexEntries this sr m) = Resolved ks ->
  map e_indexKey ks = map encryptIndexKeyBase64 (map fst (lastReadSearchIndexRow sr)).
Proof.
  unfold _findIndexEntries. intros H. rewrite map_map.
  apply (findIndexEntriesFrom_keys this (restriction sr) m (lastReadSearchIndexRow sr)).
  now destruct (_findIndexEntriesFrom _ _ _ _).
Qed.

Lemma removelast_map (A B : Type) (f : A -> B) (l : list A) :
  removelast (map f l) = map f (removelast l).
Proof.
  induction l as [|x [|y l] IH]; try reflexivity.
  change (f x :: removelast (map f (y :: l)) = f x :: map f (removelast (y :: l))).
  now rewrite IH.
Qed.

Lemma length_removelast (A : Type) (l : list A) :
  length (removelast l) = (length l - 1)%nat.
Proof.
  induction l as [|x [|y l] IH]; try reflexivity.
  change (S (length (removelast (y :: l))) = (length (x :: y :: l) - 1)%nat).
  rewrite IH. simpl. lia.
Qed.

(** With a suggestion facade and several search words, [search] is the
    branch that pops the last cursor row. *)
Lemma search_with_suggestion_token (this : Facade) q (r : Restriction) msc m :
  msc > 0 -> (2 <= length (tokenize q))%nat -> findSuggestionFacade this r <> None ->
  search this q r msc m
  = searchWithSuggestionToken this (initialResult this q r (tokenize q)) msc.
Proof.
  intros Hmsc Hlen Hsf. unfold search.
  destruct (findSuggestionFacade this r); [|congruence].
  replace (0 <? length (tokenize q))%nat with true by (symmetry; apply Nat.ltb_lt; lia).
  replace (length (tokenize q) =? 1)%nat with false by (symmetry; apply Nat.eqb_neq; lia).
  replace (msc >? 0) with true by (symmetry; apply Z.gtb_lt; lia).
  reflexivity.
Qed.

(** What the branch does, step by step. *)
Lemma searchWithSuggestionToken_steps (this this' : Facade) (result res : Result) msc :
  searchWithSuggestionToken this result msc = (this', Resolved res) ->
  exists row rows page kept,
    pop (lastReadSearchIndexRow result) = (Some row, rows)
    /\ _searchForTokens this (set_lastReadSearchIndexRow result rows) [fst row] None
       = (this', (page, Resolved tt))
    /\ snd (_loadAndReduce this' (restriction result)
              (sortBy compareTuplesNewestFirst (results page)) (fst row) msc)
       = Resolved kept
    /\ results res = sortBy compareTuplesNewestFirst kept
    /\ lastReadSearchIndexRow res = lastReadSearchIndexRow page.
Proof.
  unfold searchWithSuggestionToken.
  destruct (pop (lastReadSearchIndexRow result)) as [[row|] rows] eqn:P; [|discriminate].
  pose proof (searchForTokens_sameRequest this (set_lastReadSearchIndexRow result rows)
                [fst row] None) as Hsame.
  destruct (_searchForTokens this (set_lastReadSearchIndexRow result rows) [fst row] None)
    as [t [page [[]|e]]] eqn:S; simpl in Hsame |- *; [|discriminate].
  destruct Hsame as (_ & Hr & _). simpl in Hr. rewrite Hr.
  destruct (snd (_loadAndReduce _ _ _ _ _)) as [kept|e] eqn:L; simpl; [|discriminate].
  intros [= <- <-]. exists row, rows, page, kept.
  split; [reflexivity|]. split; [exact S|]. split; [exact L|]. split; reflexivity.
Qed.

Lemma pop_rows (words : list string) :
  (1 <= length words)%nat ->
  pop (map (fun token : string => (token, @None N)) words)
  = (Some (last words EmptyString, None),
     map (fun token : string => (token, @None N)) (removelast words)).
Proof.
  intros Hlen. destruct (pop _) as [[row|] rows] eqn:P.
  - apply pop_removelast in P as [-> Heq].
    rewrite removelast_map in *. f_equal. f_equal.
    assert (Hne : words <> []) by (destruct words; [simpl in Hlen; lia|discriminate]).
    rewrite (app_removelast_last EmptyString Hne) in Heq at 1.
    rewrite map_app in Heq. simpl in Heq. apply app_inj_tail in Heq as [_ Heq].
    now symmetry.
  - pose proof (pop_spec (map (fun token : string => (token, @None N)) words)) as S.
    rewrite P in S. destruct S as [S _].
    destruct words; [simpl in Hlen; lia|discriminate].
Qed.

End SuggestionCursor.

(** C10.  With [minSuggestionCount > 0], at least two search words and a
    suggestion facade for the searched type, [search] pops the row of the
    last word off [lastReadSearchIndexRow] before it searches the index: the
    page of the search runs on the rows of the other words, the index keys
    it gets entries for are those of the words before the last, and its
    results, filtered by the prefix check and sorted, are the results of the
    search.  The result carries the rows of the other words only, one row
    fewer than there are words; this stays so through every later
    [getMoreSearchResults] page, and the index keys any such page reads
    entries for are those of the words before the last one.  The entries of
    the last word are read all the same when the word also stands earlier
    in the query. *)
Theorem search_suggestion_drops_last_row :
  forall (C : Collaborators) (this this' : SearchFacade Id TypeRef) (q : string)
         (r : SearchRestriction Id TypeRef) (minSuggestionCount : Z) (maxResults : option Z)
         (result : SearchResult Id TypeRef),
    minSuggestionCount > 0 ->
    (2 <= length (tokenize q))%nat ->
    findSuggestionFacade this r <> None ->
    search this q r minSuggestionCount maxResults = (this', Resolved result) ->
    let words := tokenize q in
    let start :=
      set_lastReadSearchIndexRow (initialResult this q r words)
        (map (fun token => (token, None)) (removelast words)) in
    pop (lastReadSearchIndexRow (initialResult this q r words))
      = (Some (last words EmptyString, None), lastReadSearchIndexRow start)
    /\ (exists page kept,
           _searchForTokens this start [last words EmptyString] None
             = (this', (page, Resolved tt))
           /\ snd (_loadAndReduce this' r (sortBy compareTuplesNewestFirst (results page))
                     (last words EmptyString) minSuggestionCount)
              = Resolved kept
           /\ results result = sortBy compareTuplesNewestFirst kept
           /\ lastReadSearchIndexRow result = lastReadSearchIndexRow page)
    /\ (forall (facade : SearchFacade Id TypeRef) (m : option Z) ks,
           snd (_findIndexEntries facade start m) = Resolved ks ->
           map e_indexKey ks = map encryptIndexKeyBase64 (removelast words))
    /\ map fst (lastReadSearchIndexRow result) = removelast words
    /\ length (lastReadSearchIndexRow result) = (length words - 1)%nat
    /\ (forall (pages : list (SearchFacade Id TypeRef * Z)),
           map fst (lastReadSearchIndexRow (laterPages pages result)) = removelast words
           /\ forall (facade : SearchFacade Id TypeRef) (moreResultCount : Z) ks,
                snd (_findIndexEntries facade (laterPages pages result)
                       (Some moreResultCount))
                  = Resolved ks ->
                map e_indexKey ks = map encryptIndexKeyBase64 (removelast words))
    /\ (forall (pages : list (SearchFacade Id TypeRef * Z))
               (facade : SearchFacade Id TypeRef) (m : option Z) ks,
           snd (_findIndexEntries facade start m) = Resolved ks
           \/ snd (_findIndexEntries facade (laterPages pages result) m) = Resolved ks ->
           In (encryptIndexKeyBase64 (last words EmptyString)) (map e_indexKey ks) ->
           In (encryptIndexKeyBase64 (last words EmptyString))
             (map encryptIndexKeyBase64 (removelast words))).
Proof.
  intros C this this' q r msc m result Hmsc Hlen Hsf H words start.
  pose proof (search_with_suggestion_token this q r m Hmsc Hlen Hsf) as Hbranch.
  assert (Hpop : pop (lastReadSearchIndexRow (initialResult this q r words))
                 = (Some (last words EmptyString, None), lastReadSearchIndexRow start)).
  { simpl. apply pop_rows. unfold words. lia. }
  assert (Hstart : map fst (lastReadSearchIndexRow start) = removelast words).
  { simpl. rewrite map_map. simpl. apply map_id. }
  assert (Hkeys : forall (sr : SearchResult Id TypeRef) (facade : SearchFacade Id TypeRef)
                         (m0 : option Z) ks,
             map fst (lastReadSearchIndexRow sr) = removelast words ->
             snd (_findIndexEntries facade sr m0) = Resolved ks ->
             map e_indexKey ks = map encryptIndexKeyBase64 (removelast words)).
  { intros sr facade m0 ks Hrows Hks. rewrite (findIndexEntries_keys _ _ _ Hks). congruence. }
  assert (Htokens : map fst (lastReadSearchIndexRow result) = removelast words).
  { rewrite Hbranch in H. apply searchWithSuggestionToken_resolved in H as (_&_&_&_&_&Hrows).
    rewrite Hrows. simpl. rewrite removelast_map, map_map. simpl. now rewrite map_id. }
  assert (Hlater : forall pages,
             map fst (lastReadSearchIndexRow (laterPages pages result)) = removelast words).
  { intros pages. destruct (laterPages_sameRequest pages result) as (_&_&_&_&_&Hrows).
    congruence. }
  split; [exact Hpop|]. split.
  { rewrite Hbranch in H.
    apply searchWithSuggestionToken_steps in H
      as (row & rows & page & kept & Hp & Hpage & Hkept & Hres & Hrows).
    change (tokenize q) with words in Hp, Hpage. rewrite Hpop in Hp. injection Hp as <- <-.
    exists page, kept. now repeat split. }
  split; [intros facade m0 ks; now apply Hkeys|].
  split; [exact Htokens|].
  split; [rewrite <- (length_map fst), Htokens; apply length_removelast|].
  split.
  { intros pages. split; [apply Hlater|].
    intros facade moreResultCount ks. apply Hkeys, Hlater. }
  intros pages facade m0 ks [Hks|Hks] Hin.
  - now rewrite <- (Hkeys start facade m0 ks Hstart Hks).
  - now rewrite <- (Hkeys _ facade m0 ks (Hlater pages) Hks).
Qed.

(** Scenario S6: the query [alpha be] on contacts with five suggestions
    wanted. *)
Lemma search_suggestion_drops_last_row_witness :
  match search (C := Scenario.collaborators) Scenario.facade "alpha be" Scenario.contacts 5
          (Some 10) with
  | (_, Resolved result) =>
      map fst (lastReadSearchIndexRow result) = ["alpha"%string]
      /\ length (lastReadSearchIndexRow result) = 1%nat
  | (_, Rejected _) => False
  end.
Proof.
  destruct (search (C := Scenario.collaborators) Scenario.facade "alpha be" Scenario.contacts 5
              (Some 10)) as [this' [result|e]] eqn:E.
  - assert (H5 : 5 > 0) by lia.
    assert (Hlen : (2 <= length (tokenize (Collaborators := Scenario.collaborators)
                                   "alpha be"))%nat) by (vm_compute; lia).
    assert (Hsf : findSuggestionFacade (C := Scenario.collaborators) Scenario.facade
                    Scenario.contacts <> None) by (vm_compute; discriminate).
    destruct (search_suggestion_drops_last_row Scenario.collaborators Scenario.facade
                "alpha be" Scenario.contacts (Some 10) H5 Hlen Hsf E)
      as (_ & _ & _ & Hrows & Hlength & _).
    split; [exact Hrows | exact Hlength].
  - vm_compute in E. discriminate E.
Defined.

(** The query [ann ann] on contacts with five suggestions wanted: the row of
    the second [ann] is popped, and the page of the search reads the index
    entries of [ann] for the first. *)
Lemma suggestion_search_reads_repeated_word :
  5 > 0
  /\ (2 <= length (tokenize (Collaborators := Scenario.collaborators) "ann ann"))%nat
  /\ findSuggestionFacade (C := Scenario.collaborators) Scenario.facade Scenario.contacts
     <> None
  /\ option_map (@results N string)
       (Scenario.resolved
          (snd (search (C := Scenario.collaborators) Scenario.facade "ann ann"
                  Scenario.contacts 5 (Some 10))))
     = Some [Scenario.element 30]
  /\ last (tokenize (Collaborators := Scenario.collaborators) "ann ann") EmptyString
     = "ann"%string
  /\ option_map (map e_indexKey)
       (Scenario.resolved
          (snd (_findIndexEntries (C := Scenario.collaborators) Scenario.facade
                  (set_lastReadSearchIndexRow
                     (initialResult (C := Scenario.collaborators) Scenario.facade "ann ann"
                        Scenario.contacts ["ann"; "ann"]%string)
                     (snd (pop (lastReadSearchIndexRow
                                  (initialResult (C := Scenario.collaborators) Scenario.facade
                                     "ann ann" Scenario.contacts ["ann"; "ann"]%string)))))
                  None)))
     = Some [encryptIndexKeyBase64 (Collaborators := Scenario.collaborators) "ann"].
Proof.
  split; [lia|]. split; [vm_compute; lia|]. split; [vm_compute; discriminate|].
  split; [vm_compute; reflexivity|]. split; vm_compute; reflexivity.
Qed.

(** ** C4: the constraint filter *)

Section ConstraintFilter.

Context {C : Collaborators}.

Local Abbreviation Restriction := (SearchRestriction Id TypeRef).
Local Abbreviation Facade := (SearchFacade Id TypeRef).
Local Abbreviation Entry := (SearchIndexEntry Id).

Lemma contains_In (ids : list N) (a : N) : contains ids a = true <-> In a ids.
Proof.
  unfold contains. rewrite existsb_exists. split.
  - intros (x & Hx & E). apply N.eqb_eq in E. now subst.
  - intros H. exists a. split; [assumption|apply N.eqb_refl].
Qed.

Lemma not_bigger_idGe {O : IdOrder C} (a b : Id) :
  firstBiggerThanSecond b a = false <-> idGe a b.
Proof.
  unfold idGe. split.
  - intros H. destruct (fbts_total a b) as [E|[G|L]]; auto. congruence.
  - intros [E|G].
    + subst. apply fbts_irrefl.
    + destruct (firstBiggerThanSecond b a) eqn:L; [|reflexivity].
      pose proof (fbts_trans _ _ _ G L) as T. rewrite fbts_irrefl in T. discriminate.
Qed.

(** The first pass of [_filterByTypeAndAttributeAndTime] keeps exactly the
    entries [acceptsEntry] holds of; the second pass keeps a part of those. *)
Lemma filterByTypeAndAttributeAndTime_accepted (this : Facade)
  (results : list (KeyToIndexEntries Id)) (restriction : Restriction) r (e : Entry) :
  In r (_filterByTypeAndAttributeAndTime this results restriction) ->
  In e (indexEntries r) ->
  acceptsEntry this restriction e = true.
Proof.
  unfold _filterByTypeAndAttributeAndTime. intros Hr He.
  apply in_map_iff in Hr as (r1 & <- & Hr1).
  apply in_map_iff in Hr1 as (r0 & <- & Hr0). simpl in He.
  apply filter_In in He as [He _]. now apply filter_In in He as [_ He].
Qed.

End ConstraintFilter.

Lemma scenario_idOrder : IdOrder Scenario.collaborators.
Proof.
  split; simpl.
  - intros a. apply N.ltb_irrefl.
  - intros a b c. rewrite !N.ltb_lt. lia.
  - intros a b. rewrite !N.ltb_lt. lia.
Qed.

(** C4, as stated, fails: a restriction whose [start] is [0] is treated by
    the filter as one without [start].  The entry with id 100 is accepted
    although it is not older than the id of timestamp 1. *)
Lemma constraint_filter_start_zero :
  let r : SearchRestriction N string :=
    {| rtype := "Mail"%string; start := Some 0; end_ := None; attributeIds := None;
       listId := None |} in
  let e : SearchIndexEntry N :=
    {| id := 100%N; attribute := 1%N; positions := [3%N]; encId := [] |} in
  acceptsEntry (C := Scenario.collaborators) Scenario.facade r e = true
  /\ ~ claimedAccepts (C := Scenario.collaborators) Scenario.facade r e.
Proof.
  split; [reflexivity|].
  intros (_ & _ & [H|(s & [= <-] & H)]); [discriminate|].
  vm_compute in H. discriminate.
Qed.

(** C4, amended.  The filter accepts an entry exactly when its attribute is
    whitelisted (or there is no whitelist), its id is not below the id of
    the end timestamp, and its id is below the id of [start + 1] unless
    [start] is missing or [0]; the end timestamp is [restriction.end] when
    that is given and not [0], and the horizon of the type otherwise. *)
Theorem constraint_filter_accepts_iff :
  forall (C : Collaborators) (O : IdOrder C) (this : SearchFacade Id TypeRef)
         (restriction : SearchRestriction Id TypeRef) (entry : SearchIndexEntry Id),
    acceptsEntry this restriction entry = true <-> amendedAccepts this restriction entry.
Proof.
  intros C O this restriction entry.
  unfold acceptsEntry, amendedAccepts, _isValidAttributeAndTime, minIncludedIdOf,
    maxExcludedIdOf, _getSearchEndTimestamp, idLt.
  rewrite <- not_bigger_idGe.
  destruct restriction as [ty st en attrs li]; simpl.
  assert (Hend : (match en with
                  | Some e => if negb (e =? 0) then e else
                      defaultEndTimestamp this (Build_SearchRestriction ty st en attrs li)
                  | None => defaultEndTimestamp this (Build_SearchRestriction ty st en attrs li)
                  end)
                 = (match en with
                    | Some e => if e =? 0 then
                        defaultEndTimestamp this (Build_SearchRestriction ty st en attrs li)
                        else e
                    | None => defaultEndTimestamp this (Build_SearchRestriction ty st en attrs li)
                    end)).
  { destruct en as [e|]; [|reflexivity]. now destruct (e =? 0). }
  rewrite Hend. clear Hend.
  set (minId := timestampToGeneratedId _).
  destruct attrs as [ids|].
  - destruct (contains ids (attribute entry)) eqn:Hc; simpl.
    + apply contains_In in Hc.
      destruct st as [s|]; simpl.
      * destruct (s =? 0) eqn:Hs; simpl.
        -- apply Z.eqb_eq in Hs. subst s. rewrite negb_true_iff.
           split; [intros H; repeat split; eauto|tauto].
        -- destruct (firstBiggerThanSecond (timestampToGeneratedId (s + 1)) (id entry)) eqn:Hl;
             simpl.
           ++ rewrite negb_true_iff. split; [intros H; repeat split; eauto 6|tauto].
           ++ split; [discriminate|].
              intros (_ & _ & [H|[H|(s' & [= <-] & H)]]); try discriminate.
              ** inversion H. subst. discriminate.
              ** congruence.
      * rewrite negb_true_iff. split; [intros H; repeat split; eauto|tauto].
    + split; [discriminate|].
      intros ([H|(ids' & [= <-] & H)] & _); [discriminate|].
      apply contains_In in H. congruence.
  - destruct st as [s|]; simpl.
    + destruct (s =? 0) eqn:Hs; simpl.
      * apply Z.eqb_eq in Hs. subst s. rewrite negb_true_iff.
        split; [intros H; repeat split; eauto|tauto].
      * destruct (firstBiggerThanSecond (timestampToGeneratedId (s + 1)) (id entry)) eqn:Hl;
          simpl.
        -- rewrite negb_true_iff. split; [intros H; repeat split; eauto 6|tauto].
        -- split; [discriminate|].
           intros (_ & _ & [H|[H|(s' & [= <-] & H)]]); try discriminate.
           ++ inversion H. subst. discriminate.
           ++ congruence.
    + rewrite negb_true_iff. split; [intros H; repeat split; eauto|tauto].
Qed.

(** Scenario S4: mails up to timestamp 85; 90 is kept and 80 is not. *)
Lemma constraint_filter_accepts_iff_witness :
  let r : SearchRestriction N string :=
    {| rtype := "Mail"%string; start := None; end_ := Some 85; attributeIds := None;
       listId := None |} in
  (acceptsEntry (C := Scenario.collaborators) Scenario.facade r
     {| id := 90%N; attribute := 1%N; positions := [5%N]; encId := [] |} = true
   <-> amendedAccepts (C := Scenario.collaborators) Scenario.facade r
         {| id := 90%N; attribute := 1%N; positions := [5%N]; encId := [] |})
  /\ acceptsEntry (C := Scenario.collaborators) Scenario.facade r
       {| id := 80%N; attribute := 1%N; positions := [2%N]; encId := [] |} = false.
Proof.
  split; [|reflexivity].
  exact (constraint_filter_accepts_iff scenario_idOrder Scenario.facade _ _).
Defined.

(** ** C5: the phrase reducer *)

Section PhraseReducer.

Context {C : Collaborators}.

Local Abbreviation Entry := (SearchIndexEntry Id).

(** The [find] used as filter callback returns the position found, which is
    never [0] because the loop index starts at 1. *)
Lemma position_found_iff (ps : list N) (p i : N) :
  (1 <= i)%N ->
  truthyN (find (fun position => (position =? p + i)%N) ps) = true <-> In (p + i)%N ps.
Proof.
  intros Hi. split.
  - destruct (find _ ps) as [v|] eqn:F; [|discriminate].
    intros _. apply find_some in F as [Hin E]. apply N.eqb_eq in E. now subst.
  - intros Hin. destruct (find _ ps) as [v|] eqn:F.
    + apply find_some in F as [_ E]. apply N.eqb_eq in E. subst. simpl.
      apply negb_true_iff, N.eqb_neq. lia.
    + apply (find_none _ _ F) in Hin. rewrite N.eqb_refl in Hin. discriminate.
Qed.

Lemma reducePositions_In (e1 : Entry) (rest : list (KeyToIndexEntries Id)) :
  forall (i : N) (P : list N) (p : N),
    (1 <= i)%N ->
    In p (reducePositions e1 i rest P)
    <-> In p P
        /\ forall (j : nat) (r : KeyToIndexEntries Id),
             nth_error rest j = Some r ->
             exists ei,
               findSameAttribute e1 (indexEntries r) = Some ei
               /\ In (p + i + N.of_nat j)%N (positions ei).
Proof.
  induction rest as [|r rest IH]; intros i P p Hi; simpl.
  - split; [|tauto]. intros H. split; [assumption|]. now intros [|j].
  - rewrite IH by lia. clear IH. split.
    + intros [HP Hrest].
      destruct (findSameAttribute e1 (indexEntries r)) as [entry|] eqn:F; [|contradiction].
      apply filter_In in HP as [HP Hpos]. apply position_found_iff in Hpos; [|assumption].
      split; [assumption|]. intros [|j] r' Hj; simpl in Hj.
      * injection Hj as <-. exists entry. rewrite F. split; [reflexivity|].
        now replace (p + i + N.of_nat 0)%N with (p + i)%N by lia.
      * destruct (Hrest j r' Hj) as (ei & Hf & Hin). exists ei. split; [assumption|].
        now replace (p + i + N.of_nat (S j))%N with (p + (i + 1) + N.of_nat j)%N by lia.
    + intros [HP Hall]. split.
      * destruct (Hall 0%nat r eq_refl) as (ei & -> & Hin).
        apply filter_In. split; [assumption|]. apply position_found_iff; [assumption|].
        now replace (p + i)%N with (p + i + N.of_nat 0)%N by lia.
      * intros j r' Hj. destruct (Hall (S j) r' Hj) as (ei & Hf & Hin).
        exists ei. split; [assumption|].
        now replace (p + (i + 1) + N.of_nat j)%N with (p + i + N.of_nat (S j))%N by lia.
Qed.

(** [Array.prototype.find]: the first element of the array that passes the
    test. *)
Lemma find_first (A : Type) (test : A -> bool) (l : list A) (x : A) :
  find test l = Some x
  <-> exists before after,
        l = before ++ x :: after /\ test x = true
        /\ forall y, In y before -> test y = false.
Proof.
  induction l as [|a l IH]; simpl.
  - split; [discriminate|]. intros (before & after & H & _). now destruct before.
  - destruct (test a) eqn:Ta.
    + split.
      * intros [= <-]. exists [], l. split; [reflexivity|]. split; [exact Ta|intros y []].
      * intros (before & after & Heq & Tx & Hb). destruct before as [|b before].
        -- simpl in Heq. now injection Heq as ->.
        -- simpl in Heq. injection Heq as <- _. rewrite (Hb a) in Ta; [discriminate|now left].
    + rewrite IH. split.
      * intros (before & after & -> & Tx & Hb). exists (a :: before), after.
        split; [reflexivity|]. split; [exact Tx|]. intros y [<-|Hy]; [exact Ta|now apply Hb].
      * intros (before & after & Heq & Tx & Hb). destruct before as [|b before].
        -- simpl in Heq. injection Heq as -> _. congruence.
        -- simpl in Heq. injection Heq as <- ->. exists before, after.
           split; [reflexivity|]. split; [exact Tx|]. intros y Hy. apply Hb. now right.
Qed.

(** The test of the [find] over the entries of a later word. *)
Lemma sameElementAndAttribute_test (e1 e : Entry) :
  Id_eqb (id e) (id e1) && (attribute e =? attribute e1)%N = true
  <-> sameElementAndAttribute e1 e.
Proof.
  unfold sameElementAndAttribute, Id_eqb. rewrite andb_true_iff, N.eqb_eq.
  destruct (Id_eq_dec (id e) (id e1)); split; intros [H1 H2]; try split;
    congruence.
Qed.

Lemma findSameAttribute_found (e1 : Entry) (entries : list Entry) (ei : Entry) :
  findSameAttribute e1 entries = Some ei <-> foundFor e1 entries ei.
Proof.
  unfold findSameAttribute, foundFor. rewrite find_first. split.
  - intros (before & after & Heq & Ht & Hb). exists before, after.
    split; [exact Heq|]. split; [now apply sameElementAndAttribute_test|].
    intros e He Hs. apply sameElementAndAttribute_test in Hs.
    rewrite (Hb e He) in Hs. discriminate.
  - intros (before & after & Heq & Hs & Hb). exists before, after.
    split; [exact Heq|]. split; [now apply sameElementAndAttribute_test|].
    intros e He.
    destruct (Id_eqb (id e) (id e1) && (attribute e =? attribute e1)%N) eqn:T; [|reflexivity].
    apply sameElementAndAttribute_test in T. now apply Hb in T.
Qed.

Lemma foundFor_In (e1 : Entry) (entries : list Entry) (ei : Entry) :
  foundFor e1 entries ei -> In ei entries /\ sameElementAndAttribute e1 ei.
Proof.
  intros (before & after & -> & Hs & _). split; [|exact Hs].
  apply in_or_app. right. now left.
Qed.

(** Where a list holds an entry for the element and the attribute, one is
    found. *)
Lemma foundFor_exists (e1 : Entry) (entries : list Entry) (e : Entry) :
  In e entries -> sameElementAndAttribute e1 e -> exists ei, foundFor e1 entries ei.
Proof.
  intros He Hs.
  destruct (findSameAttribute e1 entries) as [ei|] eqn:F.
  - exists ei. now apply findSameAttribute_found.
  - unfold findSameAttribute in F. apply (find_none _ _ F) in He.
    apply sameElementAndAttribute_test in Hs. congruence.
Qed.

Lemma keepsFirstWordEntry_iff (rest : list (KeyToIndexEntries Id)) (e1 : Entry) :
  keepsFirstWordEntry rest e1 = true <-> phraseMatches e1 rest.
Proof.
  unfold keepsFirstWordEntry, phraseMatches. rewrite Nat.ltb_lt. split.
  - destruct (reducePositions e1 1 rest (positions e1)) as [|p l] eqn:E; cbn [length]; [lia|].
    intros _. exists p.
    assert (Hin : In p (reducePositions e1 1 rest (positions e1))) by (rewrite E; now left).
    apply reducePositions_In in Hin as [HP Hall]; [|lia].
    split; [assumption|]. intros i r Hi. destruct (Hall i r Hi) as (ei & Hf & Hp).
    exists ei. split; [now apply findSameAttribute_found|].
    now replace (p + N.of_nat (S i))%N with (p + 1 + N.of_nat i)%N by lia.
  - intros (p & HP & Hall).
    assert (Hin : In p (reducePositions e1 1 rest (positions e1))).
    { apply reducePositions_In; [lia|]. split; [assumption|].
      intros j r Hj. destruct (Hall j r Hj) as (ei & Hf & Hp).
      exists ei. split; [now apply findSameAttribute_found|].
      now replace (p + 1 + N.of_nat j)%N with (p + N.of_nat (S j))%N by lia. }
    destruct (reducePositions e1 1 rest (positions e1)); [contradiction|cbn [length]; lia].
Qed.

Lemma phraseMatches_someEntry (rest : list (KeyToIndexEntries Id)) (e1 : Entry) :
  phraseMatches e1 rest -> phraseMatchesSomeEntry e1 rest.
Proof.
  intros (p & HP & Hall). exists p. split; [exact HP|]. intros i r Hi.
  destruct (Hall i r Hi) as (ei & Hf & Hp). apply foundFor_In in Hf as [Hin Hs].
  exists ei. split; [exact Hin|]. split; [exact Hs|exact Hp].
Qed.

Lemma phraseMatchesSomeEntry_one (rest : list (KeyToIndexEntries Id)) (e1 : Entry) :
  oneEntryPerAttribute e1 rest -> phraseMatchesSomeEntry e1 rest -> phraseMatches e1 rest.
Proof.
  intros Hone (p & HP & Hall). exists p. split; [exact HP|]. intros i r Hi.
  destruct (Hall i r Hi) as (ei & Hin & Hs & Hp).
  destruct (@foundFor_exists e1 (indexEntries r) ei Hin Hs) as (found & Hf).
  exists found. split; [exact Hf|].
  destruct (foundFor_In Hf) as [Hin' Hs'].
  now rewrite (Hone r found ei (nth_error_In _ _ Hi) Hin' Hin Hs' Hs).
Qed.

End PhraseReducer.

(** C5.  With [matchWordOrder] set, [_reduceWords] filters the entries of
    the first word, and keeps an entry [e1] exactly when the pass over the
    later words [i = 1 .. n-1] succeeds: each later word has an entry for
    the id and the attribute of [e1], and some position [p] of [e1]
    survives every step, that is [p + i] is a position of the entry found
    for word [i].  The entry found is the first one of the list for that id
    and attribute; where the list of no later word holds two of them, it is
    the only one.  Without [matchWordOrder] the output is the entry list of
    the first word. *)
Theorem reduceWords_phrase :
  forall (C : Collaborators) (first : KeyToIndexEntries Id) (rest : list (KeyToIndexEntries Id)),
    _reduceWords (first :: rest) false = Resolved (indexEntries first)
    /\ _reduceWords (first :: rest) true
       = Resolved (filter (keepsFirstWordEntry rest) (indexEntries first))
    /\ (forall e1 : SearchIndexEntry Id,
          keepsFirstWordEntry rest e1 = true <-> phraseMatches e1 rest)
    /\ (forall (e1 : SearchIndexEntry Id) kept,
          _reduceWords (first :: rest) true = Resolved kept ->
          (In e1 kept <-> In e1 (indexEntries first) /\ phraseMatches e1 rest))
    /\ (forall e1 : SearchIndexEntry Id,
          keepsFirstWordEntry rest e1 = true -> phraseMatchesSomeEntry e1 rest)
    /\ (forall e1 : SearchIndexEntry Id,
          oneEntryPerAttribute e1 rest ->
          (keepsFirstWordEntry rest e1 = true <-> phraseMatchesSomeEntry e1 rest)).
Proof.
  intros C first rest.
  split; [reflexivity|]. split; [reflexivity|].
  split; [intros e1; apply keepsFirstWordEntry_iff|].
  split.
  - intros e1 kept H.
    change (Resolved (filter (keepsFirstWordEntry rest) (indexEntries first)) = Resolved kept)
      in H.
    injection H as <-.
    rewrite filter_In, keepsFirstWordEntry_iff. reflexivity.
  - split.
    + intros e1 H. now apply phraseMatches_someEntry, keepsFirstWordEntry_iff.
    + intros e1 Hone. rewrite keepsFirstWordEntry_iff. split.
      * apply phraseMatches_someEntry.
      * now apply phraseMatchesSomeEntry_one.
Qed.

(** Scenario S2: [alpha] at position 3 and [beta] at position 4 of id 100,
    but at positions 2 and 7 of id 80; only 100 carries the phrase. *)
Example reduceWords_scenario_S2 :
  let alpha := {| indexKey := "alpha"%string;
                  indexEntries := [Scenario.decodeEntry (Scenario.block 100 1 [3%N]);
                                   Scenario.decodeEntry (Scenario.block 80 1 [2%N])] |} in
  let beta := {| indexKey := "beta"%string;
                 indexEntries := [Scenario.decodeEntry (Scenario.block 100 1 [4%N]);
                                  Scenario.decodeEntry (Scenario.block 80 1 [7%N])] |} in
  _reduceWords (C := Scenario.collaborators) [alpha; beta] true
  = Resolved [Scenario.decodeEntry (Scenario.block 100 1 [3%N])].
Proof. reflexivity. Qed.

(** A phrase across two attributes is no phrase: [alpha] at position 3 of
    attribute 1 and [beta] at position 4 of attribute 2 of the same
    element. *)
Example reduceWords_attribute_isolation :
  let alpha := {| indexKey := "alpha"%string;
                  indexEntries := [Scenario.decodeEntry (Scenario.block 100 1 [3%N])] |} in
  let beta := {| indexKey := "beta"%string;
                 indexEntries := [Scenario.decodeEntry (Scenario.block 100 2 [4%N])] |} in
  _reduceWords (C := Scenario.collaborators) [alpha; beta] true = Resolved [].
Proof. reflexivity. Qed.

(** Two entries of [beta] for the same element and attribute: the first one
    is the one found, and its positions decide. *)
Example reduceWords_first_entry_found :
  let alpha := {| indexKey := "alpha"%string;
                  indexEntries := [Scenario.decodeEntry (Scenario.block 100 1 [3%N])] |} in
  let beta := {| indexKey := "beta"%string;
                 indexEntries := [Scenario.decodeEntry (Scenario.block 100 1 [9%N]);
                                  Scenario.decodeEntry (Scenario.block 100 1 [4%N])] |} in
  _reduceWords (C := Scenario.collaborators) [alpha; beta] true = Resolved [].
Proof. reflexivity. Qed.

(** ** C7: loading the candidates of a suggestion search *)

Section LoadAndReduce.

Context {C : Collaborators}.

Local Abbreviation Restriction := (SearchRestriction Id TypeRef).
Local Abbreviation Facade := (SearchFacade Id TypeRef).

Variable this : Facade.
Variable restriction : Restriction.
Variable model : TypeModel.
Variable suggestionToken : string.
Variable minSuggestionCount : Z.

Local Abbreviation reduceFrom :=
  (loadAndReduceFrom this restriction model suggestionToken minSuggestionCount).

Lemma loadAndReduceFrom_enough candidates finalResults :
  minSuggestionCount <= Z.of_nat (length finalResults) ->
  reduceFrom candidates finalResults = ([], Resolved finalResults).
Proof.
  intros H. induction candidates as [|c rest IH]; [reflexivity|].
  simpl. replace (Z.of_nat (length finalResults) >=? minSuggestionCount) with true
    by (symmetry; apply Z.geb_le; lia).
  exact IH.
Qed.

Lemma loadAndReduceFrom_step c rest finalResults :
  Z.of_nat (length finalResults) < minSuggestionCount ->
  reduceFrom (c :: rest) finalResults
  = match (await entity <- load this (rtype restriction) c;
           await found <-
             containsSuggestionToken entity model (attributeIds restriction) suggestionToken;
           Resolved (if found : bool then finalResults ++ [c] else finalResults)) with
    | Resolved finalResults' => afterLoading c (reduceFrom rest finalResults')
    | Rejected NotFoundError => afterLoading c (reduceFrom rest finalResults)
    | Rejected NotAuthorizedError => afterLoading c (reduceFrom rest finalResults)
    | Rejected e => ([c], Rejected e)
    end.
Proof.
  intros H. simpl.
  replace (Z.of_nat (length finalResults) >=? minSuggestionCount) with false
    by (symmetry; rewrite Z.geb_leb; apply Z.leb_gt; lia).
  unfold afterLoading.
  destruct (bindP _ _) as [fr|[]];
    try reflexivity; now destruct (loadAndReduceFrom _ _ _ _ _ _ _).
Qed.

Lemma loadAndReduceFrom_loaded_prefix candidates :
  forall finalResults,
    exists k, fst (reduceFrom candidates finalResults) = firstn k candidates.
Proof.
  induction candidates as [|c rest IH]; intros finalResults.
  - now exists 0%nat.
  - destruct (Z_lt_le_dec (Z.of_nat (length finalResults)) minSuggestionCount) as [Hlt|Hge].
    + rewrite (@loadAndReduceFrom_step c rest finalResults Hlt).
      destruct (bindP _ _) as [fr|e].
      * destruct (IH fr) as [k Hk]. exists (S k). simpl. now rewrite Hk.
      * destruct e; try (now exists 1%nat);
          destruct (IH finalResults) as [k Hk]; exists (S k); simpl; now rewrite Hk.
    + rewrite (@loadAndReduceFrom_enough _ finalResults Hge). now exists 0%nat.
Qed.

Lemma loadAndReduceFrom_resolved candidates :
  forall finalResults final,
    (length finalResults <= Z.to_nat minSuggestionCount)%nat ->
    snd (reduceFrom candidates finalResults) = Resolved final ->
    final = firstn (Z.to_nat minSuggestionCount)
              (finalResults
               ++ filter (passesPrefixCheck this restriction model suggestionToken) candidates).
Proof.
  induction candidates as [|c rest IH]; intros finalResults final Hlen.
  - simpl. intros [= <-]. rewrite app_nil_r. symmetry. now apply firstn_all2.
  - destruct (Z_lt_le_dec (Z.of_nat (length finalResults)) minSuggestionCount) as [Hlt|Hge].
    + rewrite (@loadAndReduceFrom_step c rest finalResults Hlt). cbn [filter]. unfold passesPrefixCheck at 1.
      destruct (load this (rtype restriction) c) as [entity|e]; simpl.
      * destruct (containsSuggestionToken _ _ _ _) as [[|]|e]; simpl.
        -- intros H. apply IH in H; [|rewrite length_app; simpl; lia].
           now rewrite <- app_assoc in H.
        -- now apply IH.
        -- destruct e; simpl; try discriminate; now apply IH.
      * destruct e; simpl; try discriminate; now apply IH.
    + rewrite (@loadAndReduceFrom_enough _ finalResults Hge). simpl. intros [= <-].
      replace (Z.to_nat minSuggestionCount) with (length finalResults) by lia.
      rewrite firstn_app, Nat.sub_diag, firstn_all. simpl. now rewrite app_nil_r.
Qed.

End LoadAndReduce.

(** C7.  [_loadAndReduce] loads the candidates one by one in the order of the
    results: the candidates it called [load] for are an initial segment of
    them.  Once [minSuggestionCount] candidates have been collected no
    further candidate is loaded or added.  Below that count, a candidate
    whose load fails with [NotFoundError] or [NotAuthorizedError] is skipped
    and the reduction goes on with the next one, while any other load error
    rejects the whole call with that error.  A call that resolves yields the
    first [minSuggestionCount] candidates that pass the prefix check. *)
Theorem loadAndReduce_policy :
  forall (C : Collaborators) (this : SearchFacade Id TypeRef)
         (restriction : SearchRestriction Id TypeRef) (model : TypeModel)
         (suggestionToken : string) (minSuggestionCount : Z),
    let reduceFrom :=
      loadAndReduceFrom this restriction model suggestionToken minSuggestionCount in
    (forall candidates,
        resolveTypeReference (rtype restriction) = Resolved model ->
        _loadAndReduce this restriction candidates suggestionToken minSuggestionCount
        = reduceFrom candidates [])
    /\ (forall candidates finalResults,
           exists k, fst (reduceFrom candidates finalResults) = firstn k candidates)
    /\ (forall candidates finalResults,
           minSuggestionCount <= Z.of_nat (length finalResults) ->
           reduceFrom candidates finalResults = ([], Resolved finalResults))
    /\ (forall c rest finalResults e,
           Z.of_nat (length finalResults) < minSuggestionCount ->
           load this (rtype restriction) c = Rejected e ->
           e = NotFoundError \/ e = NotAuthorizedError ->
           reduceFrom (c :: rest) finalResults = afterLoading c (reduceFrom rest finalResults))
    /\ (forall c rest finalResults e,
           Z.of_nat (length finalResults) < minSuggestionCount ->
           load this (rtype restriction) c = Rejected e ->
           e <> NotFoundError -> e <> NotAuthorizedError ->
           reduceFrom (c :: rest) finalResults = ([c], Rejected e))
    /\ (forall candidates final,
           resolveTypeReference (rtype restriction) = Resolved model ->
           snd (_loadAndReduce this restriction candidates suggestionToken minSuggestionCount)
             = Resolved final ->
           final = firstn (Z.to_nat minSuggestionCount)
                     (filter (passesPrefixCheck this restriction model suggestionToken)
                        candidates)).
Proof.
  intros C this restriction model token msc reduceFrom. subst reduceFrom.
  assert (Hcall : forall candidates,
             resolveTypeReference (rtype restriction) = Resolved model ->
             _loadAndReduce this restriction candidates token msc
             = loadAndReduceFrom this restriction model token msc candidates []).
  { intros candidates Hm. unfold _loadAndReduce. rewrite Hm.
    now destruct candidates. }
  split; [exact Hcall|].
  split; [intros; apply loadAndReduceFrom_loaded_prefix|].
  split; [intros candidates fr Hge; exact (@loadAndReduceFrom_enough C this restriction model token msc candidates fr Hge)|].
  split; [|split].
  - intros c rest fr e Hlt Hload He.
    rewrite (@loadAndReduceFrom_step C this restriction model token msc c rest fr Hlt), Hload. simpl.
    now destruct He; subst e.
  - intros c rest fr e Hlt Hload Hnf Hna.
    rewrite (@loadAndReduceFrom_step C this restriction model token msc c rest fr Hlt), Hload. simpl.
    now destruct e.
  - intros candidates final Hm H. rewrite (Hcall candidates Hm) in H.
    apply loadAndReduceFrom_resolved in H; [assumption|simpl; lia].
Qed.

(** Scenario S6 on the candidates 100, 90, 80: the entity of 90 is not found
    and is skipped, 100 carries a word starting with [be] and 80 does not. *)
Lemma loadAndReduce_policy_witness :
  _loadAndReduce (C := Scenario.collaborators) Scenario.facade Scenario.mails
    [(Scenario.element 100); (Scenario.element 90); (Scenario.element 80)] "be" 5
  = ([(Scenario.element 100); (Scenario.element 90); (Scenario.element 80)],
     Resolved [(Scenario.element 100)])
  /\ loadAndReduceFrom (C := Scenario.collaborators) Scenario.facade Scenario.mails tt "be" 5
       [(Scenario.element 90); (Scenario.element 80)] [(Scenario.element 100)]
     = afterLoading (Scenario.element 90)
         (loadAndReduceFrom (C := Scenario.collaborators) Scenario.facade Scenario.mails tt
            "be" 5 [(Scenario.element 80)] [(Scenario.element 100)])
  /\ loadAndReduceFrom (C := Scenario.collaborators) Scenario.facade Scenario.mails tt "be" 5
       [(Scenario.element 70); (Scenario.element 80)] [(Scenario.element 100)]
     = ([(Scenario.element 70)], Rejected (OtherError "connection lost")).
Proof.
  destruct (loadAndReduce_policy Scenario.collaborators Scenario.facade Scenario.mails tt
              "be" 5) as (_ & _ & _ & Hskip & Hfail & _).
  split; [reflexivity|]. split.
  - apply (Hskip (Scenario.element 90) [(Scenario.element 80)] [(Scenario.element 100)] NotFoundError).
    + simpl. lia.
    + reflexivity.
    + now left.
  - apply (Hfail (Scenario.element 70) [(Scenario.element 80)] [(Scenario.element 100)]
             (OtherError "connection lost")).
    + simpl. lia.
    + reflexivity.
    + discriminate.
    + discriminate.
Defined.

(** ** C1, C2, C6: pages after the first *)

(** No page writes [moreResultsEntries]: it is empty in the result of
    [search] and stays empty through every later page. *)
Lemma moreResultsEntries_stays_empty :
  forall (C : Collaborators) (this this' : SearchFacade Id TypeRef) (q : string)
         (r : SearchRestriction Id TypeRef) (minSuggestionCount : Z) (maxResults : option Z)
         (result : SearchResult Id TypeRef) (pages : list (SearchFacade Id TypeRef * Z)),
    search this q r minSuggestionCount maxResults = (this', Resolved result) ->
    moreResultsEntries (laterPages pages result) = [].
Proof.
  intros C this this' q r msc m result pages H.
  destruct (laterPages_sameRequest pages result) as (_&_&_&->&_).
  revert H. unfold search.
  destruct (0 <? length (tokenize q))%nat; [|now intros [= _ <-]].
  destruct (findSuggestionFacade this r) as [sf|].
  - destruct ((msc >? 0) && (length (tokenize q) =? 1)%nat).
    + intros H. now apply searchFirstWord_resolved in H as (_&_&_&->&_).
    + destruct ((msc >? 0) && negb (length (tokenize q) =? 1)%nat).
      * intros H. now apply searchWithSuggestionToken_resolved in H as (_&_&_&->&_).
      * intros H. now apply searchAllTokens_resolved in H as (_&_&_&->&_).
  - intros H. now apply searchAllTokens_resolved in H as (_&_&_&->&_).
Qed.

Lemma scenario_first_page :
  snd (search (C := Scenario.collaborators) Scenario.facade "alpha" Scenario.mails 0 (Some 2))
  = Resolved Scenario.firstPage.
Proof. vm_compute. reflexivity. Qed.

Lemma scenario_page_after_first :
  getMoreSearchResults (C := Scenario.collaborators) Scenario.facade Scenario.firstPage 2
  = (Scenario.rewoundPage, Resolved tt).
Proof. vm_compute. reflexivity. Qed.

Lemma scenario_page_after_rewound :
  getMoreSearchResults (C := Scenario.collaborators) Scenario.facade Scenario.rewoundPage 2
  = (Scenario.firstPage, Resolved tt).
Proof. vm_compute. reflexivity. Qed.

Lemma scenario_pages_cycle (n : nat) :
  Scenario.morePages n 2 Scenario.firstPage = Scenario.firstPage
  \/ Scenario.morePages n 2 Scenario.firstPage = Scenario.rewoundPage.
Proof.
  assert (H : forall sr, sr = Scenario.firstPage \/ sr = Scenario.rewoundPage ->
                         Scenario.morePages n 2 sr = Scenario.firstPage
                         \/ Scenario.morePages n 2 sr = Scenario.rewoundPage).
  { induction n as [|n IH]; intros sr Hsr; [exact Hsr|].
    simpl. apply IH. destruct Hsr as [-> | ->].
    - right. now rewrite scenario_page_after_first.
    - left. now rewrite scenario_page_after_rewound. }
  apply H. now left.
Qed.

(** C1 at scenario S3.  The search for [alpha] with two results per page
    resolves with [(L,100), (L,90)].  One more page of two leaves the results
    as they are, and so does any number of further pages of two, while the
    search without a bound returns [(L,100), (L,90), (L,80)]: the pages never
    deliver (L,80). *)
Theorem pagination_scenario_S3_loses_result :
  snd (search (C := Scenario.collaborators) Scenario.facade "alpha" Scenario.mails 0 (Some 2))
    = Resolved Scenario.firstPage
  /\ results Scenario.firstPage = [(Scenario.L, 100%N); (Scenario.L, 90%N)]
  /\ results (fst (getMoreSearchResults (C := Scenario.collaborators) Scenario.facade
                     Scenario.firstPage 2))
     = [(Scenario.L, 100%N); (Scenario.L, 90%N)]
  /\ (forall n : nat,
        results (Scenario.morePages n 2 Scenario.firstPage)
        = [(Scenario.L, 100%N); (Scenario.L, 90%N)])
  /\ option_map (@results N string)
       (Scenario.resolved
          (snd (search (C := Scenario.collaborators) Scenario.facade "alpha" Scenario.mails 0
                  None)))
     = Some [(Scenario.L, 100%N); (Scenario.L, 90%N); (Scenario.L, 80%N)].
Proof.
  split; [exact scenario_first_page|].
  split; [reflexivity|].
  split; [now rewrite scenario_page_after_first|].
  split; [|vm_compute; reflexivity].
  intros n. now destruct (scenario_pages_cycle n) as [-> | ->].
Qed.

(** C2 at scenario S3.  The cursor of [alpha] is 1 after the first page, 0
    after the second and 1 again after the third; the third page reads the
    descriptor with key 1 although the cursor left by the second page is 0. *)
Theorem cursor_scenario_S3_restarts :
  lastReadSearchIndexRow Scenario.firstPage = [("alpha"%string, Some 1%N)]
  /\ lastReadSearchIndexRow (Scenario.morePages 1 2 Scenario.firstPage)
     = [("alpha"%string, Some 0%N)]
  /\ lastReadSearchIndexRow (Scenario.morePages 2 2 Scenario.firstPage)
     = [("alpha"%string, Some 1%N)]
  /\ rowsToRead (C := Scenario.collaborators) Scenario.facade Scenario.mails (Some 2)
       ("alpha"%string, Some 1%N) = []
  /\ map key (rowsToRead (C := Scenario.collaborators) Scenario.facade Scenario.mails (Some 2)
                ("alpha"%string, Some 0%N)) = [1%N].
Proof. repeat split; vm_compute; reflexivity. Qed.

(** C6 at scenario S3.  The entry of id 80 matches the search and is not
    among the two results of the first page, yet [moreResultsEntries] is
    empty after that page, and the next page neither finds the entry there
    nor adds it to the results. *)
Theorem assembler_scenario_S3_drops_entry :
  snd (search (C := Scenario.collaborators) Scenario.facade "alpha" Scenario.mails 0 (Some 2))
    = Resolved Scenario.firstPage
  /\ moreResultsEntries Scenario.firstPage = []
  /\ ~ In (Scenario.L, 80%N) (results Scenario.firstPage)
  /\ (exists unbounded,
        snd (search (C := Scenario.collaborators) Scenario.facade "alpha" Scenario.mails 0 None)
          = Resolved unbounded
        /\ In (Scenario.L, 80%N) (results unbounded))
  /\ moreResultsEntries
       (fst (getMoreSearchResults (C := Scenario.collaborators) Scenario.facade
               Scenario.firstPage 2)) = []
  /\ ~ In (Scenario.L, 80%N)
         (results (fst (getMoreSearchResults (C := Scenario.collaborators) Scenario.facade
                          Scenario.firstPage 2))).
Proof.
  split; [exact scenario_first_page|].
  split; [reflexivity|].
  split; [simpl; intros [H|[H|[]]]; discriminate|].
  split.
  - eexists. split; [vm_compute; reflexivity|]. simpl. tauto.
  - rewrite scenario_page_after_first. split; [reflexivity|].
    simpl. intros [H|[H|[]]]; discriminate.
Qed.

(** ** C3: one search word with suggestions *)

(** C3 at scenario S5.  [_searchForTokens] does not look at the suggestions
    it is given.  The search for [foo] with the completions [food], [fool]
    and [foot] therefore returns the postings of [foo] itself, none, although
    each completion has a posting. *)
Theorem suggestions_scenario_S5_ignored :
  (forall (C : Collaborators) (this : SearchFacade Id TypeRef) (sr : SearchResult Id TypeRef)
          (suggestions suggestions' : list string) (maxResults : option Z),
      _searchForTokens this sr suggestions maxResults
      = _searchForTokens this sr suggestions' maxResults)
  /\ option_map (fun f => getSuggestions f "foo"%string)
       (findSuggestionFacade (C := Scenario.collaborators) Scenario.facade Scenario.contacts)
     = Some ["food"; "fool"; "foot"]%string
  /\ option_map (@results N string)
       (Scenario.resolved
          (snd (search (C := Scenario.collaborators) Scenario.facade "foo" Scenario.contacts 5
                  (Some 10))))
     = Some []
  /\ map (fun word =>
            option_map (@results N string)
              (Scenario.resolved
                 (snd (search (C := Scenario.collaborators) Scenario.facade word
                         Scenario.contacts 0 (Some 10)))))
       ["food"; "fool"; "foot"]%string
     = [Some [(Scenario.L, 60%N)]; Some [(Scenario.L, 50%N)]; Some [(Scenario.L, 40%N)]].
Proof.
  split; [reflexivity|].
  repeat split; vm_compute; reflexivity.
Qed.

(** ** Sorting newest first *)

Section SortNewestFirst.

Context {C : Collaborators} {O : IdOrder C}.

Lemma Id_eqb_eq (a b : Id) : Id_eqb a b = true <-> a = b.
Proof. unfold Id_eqb. destruct (Id_eq_dec a b); split; congruence. Qed.

Lemma Id_eqb_refl (a : Id) : Id_eqb a a = true.
Proof. now apply Id_eqb_eq. Qed.

Lemma compareNewestFirst_le (a b : Id) :
  (compareNewestFirst a b <=? 0) = true <-> newerEq a b.
Proof.
  unfold compareNewestFirst, newerEq. destruct (Id_eqb a b) eqn:E.
  - apply Id_eqb_eq in E. split; auto.
  - destruct (firstBiggerThanSecond a b); simpl; split; auto.
    intros [H|H]; [|discriminate]. apply Id_eqb_eq in H. congruence.
Qed.

Lemma compareNewestFirst_gt (a b : Id) :
  (compareNewestFirst a b <=? 0) = false -> newer b a.
Proof.
  intros H. unfold newer. destruct (fbts_total a b) as [E|[G|L]]; [| |assumption].
  - subst. assert (T : (compareNewestFirst b b <=? 0) = true)
      by (apply compareNewestFirst_le; now left). congruence.
  - assert (T : (compareNewestFirst a b <=? 0) = true)
      by (apply compareNewestFirst_le; now right). congruence.
Qed.

Lemma newerEq_trans (a b c : Id) : newerEq a b -> newerEq b c -> newerEq a c.
Proof.
  unfold newerEq. intros [->|H1] [->|H2]; auto. right. eapply fbts_trans; eassumption.
Qed.

Lemma sortInsert_perm (A : Type) (cmp : A -> A -> Z) (x : A) (l : list A) :
  Permutation (x :: l) (sortInsert cmp x l).
Proof.
  induction l as [|y l IH]; simpl; [reflexivity|].
  destruct (cmp x y <=? 0); [reflexivity|].
  etransitivity; [apply perm_swap|]. now apply perm_skip.
Qed.

Lemma sortBy_perm (A : Type) (cmp : A -> A -> Z) (l : list A) :
  Permutation l (sortBy cmp l).
Proof.
  induction l as [|x l IH]; simpl; [reflexivity|].
  etransitivity; [apply perm_skip, IH|]. apply sortInsert_perm.
Qed.

Lemma sortInsert_map (A B : Type) (f : A -> B) (cmp : B -> B -> Z) (x : A) (l : list A) :
  map f (sortInsert (fun a b => cmp (f a) (f b)) x l) = sortInsert cmp (f x) (map f l).
Proof.
  induction l as [|y l IH]; simpl; [reflexivity|].
  destruct (cmp (f x) (f y) <=? 0); simpl; [reflexivity|]. now rewrite IH.
Qed.

Lemma sortBy_map (A B : Type) (f : A -> B) (cmp : B -> B -> Z) (l : list A) :
  map f (sortBy (fun a b => cmp (f a) (f b)) l) = sortBy cmp (map f l).
Proof.
  induction l as [|x l IH]; simpl; [reflexivity|].
  unfold sortBy in *. now rewrite sortInsert_map, IH.
Qed.

Lemma sortInsert_sorted (x : Id) (l : list Id) :
  Sorted newerEq l -> Sorted newerEq (sortInsert compareNewestFirst x l).
Proof.
  induction l as [|y l IH]; intros Hs; simpl.
  - repeat constructor.
  - destruct (compareNewestFirst x y <=? 0) eqn:E.
    + constructor; [assumption|]. constructor. now apply compareNewestFirst_le.
    + apply compareNewestFirst_gt in E.
      inversion Hs as [|? ? Hl Hhd]; subst. constructor; [now apply IH|].
      destruct l as [|z l]; simpl.
      * constructor. now right.
      * destruct (compareNewestFirst x z <=? 0); constructor.
        -- now right.
        -- now inversion Hhd.
Qed.

Lemma sortBy_sorted (l : list Id) : Sorted newerEq (sortBy compareNewestFirst l).
Proof.
  induction l as [|x l IH]; simpl; [constructor|]. now apply sortInsert_sorted.
Qed.

Lemma sorted_strict (l : list Id) :
  StronglySorted newerEq l -> NoDup l -> StronglySorted newer l.
Proof.
  induction 1 as [|x l Hs IH Hall]; intros Hnd; [constructor|].
  inversion Hnd as [|? ? Hx Hl]; subst. constructor; [now apply IH|].
  rewrite Forall_forall in *. intros y Hy.
  destruct (Hall y Hy) as [->|H]; [contradiction|exact H].
Qed.

Lemma strict_sorted_unique (l1 l2 : list Id) :
  StronglySorted newer l1 -> StronglySorted newer l2 ->
  (forall x, In x l1 <-> In x l2) -> l1 = l2.
Proof.
  intros H1. revert l2. induction H1 as [|a1 t1 Hs1 IH Hall1]; intros l2 H2 Heq.
  - destruct l2 as [|a2 t2]; [reflexivity|]. exfalso. apply (proj2 (Heq a2)). now left.
  - destruct H2 as [|a2 t2 Hs2 Hall2].
    + exfalso. apply (proj1 (Heq a1)). now left.
    + rewrite Forall_forall in Hall1, Hall2.
      assert (Ha : a1 = a2).
      { destruct (proj1 (Heq a1) (or_introl eq_refl)) as [E|Hin2]; [now symmetry|].
        destruct (proj2 (Heq a2) (or_introl eq_refl)) as [E|Hin1]; [assumption|].
        pose proof (fbts_trans _ _ _ (Hall1 _ Hin1) (Hall2 _ Hin2)) as T.
        rewrite fbts_irrefl in T. discriminate. }
      subst a2. f_equal. apply IH; [assumption|].
      intros x. split; intros Hx.
      * destruct (proj1 (Heq x) (or_intror Hx)) as [E|Hin]; [|assumption].
        subst x. pose proof (Hall1 _ Hx) as T. unfold newer in T.
        rewrite fbts_irrefl in T. discriminate.
      * destruct (proj2 (Heq x) (or_intror Hx)) as [E|Hin]; [|assumption].
        subst x. pose proof (Hall2 _ Hx) as T. unfold newer in T.
        rewrite fbts_irrefl in T. discriminate.
Qed.

(** Sorting two duplicate-free id lists with the same members gives the same
    list. *)
Lemma sortBy_unique (l1 l2 : list Id) :
  NoDup l1 -> NoDup l2 -> (forall x, In x l1 <-> In x l2) ->
  sortBy compareNewestFirst l1 = sortBy compareNewestFirst l2.
Proof.
  intros N1 N2 Heq.
  assert (S : forall l, NoDup l -> StronglySorted newer (sortBy compareNewestFirst l)).
  { intros l Hn. apply sorted_strict.
    - apply Sorted_StronglySorted; [|apply sortBy_sorted].
      intros a b c. apply newerEq_trans.
    - eapply Permutation_NoDup; [apply sortBy_perm|assumption]. }
  apply strict_sorted_unique; [now apply S|now apply S|].
  intros x. split; intros Hx.
  - eapply Permutation_in; [apply sortBy_perm|]. apply Heq.
    eapply Permutation_in; [symmetry; apply sortBy_perm|exact Hx].
  - eapply Permutation_in; [apply sortBy_perm|]. apply Heq.
    eapply Permutation_in; [symmetry; apply sortBy_perm|exact Hx].
Qed.

End SortNewestFirst.

(** ** Intersecting the entries of all search words *)

Section Intersection.

Variables (R E K : Type).
Variable eqb : K -> K -> bool.
Variable key : E -> K.
Variable entriesOf : R -> list E.
Hypothesis eqb_eq : forall a b, eqb a b = true <-> a = b.

Lemma hasKey_Some (s : list K) (x : K) : hasKey eqb (Some s) x = true <-> In x s.
Proof.
  simpl. rewrite existsb_exists. split.
  - intros (y & Hy & E'). apply eqb_eq in E'. now subst.
  - intros H. exists x. split; [assumption|now apply eqb_eq].
Qed.

Lemma hasKey_fold (rs : list R) :
  forall (s : list K) (x : K),
    hasKey eqb
      (fold_left
         (fun (matching : option (list K)) r =>
            match matching with
            | None => Some (map key (entriesOf r))
            | Some _ =>
                Some (map key (filter (fun e => hasKey eqb matching (key e)) (entriesOf r)))
            end)
         rs (Some s)) x = true
    <-> In x s /\ forall r, In r rs -> In x (map key (entriesOf r)).
Proof.
  induction rs as [|r rs IH]; intros s x.
  - cbn [fold_left]. rewrite hasKey_Some. simpl. tauto.
  - cbn [fold_left]. rewrite IH. clear IH. rewrite in_map_iff. split.
    + intros [(e & <- & He) Hall]. apply filter_In in He as [He Hs].
      apply hasKey_Some in Hs. split; [assumption|].
      intros r' [<-|Hr']; [now apply in_map|now apply Hall].
    + intros [Hs Hall]. split; [|intros r' Hr'; apply Hall; now right].
      pose proof (Hall r (or_introl eq_refl)) as Hx. apply in_map_iff in Hx as (e & <- & He).
      exists e. split; [reflexivity|]. apply filter_In. split; [assumption|].
      now apply hasKey_Some.
Qed.

(** A key is matching exactly when every search word has an entry with it. *)
Lemma hasKey_matchingKeysOf (rs : list R) (x : K) :
  hasKey eqb (matchingKeysOf eqb key entriesOf rs) x = true
  <-> rs <> [] /\ forall r, In r rs -> In x (map key (entriesOf r)).
Proof.
  unfold matchingKeysOf. destruct rs as [|r rs].
  - simpl. split; [discriminate|]. now intros [H _].
  - cbn [fold_left]. rewrite hasKey_fold. split.
    + intros [Hx Hall]. split; [discriminate|]. intros r' [<-|Hr']; auto.
    + intros [_ Hall]. split; [apply Hall; now left|]. intros r' Hr'. apply Hall. now right.
Qed.

Lemma hasKey_matchingKeysOf_perm (rs1 rs2 : list R) (x : K) :
  Permutation rs1 rs2 ->
  hasKey eqb (matchingKeysOf eqb key entriesOf rs1) x
  = hasKey eqb (matchingKeysOf eqb key entriesOf rs2) x.
Proof.
  intros P. apply eq_true_iff_eq. rewrite !hasKey_matchingKeysOf. split.
  - intros [Hne Hall]. split.
    + intros ->. apply Permutation_sym, Permutation_nil in P. contradiction.
    + intros r Hr. apply Hall. eapply Permutation_in; [symmetry; exact P|exact Hr].
  - intros [Hne Hall]. split.
    + intros ->. apply Permutation_nil in P. contradiction.
    + intros r Hr. apply Hall. eapply Permutation_in; [exact P|exact Hr].
Qed.

End Intersection.

Section IntersectionStages.

Context {C : Collaborators}.

Local Abbreviation Restriction := (SearchRestriction Id TypeRef).
Local Abbreviation Facade := (SearchFacade Id TypeRef).
Local Abbreviation Entry := (SearchIndexEntry Id).

Lemma filterByEncryptedId_perm (ks1 ks2 : list KeyToEncryptedIndexEntries) :
  Permutation ks1 ks2 ->
  Permutation (_filterByEncryptedId ks1) (_filterByEncryptedId ks2).
Proof.
  intros P. unfold _filterByEncryptedId.
  rewrite (map_ext
             (fun r => {| e_indexKey := e_indexKey r;
                          e_indexEntries :=
                            filter (fun entry => hasZ (matchingEncIdsOf ks1) (idHash entry))
                              (e_indexEntries r) |})
             (fun r => {| e_indexKey := e_indexKey r;
                          e_indexEntries :=
                            filter (fun entry => hasZ (matchingEncIdsOf ks2) (idHash entry))
                              (e_indexEntries r) |})).
  - now apply Permutation_map.
  - intros r. f_equal. apply filter_ext. intros e.
    exact (hasKey_matchingKeysOf_perm Z.eqb idHash e_indexEntries Z.eqb_eq (idHash e) P).
Qed.

Lemma decryptSearchResult_perm (ks1 ks2 : list KeyToEncryptedIndexEntries) :
  Permutation ks1 ks2 ->
  Permutation (_decryptSearchResult ks1) (_decryptSearchResult ks2).
Proof. apply Permutation_map. Qed.

Lemma decryptSearchResult_decrypted (ks : list KeyToEncryptedIndexEntries) r e :
  In r (_decryptSearchResult ks) -> In e (indexEntries r) -> decrypted e.
Proof.
  unfold _decryptSearchResult. intros Hr He.
  apply in_map_iff in Hr as (k & <- & _). simpl in He.
  apply in_map_iff in He as (b & <- & _). now exists (encEntry b).
Qed.

Lemma filterByTypeAndAttributeAndTime_perm (this : Facade) (restriction : Restriction)
  (rs1 rs2 : list (KeyToIndexEntries Id)) :
  Permutation rs1 rs2 ->
  Permutation (_filterByTypeAndAttributeAndTime this rs1 restriction)
    (_filterByTypeAndAttributeAndTime this rs2 restriction).
Proof.
  intros P. unfold _filterByTypeAndAttributeAndTime.
  set (first := fun result : KeyToIndexEntries Id =>
                  {| indexKey := indexKey result;
                     indexEntries := filter (acceptsEntry this restriction)
                                       (indexEntries result) |}).
  assert (P1 : Permutation (map first rs1) (map first rs2)) by now apply Permutation_map.
  rewrite (map_ext
             (fun r => {| indexKey := indexKey r;
                          indexEntries :=
                            filter (fun entry => hasId (matchingIdsOf (map first rs1)) (id entry))
                              (indexEntries r) |})
             (fun r => {| indexKey := indexKey r;
                          indexEntries :=
                            filter (fun entry => hasId (matchingIdsOf (map first rs2)) (id entry))
                              (indexEntries r) |})).
  - now apply Permutation_map.
  - intros r. f_equal. apply filter_ext. intros e.
    exact (hasKey_matchingKeysOf_perm Id_eqb (@id Id) (@indexEntries Id) Id_eqb_eq (id e) P1).
Qed.

(** After the filter every search word is left with entries for the same
    ids. *)
Lemma filterByTypeAndAttributeAndTime_same_ids (this : Facade) (restriction : Restriction)
  (rs : list (KeyToIndexEntries Id)) t t' (i : Id) :
  In t (_filterByTypeAndAttributeAndTime this rs restriction) ->
  In t' (_filterByTypeAndAttributeAndTime this rs restriction) ->
  In i (map (@id Id) (indexEntries t)) -> In i (map (@id Id) (indexEntries t')).
Proof.
  unfold _filterByTypeAndAttributeAndTime.
  set (first := fun result : KeyToIndexEntries Id =>
                  {| indexKey := indexKey result;
                     indexEntries := filter (acceptsEntry this restriction)
                                       (indexEntries result) |}).
  set (M := matchingIdsOf (map first rs)).
  intros Ht Ht' Hi.
  apply in_map_iff in Ht as (r & <- & Hr). apply in_map_iff in Ht' as (r' & <- & Hr').
  simpl in *. apply in_map_iff in Hi as (e & <- & He).
  apply filter_In in He as [He HM].
  pose proof (proj1 (hasKey_matchingKeysOf Id_eqb (@id Id) (@indexEntries Id) Id_eqb_eq
                       (map first rs) (id e)) HM) as [_ Hall].
  specialize (Hall r' Hr'). apply in_map_iff in Hall as (e' & E' & He').
  apply in_map_iff. exists e'. split; [assumption|].
  apply filter_In. split; [assumption|]. now rewrite E'.
Qed.

Lemma filterByTypeAndAttributeAndTime_entries (this : Facade) (restriction : Restriction)
  (rs : list (KeyToIndexEntries Id)) t e :
  In t (_filterByTypeAndAttributeAndTime this rs restriction) ->
  In e (indexEntries t) ->
  exists r, In r rs /\ In e (indexEntries r).
Proof.
  unfold _filterByTypeAndAttributeAndTime. intros Ht He.
  apply in_map_iff in Ht as (r1 & <- & Hr1).
  apply in_map_iff in Hr1 as (r & <- & Hr). simpl in He.
  apply filter_In in He as [He _]. apply filter_In in He as [He _]. eauto.
Qed.

End IntersectionStages.

(** ** The lookups of the assembler *)

Section AssemblerLookups.

Context {C : Collaborators}.

Local Abbreviation Restriction := (SearchRestriction Id TypeRef).
Local Abbreviation Result := (SearchResult Id TypeRef).
Local Abbreviation Facade := (SearchFacade Id TypeRef).
Local Abbreviation Entry := (SearchIndexEntry Id).

Lemma reachedMaxResults_unset (m : option Z) (n : nat) :
  truthyZ m = false -> reachedMaxResults m n = false.
Proof.
  intros Hm. unfold reachedMaxResults. destruct m as [v|]; [|reflexivity]. now rewrite Hm.
Qed.

(** The mapper either starts a lookup or skips the entry. *)
Lemma mapper_cases (m : option Z) (e : Entry) (res : list (IdTuple Id)) (inF : list Entry) :
  (reachedMaxResults m (length res) = false /\ mapper m e res inF = inF ++ [e])
  \/ (reachedMaxResults m (length res) = true /\ truthyZ m = true /\ mapper m e res inF = inF).
Proof.
  unfold mapper. destruct (reachedMaxResults m (length res)) eqn:Hr; [right|left; now split].
  split; [reflexivity|]. split; [|reflexivity].
  destruct (truthyZ m) eqn:Hm; [reflexivity|]. now rewrite reachedMaxResults_unset in Hr.
Qed.

Lemma mapper_perm (m : option Z) (e : Entry) (res : list (IdTuple Id)) (inF : list Entry) :
  exists skipped,
    Permutation (skipped ++ mapper m e res inF) (e :: inF)
    /\ (reachedMaxResults m (length res) = false -> skipped = []).
Proof.
  destruct (mapper_cases m e res inF) as [[_ ->]|(Hr & _ & ->)].
  - exists []. split; [|reflexivity]. simpl. symmetry. apply Permutation_cons_append.
  - exists [e]. split; [reflexivity|congruence].
Qed.

Lemma takeUp_results (m : option Z) (st : Mapping) (e : Entry) :
  m_results (takeUp m st e) = m_results st.
Proof. unfold takeUp. now destruct (_ <=? _)%nat. Qed.

Lemma takeUp_perm (m : option Z) (st : Mapping) (e : Entry) :
  exists skipped,
    Permutation (skipped ++ pending (takeUp m st e)) (e :: pending st)
    /\ (reachedMaxResults m (length (m_results st)) = false -> skipped = []).
Proof.
  unfold takeUp, pending. destruct (_ <=? _)%nat; simpl.
  - exists []. split; [|reflexivity]. simpl. symmetry. apply Permutation_middle.
  - destruct (mapper_perm m e (m_results st) (m_inFlight st)) as (skipped & Hp & Hm).
    exists skipped. split; [|exact Hm].
    rewrite app_assoc, Hp. reflexivity.
Qed.

Lemma takeUp_queueWaits (m : option Z) (st : Mapping) (e : Entry) :
  queueWaits st -> queueWaits (takeUp m st e).
Proof.
  unfold queueWaits, takeUp. intros H.
  destruct (concurrency <=? length (m_inFlight st))%nat eqn:Hfull; simpl.
  - intros _. now apply Nat.leb_le.
  - intros Hq. specialize (H Hq). apply Nat.leb_gt in Hfull. lia.
Qed.

(** Going through the array. *)
Lemma fold_takeUp (m : option Z) (entries : list Entry) :
  forall st,
    m_results (fold_left (takeUp m) entries st) = m_results st
    /\ (queueWaits st -> queueWaits (fold_left (takeUp m) entries st))
    /\ exists skipped,
         Permutation (skipped ++ pending (fold_left (takeUp m) entries st))
           (entries ++ pending st)
         /\ (reachedMaxResults m (length (m_results st)) = false -> skipped = []).
Proof.
  induction entries as [|e entries IH]; intros st; simpl.
  - split; [reflexivity|]. split; [tauto|]. exists []. now split.
  - destruct (IH (takeUp m st e)) as (Hres & Hq & skipped & Hp & Hm).
    split; [now rewrite Hres, takeUp_results|].
    split; [intros H; apply Hq; now apply takeUp_queueWaits|].
    destruct (takeUp_perm m st e) as (skipped0 & Hp0 & Hm0).
    exists (skipped ++ skipped0). split.
    + rewrite (Permutation_app_comm skipped skipped0), <- app_assoc, Hp.
      rewrite (Permutation_app_comm entries), app_assoc, Hp0. simpl.
      apply perm_skip. apply Permutation_app_comm.
    + intros H. rewrite takeUp_results in Hm. now rewrite (Hm H), (Hm0 H).
Qed.

Lemma drainQueue_perm (m : option Z) (res : list (IdTuple Id)) (queue : list Entry) :
  forall inF,
    exists skipped,
      Permutation (skipped ++ snd (drainQueue m res queue inF)
                     ++ fst (drainQueue m res queue inF))
        (inF ++ queue)
      /\ ((queue <> [] -> reachedMaxResults m (length res) = false) -> skipped = [])
      /\ (fst (drainQueue m res queue inF) <> [] ->
          (concurrency <= length (snd (drainQueue m res queue inF)))%nat).
Proof.
  induction queue as [|e queue IH]; intros inF; simpl.
  - exists []. split; [reflexivity|]. split; [reflexivity|]. intros H. now contradiction H.
  - destruct (length inF <? concurrency)%nat eqn:Hroom.
    + destruct (IH (mapper m e res inF)) as (skipped & Hp & Hm & Hq).
      destruct (mapper_perm m e res inF) as (skipped0 & Hp0 & Hm0).
      exists (skipped ++ skipped0). split; [|split].
      * rewrite (Permutation_app_comm skipped skipped0), <- app_assoc, Hp, app_assoc, Hp0.
        simpl. apply Permutation_middle.
      * intros H. assert (Hr : reachedMaxResults m (length res) = false)
          by (apply H; discriminate).
        rewrite (Hm0 Hr), Hm; [reflexivity|]. intros _. exact Hr.
      * exact Hq.
    + exists []. simpl. split; [reflexivity|]. split; [reflexivity|].
      intros _. apply Nat.ltb_ge in Hroom. exact Hroom.
Qed.

Lemma split_at (A : Type) (l1 l2 : list A) (e : A) :
  firstn (length l1) (l1 ++ e :: l2) = l1 /\ skipn (S (length l1)) (l1 ++ e :: l2) = l2.
Proof.
  induction l1 as [|x l1 [IH1 IH2]]; simpl; [now split|]. split; [now f_equal|exact IH2].
Qed.

(** The lookup that is answered next. *)
Lemma answered_position (st : Mapping) :
  m_inFlight st <> [] ->
  let keys := map (fun entry : Entry => uint8ArrayToBase64 (encId entry)) (m_inFlight st) in
  let k := if (answeredNext keys <? length (m_inFlight st))%nat then answeredNext keys
           else 0%nat in
  exists e, nth_error (m_inFlight st) k = Some e
            /\ Permutation (e :: firstn k (m_inFlight st) ++ skipn (S k) (m_inFlight st))
                 (m_inFlight st).
Proof.
  intros Hne keys k.
  assert (Hk : (k < length (m_inFlight st))%nat).
  { unfold k. destruct (_ <? _)%nat eqn:E; [now apply Nat.ltb_lt|].
    destruct (m_inFlight st); [congruence|simpl; lia]. }
  destruct (nth_error (m_inFlight st) k) as [e|] eqn:En.
  - exists e. split; [reflexivity|].
    destruct (nth_error_split _ _ En) as (l1 & l2 & Heq & Hlen).
    rewrite Heq, <- Hlen. destruct (split_at l1 l2 e) as [-> ->].
    apply Permutation_middle.
  - apply nth_error_None in En. lia.
Qed.

Lemma onElementData_length (this : Facade) (r : Restriction) (e : Entry)
  (res : list (IdTuple Id)) :
  (length res <= length (onElementData this r e res) <= S (length res))%nat.
Proof.
  unfold onElementData.
  destruct (ElementDataOS (_db this) (uint8ArrayToBase64 (encId e))) as [elementData|];
    [|lia].
  destruct (match listId r with Some l => Id_eqb l (elementListId elementData) | None => true end);
    [|lia].
  rewrite length_app. simpl. lia.
Qed.

Lemma lookupAnswered_step (this : Facade) (r : Restriction) (m : option Z) (st : Mapping) :
  m_inFlight st <> [] ->
  exists e skipped,
    m_results (lookupAnswered this r m st) = onElementData this r e (m_results st)
    /\ In e (m_inFlight st)
    /\ Permutation (e :: skipped ++ pending (lookupAnswered this r m st)) (pending st)
    /\ ((m_queue st <> [] ->
         reachedMaxResults m (length (onElementData this r e (m_results st))) = false) ->
        skipped = [])
    /\ queueWaits (lookupAnswered this r m st).
Proof.
  intros Hne. destruct (answered_position st Hne) as (e & Hn & Hperm).
  unfold lookupAnswered. cbv zeta in Hn, Hperm. rewrite Hn.
  set (k := if (_ <? _)%nat then _ else _) in *.
  set (others := firstn k (m_inFlight st) ++ skipn (S k) (m_inFlight st)) in *.
  destruct (drainQueue_perm m (onElementData this r e (m_results st)) (m_queue st) others)
    as (skipped & Hp & Hm & Hq).
  destruct (drainQueue m (onElementData this r e (m_results st)) (m_queue st) others)
    as [queue inFlight].
  simpl in *. exists e, skipped. split; [reflexivity|].
  split; [eapply nth_error_In; eassumption|].
  split; [|split; [exact Hm|exact Hq]].
  unfold pending. simpl. rewrite Hp, <- Hperm. reflexivity.
Qed.

(** Answering lookups until none is in flight: every entry still to be
    dealt with is looked up or skipped, and none is skipped while
    [maxResults] cannot be reached. *)
Lemma settleLookups_looked (this : Facade) (r : Restriction) (m : option Z) (n : nat) :
  forall st,
    queueWaits st -> (length (pending st) <= n)%nat ->
    exists looked skipped,
      m_results (settleLookups n this r m st) = lookedUp this r looked (m_results st)
      /\ Permutation (looked ++ skipped) (pending st)
      /\ (neverReached m (length (m_results st) + length (pending st)) -> skipped = []).
Proof.
  induction n as [|n IH]; intros st Hq Hlen.
  - exists [], []. simpl. split; [reflexivity|]. split; [|reflexivity].
    destruct (pending st); [reflexivity|simpl in Hlen; lia].
  - simpl. destruct (m_inFlight st) as [|x inF] eqn:HinF.
    + exists [], []. split; [reflexivity|]. split; [|reflexivity].
      unfold pending. rewrite HinF. simpl.
      destruct (m_queue st) as [|y q] eqn:Hqueue; [reflexivity|].
      unfold queueWaits in Hq. rewrite HinF, Hqueue in Hq.
      assert (H : (concurrency <= 0)%nat) by (apply Hq; discriminate).
      unfold concurrency in H. lia.
    + assert (Hne : m_inFlight st <> []) by (rewrite HinF; discriminate).
      destruct (lookupAnswered_step this r m st Hne)
        as (e & skipped0 & Hres & _ & Hp & Hm0 & Hq').
      pose proof (Permutation_length Hp) as Hplen. simpl in Hplen. rewrite length_app in Hplen.
      assert (Hlen' : (length (pending (lookupAnswered this r m st)) <= n)%nat) by lia.
      destruct (IH _ Hq' Hlen') as (looked & skipped & Hres' & Hp' & Hm').
      exists (e :: looked), (skipped0 ++ skipped). split; [|split].
      * rewrite Hres', Hres. reflexivity.
      * rewrite <- Hp. simpl. apply perm_skip.
        rewrite (Permutation_app_comm skipped0 skipped), app_assoc, Hp'.
        apply Permutation_app_comm.
      * intros Hnever.
        pose proof (onElementData_length this r e (m_results st)) as Hpush.
        assert (H0 : skipped0 = []).
        { apply Hm0. intros Hqueue. apply Hnever.
          assert (Hq2 : (2 <= length (pending st))%nat).
          { unfold pending. rewrite HinF, length_app. simpl.
            destruct (m_queue st); [congruence|simpl; lia]. }
          lia. }
        rewrite H0, Hm'; [reflexivity|].
        intros k Hk. apply Hnever. rewrite Hres in Hk. subst skipped0. simpl in Hplen. lia.
Qed.

(** As many answers as there are entries settle every lookup: in the end
    none is in flight and the queue is empty. *)
Lemma settleLookups_settled (this : Facade) (r : Restriction) (m : option Z) (n : nat) :
  forall st,
    queueWaits st -> (length (pending st) <= n)%nat ->
    pending (settleLookups n this r m st) = [].
Proof.
  induction n as [|n IH]; intros st Hq Hlen; simpl.
  - destruct (pending st); [reflexivity|simpl in Hlen; lia].
  - destruct (m_inFlight st) as [|x inF] eqn:HinF.
    + unfold pending. rewrite HinF. simpl.
      destruct (m_queue st) as [|y q] eqn:Hqueue; [reflexivity|].
      unfold queueWaits in Hq. rewrite HinF, Hqueue in Hq.
      assert (H : (concurrency <= 0)%nat) by (apply Hq; discriminate).
      unfold concurrency in H. lia.
    + assert (Hne : m_inFlight st <> []) by (rewrite HinF; discriminate).
      destruct (lookupAnswered_step this r m st Hne) as (e & skipped0 & _ & _ & Hp & _ & Hq').
      apply IH; [exact Hq'|].
      apply Permutation_length in Hp. simpl in Hp. rewrite length_app in Hp. lia.
Qed.

Lemma groupSearchResults_settled (this : Facade) (r : Restriction) (m : option Z)
  (entries : list Entry) (res : list (IdTuple Id)) :
  pending
    (settleLookups (length entries) this r m
       (fold_left (takeUp m) entries {| m_results := res; m_inFlight := []; m_queue := [] |}))
  = [].
Proof.
  set (st0 := {| m_results := res; m_inFlight := []; m_queue := [] |}).
  destruct (fold_takeUp m entries st0) as (_ & Hq & skipped & Hp & _).
  apply settleLookups_settled.
  - apply Hq. intros H. now contradiction H.
  - apply Permutation_length in Hp. rewrite !length_app in Hp. simpl in Hp. lia.
Qed.

(** The assembler looks up some of the entries, each at most once, in some
    order, and all of them when [maxResults] is not set or cannot be
    reached. *)
Lemma groupSearchResults_looked (this : Facade) (r : Restriction) (m : option Z)
  (entries : list Entry) (res : list (IdTuple Id)) :
  exists looked skipped,
    groupSearchResults this r m entries res = lookedUp this r looked res
    /\ Permutation (looked ++ skipped) entries
    /\ (neverReached m (length res + length entries) -> skipped = []).
Proof.
  unfold groupSearchResults.
  set (st0 := {| m_results := res; m_inFlight := []; m_queue := [] |}).
  destruct (fold_takeUp m entries st0) as (Hres & Hq & skipped1 & Hp1 & Hm1).
  assert (Hq0 : queueWaits st0) by (intros H; now contradiction H).
  pose proof (Permutation_length Hp1) as Hplen. rewrite !length_app in Hplen.
  simpl in Hplen.
  assert (Hlen : (length (pending (fold_left (takeUp m) entries st0)) <= length entries)%nat)
    by lia.
  destruct (settleLookups_looked this r m (Hq Hq0) Hlen) as (looked & skipped & Hl & Hp & Hm).
  exists looked, (skipped ++ skipped1). split; [|split].
  - rewrite Hl, Hres. reflexivity.
  - rewrite app_assoc, Hp, (Permutation_app_comm _ skipped1), Hp1.
    unfold pending. simpl. now rewrite app_nil_r.
  - intros Hnever. destruct entries as [|e0 entries'].
    + apply Permutation_length in Hp1. simpl in Hp1. rewrite length_app in Hp1.
      apply Permutation_length in Hp. rewrite length_app in Hp.
      destruct skipped1; [|simpl in Hp1; lia]. destruct skipped; [reflexivity|simpl in *; lia].
    + assert (H1 : skipped1 = []).
      { apply Hm1. simpl. apply Hnever. simpl. lia. }
      subst skipped1. rewrite app_nil_r. apply Hm. rewrite Hres. simpl.
      intros k Hk. apply Hnever. simpl in *. lia.
Qed.

Lemma neverReached_unset (m : option Z) (n : nat) : truthyZ m = false -> neverReached m n.
Proof. intros Hm k _. now apply reachedMaxResults_unset. Qed.

Lemma neverReached_below (k : Z) (n : nat) : Z.of_nat n <= k -> neverReached (Some k) n.
Proof.
  intros Hn j Hj. unfold reachedMaxResults. apply andb_false_iff. right.
  apply Z.leb_gt. lia.
Qed.

(** What the answers push. *)
Lemma onElementData_cases (this : Facade) (r : Restriction) (e : Entry)
  (res : list (IdTuple Id)) :
  (exists l, storedUnder this r e l /\ onElementData this r e res = res ++ [(l, id e)])
  \/ ((forall l, ~ storedUnder this r e l) /\ onElementData this r e res = res).
Proof.
  unfold onElementData, storedUnder.
  destruct (ElementDataOS (_db this) (uint8ArrayToBase64 (encId e))) as [[l]|] eqn:Hed;
    cbn [elementListId].
  - destruct (match listId r with Some w => Id_eqb w l | None => true end) eqn:Hl.
    + left. exists l. split; [|reflexivity]. split; [reflexivity|].
      intros w Hw. rewrite Hw in Hl. now apply Id_eqb_eq in Hl.
    + right. split; [|reflexivity]. intros l' [Heq Hw]. injection Heq as <-.
      destruct (listId r) as [w|]; [|discriminate].
      rewrite (Hw w eq_refl), Id_eqb_refl in Hl. discriminate.
  - right. split; [|reflexivity]. intros l' [Heq _]. discriminate.
Qed.

Lemma lookedUp_appends (this : Facade) (r : Restriction) (looked : list Entry) :
  forall res,
    exists added,
      lookedUp this r looked res = res ++ added
      /\ (forall t, In t added ->
            exists e, In e looked /\ snd t = id e /\ storedUnder this r e (fst t))
      /\ (NoDup (map (@id Id) looked) -> NoDup (map snd added))
      /\ (forall e l, In e looked -> storedUnder this r e l -> In (l, id e) added).
Proof.
  induction looked as [|e looked IH]; intros res; simpl.
  - exists []. split; [now rewrite app_nil_r|]. split; [intros t []|].
    split; [intros _; constructor|intros e l []].
  - destruct (onElementData_cases this r e res) as [(l & Hst & ->)|[Hno ->]].
    + destruct (IH (res ++ [(l, id e)])) as (added & -> & Hfrom & Hnd & Hall).
      exists ((l, id e) :: added). split; [now rewrite <- app_assoc|]. split; [|split].
      * intros t [<-|Ht]; [exists e; simpl; tauto|].
        destruct (Hfrom t Ht) as (e' & He' & H). exists e'. split; [now right|exact H].
      * intros Hnodup. inversion Hnodup as [|? ? Hne Hnodup']; subst. simpl.
        constructor; [|now apply Hnd].
        intros Hin. apply in_map_iff in Hin as (t & Ht & Hin).
        destruct (Hfrom t Hin) as (e' & He' & Hid & _). apply Hne.
        rewrite <- Ht, Hid. now apply in_map.
      * intros e' l' [<-|He'] Hst'.
        -- left. destruct Hst as [H1 _], Hst' as [H2 _]. rewrite H1 in H2. now injection H2 as ->.
        -- right. now apply Hall.
    + destruct (IH res) as (added & -> & Hfrom & Hnd & Hall).
      exists added. split; [reflexivity|]. split; [|split].
      * intros t Ht. destruct (Hfrom t Ht) as (e' & He' & H). exists e'.
        split; [now right|exact H].
      * intros Hnodup. inversion Hnodup; subst. now apply Hnd.
      * intros e' l' [<-|He'] Hst'; [now apply Hno in Hst'|now apply Hall].
Qed.

Lemma groupSearchResults_appends (this : Facade) (r : Restriction) m (entries : list Entry) :
  forall res,
    exists added,
      groupSearchResults this r m entries res = res ++ added
      /\ forall t, In t added ->
           exists e, In e entries /\ snd t = id e /\ storedUnder this r e (fst t).
Proof.
  intros res.
  destruct (groupSearchResults_looked this r m entries res) as (looked & skipped & -> & Hp & _).
  destruct (lookedUp_appends this r looked res) as (added & -> & Hfrom & _).
  exists added. split; [reflexivity|]. intros t Ht.
  destruct (Hfrom t Ht) as (e & He & H). exists e. split; [|exact H].
  eapply Permutation_in; [exact Hp|]. apply in_or_app. now left.
Qed.

Lemma groupSearchResults_added_NoDup (this : Facade) (r : Restriction) m
  (entries : list Entry) :
  NoDup (map (@id Id) entries) ->
  forall res added,
    groupSearchResults this r m entries res = res ++ added ->
    NoDup (map snd added).
Proof.
  intros Hnd res added.
  destruct (groupSearchResults_looked this r m entries res) as (looked & skipped & -> & Hp & _).
  destruct (lookedUp_appends this r looked res) as (added' & -> & _ & Hnodup & _).
  intros H. apply app_inv_head in H. subst added'. apply Hnodup.
  assert (Hall : NoDup (map (@id Id) (looked ++ skipped))).
  { eapply Permutation_NoDup; [|exact Hnd]. apply Permutation_map. now symmetry. }
  rewrite map_app in Hall. now apply NoDup_app_remove_r in Hall.
Qed.

Lemma groupSearchResults_keeps (this : Facade) (r : Restriction) m (entries : list Entry) res t :
  In t res -> In t (groupSearchResults this r m entries res).
Proof.
  intros H. destruct (groupSearchResults_appends this r m entries res) as (added & -> & _).
  apply in_or_app. now left.
Qed.

Lemma groupSearchResults_complete (this : Facade) (r : Restriction) m (entries : list Entry)
  (e : Entry) (l : Id) :
  truthyZ m = false ->
  In e entries -> storedUnder this r e l ->
  forall res, In (l, id e) (groupSearchResults this r m entries res).
Proof.
  intros Hm He Hst res.
  destruct (groupSearchResults_looked this r m entries res) as (looked & skipped & -> & Hp & Hs).
  rewrite (Hs (neverReached_unset _ Hm)), app_nil_r in Hp.
  destruct (lookedUp_appends this r looked res) as (added & -> & _ & _ & Hall).
  apply in_or_app. right. apply Hall; [|exact Hst].
  eapply Permutation_in; [symmetry; exact Hp|exact He].
Qed.

(** *** Entries with the same ids and encrypted ids *)

Lemma mapper_sameKey (m : option Z) (a b : Entry) (res : list (IdTuple Id))
  (i1 i2 : list Entry) :
  sameKey a b -> Forall2 sameKey i1 i2 ->
  Forall2 sameKey (mapper m a res i1) (mapper m b res i2).
Proof.
  intros Hab Hi. unfold mapper. destruct (reachedMaxResults m (length res)); [exact Hi|].
  apply Forall2_app; [exact Hi|]. constructor; [exact Hab|constructor].
Qed.

Lemma takeUp_sameLookups (m : option Z) (st1 st2 : Mapping) (a b : Entry) :
  sameLookups st1 st2 -> sameKey a b ->
  sameLookups (takeUp m st1 a) (takeUp m st2 b).
Proof.
  intros (Hres & Hin & Hq) Hab. unfold takeUp.
  rewrite (Forall2_length Hin), Hres.
  destruct (concurrency <=? length (m_inFlight st2))%nat;
    (split; [|split]); simpl; try assumption; try reflexivity.
  - now constructor.
  - now apply mapper_sameKey.
Qed.

Lemma fold_takeUp_sameLookups (m : option Z) (l1 l2 : list Entry) :
  Forall2 sameKey l1 l2 ->
  forall st1 st2,
    sameLookups st1 st2 ->
    sameLookups (fold_left (takeUp m) l1 st1) (fold_left (takeUp m) l2 st2).
Proof.
  induction 1 as [|a b l1 l2 Hab HF IH]; intros st1 st2 Hst; simpl; [exact Hst|].
  apply IH. now apply takeUp_sameLookups.
Qed.

Lemma drainQueue_sameKey (m : option Z) (res : list (IdTuple Id)) (q1 q2 : list Entry) :
  Forall2 sameKey q1 q2 ->
  forall i1 i2,
    Forall2 sameKey i1 i2 ->
    Forall2 sameKey (fst (drainQueue m res q1 i1)) (fst (drainQueue m res q2 i2))
    /\ Forall2 sameKey (snd (drainQueue m res q1 i1)) (snd (drainQueue m res q2 i2)).
Proof.
  induction 1 as [|a b q1 q2 Hab HF IH]; intros i1 i2 Hi; simpl.
  - split; [constructor|exact Hi].
  - rewrite (Forall2_length Hi). destruct (length i2 <? concurrency)%nat.
    + apply IH. now apply mapper_sameKey.
    + split; [now constructor|exact Hi].
Qed.

Lemma onElementData_sameKey (this : Facade) (r : Restriction) (a b : Entry)
  (res : list (IdTuple Id)) :
  sameKey a b -> onElementData this r a res = onElementData this r b res.
Proof. intros [Hid Henc]. unfold onElementData. now rewrite Hid, Henc. Qed.

Lemma sameKey_keys (l1 l2 : list Entry) :
  Forall2 sameKey l1 l2 ->
  map (fun entry : Entry => uint8ArrayToBase64 (encId entry)) l1
  = map (fun entry : Entry => uint8ArrayToBase64 (encId entry)) l2.
Proof.
  induction 1 as [|a b l1 l2 [_ Henc] HF IH]; simpl; [reflexivity|]. now rewrite Henc, IH.
Qed.

Lemma firstn_Forall2 (A B : Type) (P : A -> B -> Prop) (n : nat) (l1 : list A) (l2 : list B) :
  Forall2 P l1 l2 -> Forall2 P (firstn n l1) (firstn n l2).
Proof.
  intros H. revert n. induction H; intros [|n]; simpl; constructor; auto.
Qed.

Lemma skipn_Forall2 (A B : Type) (P : A -> B -> Prop) (n : nat) (l1 : list A) (l2 : list B) :
  Forall2 P l1 l2 -> Forall2 P (skipn n l1) (skipn n l2).
Proof.
  intros H. revert n. induction H; intros [|n]; simpl; try constructor; auto.
Qed.

Lemma nth_error_Forall2 (A B : Type) (P : A -> B -> Prop) (n : nat) (l1 : list A)
  (l2 : list B) :
  Forall2 P l1 l2 ->
  match nth_error l1 n, nth_error l2 n with
  | Some a, Some b => P a b
  | None, None => True
  | _, _ => False
  end.
Proof.
  intros H. revert n. induction H; intros [|n]; simpl; auto. apply IHForall2.
Qed.

Lemma lookupAnswered_sameLookups (this : Facade) (r : Restriction) (m : option Z)
  (st1 st2 : Mapping) :
  sameLookups st1 st2 ->
  sameLookups (lookupAnswered this r m st1) (lookupAnswered this r m st2).
Proof.
  intros (Hres & Hin & Hq). unfold lookupAnswered.
  rewrite (sameKey_keys Hin), (Forall2_length Hin).
  set (k := if (_ <? _)%nat then _ else _).
  pose proof (nth_error_Forall2 k Hin) as Hk.
  destruct (nth_error (m_inFlight st1) k) as [a|], (nth_error (m_inFlight st2) k) as [b|];
    try contradiction; [|now repeat split].
  rewrite (onElementData_sameKey this r (m_results st1) Hk), Hres.
  assert (Hothers : Forall2 sameKey
                      (firstn k (m_inFlight st1) ++ skipn (S k) (m_inFlight st1))
                      (firstn k (m_inFlight st2) ++ skipn (S k) (m_inFlight st2))).
  { apply Forall2_app; [now apply firstn_Forall2|now apply skipn_Forall2]. }
  destruct (drainQueue_sameKey m (onElementData this r b (m_results st2)) Hq Hothers)
    as [H1 H2].
  destruct (drainQueue m _ (m_queue st1) _) as [queue1 inFlight1].
  destruct (drainQueue m _ (m_queue st2) _) as [queue2 inFlight2].
  now repeat split.
Qed.

Lemma settleLookups_sameLookups (this : Facade) (r : Restriction) (m : option Z) (n : nat) :
  forall st1 st2,
    sameLookups st1 st2 ->
    sameLookups (settleLookups n this r m st1) (settleLookups n this r m st2).
Proof.
  induction n as [|n IH]; intros st1 st2 Hst; simpl; [exact Hst|].
  pose proof Hst as (_ & Hin & _).
  destruct Hin as [|a b i1 i2 Hab Hi]; [exact Hst|].
  apply IH. now apply lookupAnswered_sameLookups.
Qed.

Lemma groupSearchResults_ext (this : Facade) (r : Restriction) m (l1 l2 : list Entry) :
  Forall2 sameKey l1 l2 ->
  forall res, groupSearchResults this r m l1 res = groupSearchResults this r m l2 res.
Proof.
  intros H res. unfold groupSearchResults. rewrite (Forall2_length H).
  apply settleLookups_sameLookups. apply fold_takeUp_sameLookups; [exact H|].
  repeat split; constructor.
Qed.

(** *** How far the results can grow *)

Section Bound.

Variable k : Z.
Variable previous : nat.
Hypothesis k_set : k <> 0.

Local Abbreviation bound := (Z.max (Z.of_nat previous) (k + 4)).

Lemma mapper_withinBound (e : Entry) (res : list (IdTuple Id)) (inF : list Entry) :
  (length inF < concurrency)%nat ->
  Z.of_nat (length res + length inF) <= bound ->
  (length (mapper (Some k) e res inF) <= concurrency)%nat
  /\ Z.of_nat (length res + length (mapper (Some k) e res inF)) <= bound.
Proof.
  intros Hroom Hb. unfold mapper, reachedMaxResults, truthyZ.
  replace (negb (k =? 0)) with true by (symmetry; apply negb_true_iff, Z.eqb_neq; exact k_set).
  simpl. destruct (k <=? Z.of_nat (length res)) eqn:Hreached; [split; [lia|exact Hb]|].
  apply Z.leb_gt in Hreached. rewrite length_app. simpl.
  unfold concurrency in *. split; lia.
Qed.

Lemma takeUp_withinBound (st : Mapping) (e : Entry) :
  withinBound bound st -> withinBound bound (takeUp (Some k) st e).
Proof.
  intros [Hc Hb]. unfold takeUp, withinBound.
  destruct (concurrency <=? length (m_inFlight st))%nat eqn:Hfull; simpl; [now split|].
  apply Nat.leb_gt in Hfull. now apply mapper_withinBound.
Qed.

Lemma fold_takeUp_withinBound (entries : list Entry) :
  forall st, withinBound bound st -> withinBound bound (fold_left (takeUp (Some k)) entries st).
Proof.
  induction entries as [|e entries IH]; intros st H; simpl; [exact H|].
  apply IH. now apply takeUp_withinBound.
Qed.

Lemma drainQueue_withinBound (res : list (IdTuple Id)) (queue : list Entry) :
  forall inF,
    (length inF <= concurrency)%nat ->
    Z.of_nat (length res + length inF) <= bound ->
    (length (snd (drainQueue (Some k) res queue inF)) <= concurrency)%nat
    /\ Z.of_nat (length res + length (snd (drainQueue (Some k) res queue inF))) <= bound.
Proof.
  induction queue as [|e queue IH]; intros inF Hc Hb; simpl; [now split|].
  destruct (length inF <? concurrency)%nat eqn:Hroom; [|now split].
  apply Nat.ltb_lt in Hroom.
  destruct (mapper_withinBound e res inF Hroom Hb) as [Hc' Hb']. now apply IH.
Qed.

Lemma lookupAnswered_withinBound (this : Facade) (r : Restriction) (st : Mapping) :
  m_inFlight st <> [] ->
  withinBound bound st -> withinBound bound (lookupAnswered this r (Some k) st).
Proof.
  intros Hne [Hc Hb]. destruct (answered_position st Hne) as (e & Hn & Hperm).
  unfold lookupAnswered. cbv zeta in Hn, Hperm. rewrite Hn.
  set (j := if (_ <? _)%nat then _ else _) in *.
  set (others := firstn j (m_inFlight st) ++ skipn (S j) (m_inFlight st)) in *.
  apply Permutation_length in Hperm. simpl in Hperm.
  pose proof (onElementData_length this r e (m_results st)) as Hpush.
  assert (Hc' : (length others <= concurrency)%nat) by lia.
  assert (Hb' : Z.of_nat (length (onElementData this r e (m_results st)) + length others)
                <= bound) by lia.
  pose proof (drainQueue_withinBound (onElementData this r e (m_results st)) (m_queue st)
                others Hc' Hb') as H.
  destruct (drainQueue (Some k) _ (m_queue st) others) as [queue inFlight]. exact H.
Qed.

Lemma settleLookups_withinBound (this : Facade) (r : Restriction) (n : nat) :
  forall st, withinBound bound st -> withinBound bound (settleLookups n this r (Some k) st).
Proof.
  induction n as [|n IH]; intros st H; simpl; [exact H|].
  destruct (m_inFlight st) as [|x inF] eqn:HinF; [exact H|].
  apply IH. apply lookupAnswered_withinBound; [rewrite HinF; discriminate|exact H].
Qed.

End Bound.

Lemma groupSearchResults_length (this : Facade) (r : Restriction) (k : Z)
  (entries : list Entry) :
  k <> 0 ->
  forall res,
    Z.of_nat (length (groupSearchResults this r (Some k) entries res))
    <= Z.max (Z.of_nat (length res)) (k + 4).
Proof.
  intros Hk res. unfold groupSearchResults.
  set (st0 := {| m_results := res; m_inFlight := []; m_queue := [] |}).
  assert (H0 : withinBound (Z.max (Z.of_nat (length res)) (k + 4)) st0).
  { split; simpl; [unfold concurrency; lia|lia]. }
  pose proof (@settleLookups_withinBound k (length res) Hk this r (length entries) _
                (@fold_takeUp_withinBound k (length res) Hk entries st0 H0)) as [_ H].
  lia.
Qed.

Lemma lookedUp_length (this : Facade) (r : Restriction) (looked : list Entry) :
  forall res, (length (lookedUp this r looked res) <= length res + length looked)%nat.
Proof.
  induction looked as [|e looked IH]; intros res; simpl; [lia|].
  specialize (IH (onElementData this r e res)).
  pose proof (onElementData_length this r e res). lia.
Qed.

Lemma groupSearchResults_added_length (this : Facade) (r : Restriction) m
  (entries : list Entry) (res : list (IdTuple Id)) :
  (length (groupSearchResults this r m entries res) <= length res + length entries)%nat.
Proof.
  destruct (groupSearchResults_looked this r m entries res) as (looked & skipped & -> & Hp & _).
  pose proof (lookedUp_length this r looked res) as H.
  apply Permutation_length in Hp. rewrite length_app in Hp. lia.
Qed.

(** *** Lookups answered in the order they were asked *)

Lemma onElementData_app (this : Facade) (r : Restriction) (e : Entry)
  (res : list (IdTuple Id)) :
  onElementData this r e res = res ++ onElementData this r e [].
Proof.
  destruct (onElementData_cases this r e res) as [(l & [Hed Hl] & ->)|[Hno ->]].
  - destruct (onElementData_cases this r e []) as [(l' & [Hed' _] & ->)|[Hno' _]].
    + rewrite Hed in Hed'. now injection Hed' as ->.
    + exfalso. apply (Hno' l). now split.
  - destruct (onElementData_cases this r e []) as [(l' & Hst & _)|[_ ->]].
    + exfalso. now apply (Hno l').
    + now rewrite app_nil_r.
Qed.

Lemma fold_takeUp_started (m : option Z) (res : list (IdTuple Id)) (entries : list Entry) :
  reachedMaxResults m (length res) = false ->
  forall st,
    m_results st = res ->
    m_inFlight (fold_left (takeUp m) entries st)
    = m_inFlight st ++ firstn (concurrency - length (m_inFlight st)) entries
    /\ m_queue (fold_left (takeUp m) entries st)
       = rev (skipn (concurrency - length (m_inFlight st)) entries) ++ m_queue st.
Proof.
  intros Hr. induction entries as [|e entries IH]; intros st Hres; cbn [fold_left].
  - rewrite firstn_nil, skipn_nil, app_nil_r. now split.
  - destruct (IH (takeUp m st e)) as [HinF Hq]; [now rewrite takeUp_results|].
    rewrite HinF, Hq. unfold takeUp.
    destruct (concurrency <=? length (m_inFlight st))%nat eqn:Hfull;
      cbn [m_inFlight m_queue m_results].
    + apply Nat.leb_le in Hfull.
      replace (concurrency - length (m_inFlight st))%nat with 0%nat by lia.
      cbn [firstn skipn rev]. rewrite <- app_assoc. now split.
    + apply Nat.leb_gt in Hfull. unfold mapper. rewrite Hres, Hr.
      rewrite length_app. cbn [length].
      replace (concurrency - length (m_inFlight st))%nat
        with (S (concurrency - (length (m_inFlight st) + 1)))%nat by lia.
      cbn [firstn skipn]. rewrite <- app_assoc. now split.
Qed.

Lemma fold_takeUp_stopped (m : option Z) (entries : list Entry) :
  forall st,
    reachedMaxResults m (length (m_results st)) = true ->
    m_inFlight st = [] ->
    pending (fold_left (takeUp m) entries st) = m_queue st
    /\ m_inFlight (fold_left (takeUp m) entries st) = [].
Proof.
  induction entries as [|e entries IH]; intros st Hr HinF; simpl.
  - unfold pending. rewrite HinF. now split.
  - assert (E : takeUp m st e = st).
    { unfold takeUp, mapper. rewrite HinF, Hr. simpl. rewrite <- HinF. now destruct st. }
    rewrite E. now apply IH.
Qed.

(** Draining the queue leaves the order of the lookups to come as it is,
    or, once [maxResults] is reached, drops the entries of the queue. *)
Lemma drainQueue_order (m : option Z) (res : list (IdTuple Id)) (queue : list Entry) :
  forall inF,
    exists dropped,
      (snd (drainQueue m res queue inF) ++ fst (drainQueue m res queue inF)) ++ dropped
      = inF ++ queue
      /\ (reachedMaxResults m (length res) = false -> dropped = []).
Proof.
  destruct (reachedMaxResults m (length res)) eqn:Hr.
  - assert (Hall : forall q inF, (length inF <? concurrency)%nat = true ->
                                 drainQueue m res q inF = ([], inF)).
    { induction q as [|y q IHq]; intros inF Hroom; simpl; [reflexivity|].
      rewrite Hroom. unfold mapper. rewrite Hr. now apply IHq. }
    intros inF. destruct queue as [|e queue]; simpl.
    + exists []. split; [now rewrite !app_nil_r|discriminate].
    + destruct (length inF <? concurrency)%nat eqn:Hroom.
      * unfold mapper. rewrite Hr, (Hall queue inF Hroom). simpl.
        exists (e :: queue). split; [now rewrite app_nil_r|discriminate].
      * simpl. exists []. split; [now rewrite app_nil_r|discriminate].
  - induction queue as [|e queue IH]; intros inF; simpl.
    + exists []. split; [now rewrite !app_nil_r|reflexivity].
    + destruct (length inF <? concurrency)%nat.
      * unfold mapper. rewrite Hr. destruct (IH (inF ++ [e])) as (dropped & Heq & Hd).
        exists dropped. split; [|exact Hd]. rewrite Heq, <- app_assoc. reflexivity.
      * simpl. exists []. split; [now rewrite app_nil_r|reflexivity].
Qed.

Lemma firstn_of_prefix (A : Type) (j : nat) (p rest : list A) :
  firstn j p = firstn (Nat.min j (length p)) (p ++ rest).
Proof.
  rewrite firstn_app.
  replace (Nat.min j (length p) - length p)%nat with 0%nat by lia.
  simpl. rewrite app_nil_r.
  destruct (Nat.le_ge_cases j (length p)) as [H|H].
  - now rewrite Nat.min_l.
  - rewrite Nat.min_r by exact H. now rewrite firstn_all, firstn_all2.
Qed.

Lemma lookupAnswered_in_order (this : Facade) (r : Restriction) (m : option Z) (st : Mapping)
  (x : Entry) (inF : list Entry) :
  answersInOrder -> m_inFlight st = x :: inF ->
  m_results (lookupAnswered this r m st) = onElementData this r x (m_results st)
  /\ exists dropped,
       pending (lookupAnswered this r m st) ++ dropped = inF ++ m_queue st
       /\ (truthyZ m = false -> dropped = []).
Proof.
  intros Hfifo HinF. unfold lookupAnswered. rewrite Hfifo, HinF. simpl.
  destruct (drainQueue_order m (onElementData this r x (m_results st)) (m_queue st) inF)
    as (dropped & Heq & Hd).
  destruct (drainQueue m (onElementData this r x (m_results st)) (m_queue st) inF)
    as [queue inFlight].
  simpl in *. split; [reflexivity|]. exists dropped. split; [exact Heq|].
  intros Hm. apply Hd. now apply reachedMaxResults_unset.
Qed.

Lemma settleLookups_in_order (this : Facade) (r : Restriction) (m : option Z) (n : nat) :
  answersInOrder ->
  forall st,
    exists j,
      m_results (settleLookups n this r m st)
      = lookedUp this r (firstn j (pending st)) (m_results st).
Proof.
  intros Hfifo. induction n as [|n IH]; intros st; simpl.
  - now exists 0%nat.
  - destruct (m_inFlight st) as [|x inF] eqn:HinF; [now exists 0%nat|].
    destruct (lookupAnswered_in_order this r m st Hfifo HinF) as (Hres & dropped & Heq & _).
    destruct (IH (lookupAnswered this r m st)) as (j & Hj).
    exists (S (Nat.min j (length (pending (lookupAnswered this r m st))))).
    rewrite Hj, Hres. unfold pending at 3. rewrite HinF. simpl.
    now rewrite <- Heq, <- firstn_of_prefix.
Qed.

Lemma settleLookups_all_in_order (this : Facade) (r : Restriction) (m : option Z) (n : nat) :
  answersInOrder -> truthyZ m = false ->
  forall st,
    queueWaits st -> (length (pending st) <= n)%nat ->
    m_results (settleLookups n this r m st) = lookedUp this r (pending st) (m_results st).
Proof.
  intros Hfifo Hm. induction n as [|n IH]; intros st Hq Hlen; simpl.
  - destruct (pending st); [reflexivity|simpl in Hlen; lia].
  - destruct (m_inFlight st) as [|x inF] eqn:HinF.
    + unfold pending. rewrite HinF. simpl.
      destruct (m_queue st) as [|y q] eqn:Hqueue; [reflexivity|].
      unfold queueWaits in Hq. rewrite HinF, Hqueue in Hq.
      assert (H : (concurrency <= 0)%nat) by (apply Hq; discriminate).
      unfold concurrency in H. lia.
    + assert (Hne : m_inFlight st <> []) by (rewrite HinF; discriminate).
      destruct (lookupAnswered_step this r m st Hne) as (_ & _ & _ & _ & _ & _ & Hq').
      destruct (lookupAnswered_in_order this r m st Hfifo HinF) as (Hres & dropped & Heq & Hd).
      rewrite (Hd Hm), app_nil_r in Heq.
      rewrite IH; [|exact Hq'|].
      * rewrite Hres, Heq. unfold pending. now rewrite HinF.
      * rewrite Heq. unfold pending in Hlen. rewrite HinF in Hlen. simpl in Hlen.
        rewrite length_app in *. lia.
Qed.

(** With lookups answered in order, the assembler looks the entries up in
    the lookup order, as far as it gets. *)
Lemma groupSearchResults_in_order (this : Facade) (r : Restriction) (m : option Z)
  (entries : list Entry) (res : list (IdTuple Id)) :
  answersInOrder ->
  (exists j, groupSearchResults this r m entries res
             = lookedUp this r (firstn j (lookupOrder entries)) res)
  /\ (truthyZ m = false ->
      groupSearchResults this r m entries res = lookedUp this r (lookupOrder entries) res).
Proof.
  intros Hfifo. unfold groupSearchResults.
  set (st0 := {| m_results := res; m_inFlight := []; m_queue := [] |}).
  destruct (reachedMaxResults m (length res)) eqn:Hr.
  - destruct (fold_takeUp_stopped m entries st0 Hr eq_refl) as [Hp HinF].
    assert (E : settleLookups (length entries) this r m (fold_left (takeUp m) entries st0)
                = fold_left (takeUp m) entries st0).
    { destruct (length entries); simpl; [reflexivity|]. now rewrite HinF. }
    rewrite E. destruct (fold_takeUp m entries st0) as (-> & _). simpl. split.
    + now exists 0%nat.
    + intros Hm. now rewrite reachedMaxResults_unset in Hr.
  - destruct (fold_takeUp_started m entries Hr st0 eq_refl) as [HinF Hq].
    change (m_inFlight st0) with (@nil Entry) in HinF, Hq.
    change (m_queue st0) with (@nil Entry) in Hq. cbn [length app] in HinF, Hq.
    rewrite Nat.sub_0_r, app_nil_r in Hq. rewrite Nat.sub_0_r in HinF.
    assert (Hp : pending (fold_left (takeUp m) entries st0) = lookupOrder entries).
    { unfold pending, lookupOrder. now rewrite HinF, Hq. }
    destruct (fold_takeUp m entries st0) as (Hres & Hwaits & _).
    split.
    + destruct (settleLookups_in_order this r m (length entries) Hfifo
                  (fold_left (takeUp m) entries st0)) as (j & Hj).
      exists j. now rewrite Hj, Hp, Hres.
    + intros Hm.
      rewrite (@settleLookups_all_in_order this r m (length entries) Hfifo Hm);
        [now rewrite Hp, Hres| |].
      * apply Hwaits. intros H. now contradiction H.
      * rewrite Hp. unfold lookupOrder.
        rewrite length_app, length_rev, <- length_app, firstn_skipn. lia.
Qed.

(** While the results and the entries mapped together do not exceed
    [maxResults], no mapper finds it reached: every entry is looked up. *)
Lemma groupSearchResults_below (this : Facade) (r : Restriction) (k : Z)
  (entries : list Entry) (res : list (IdTuple Id)) :
  Z.of_nat (length res + length entries) <= k ->
  exists looked,
    groupSearchResults this r (Some k) entries res = lookedUp this r looked res
    /\ Permutation looked entries.
Proof.
  intros Hk.
  destruct (groupSearchResults_looked this r (Some k) entries res)
    as (looked & skipped & Heq & Hp & Hs).
  rewrite (Hs (neverReached_below Hk)), app_nil_r in Hp. now exists looked.
Qed.

End AssemblerLookups.

(** ** The order of the search words *)

Section TokenOrder.

Context {C : Collaborators}.

Local Abbreviation Restriction := (SearchRestriction Id TypeRef).
Local Abbreviation Result := (SearchResult Id TypeRef).
Local Abbreviation Facade := (SearchFacade Id TypeRef).
Local Abbreviation Entry := (SearchIndexEntry Id).

Lemma permutedOutcome_trans (A : Type) (p1 p2 p3 : Promise (list A)) :
  permutedOutcome p1 p2 -> permutedOutcome p2 p3 -> permutedOutcome p1 p3.
Proof.
  destruct p1, p2, p3; simpl; try tauto; try congruence. apply Permutation_trans.
Qed.

Lemma mapInCallContext_perm (A B : Type) (f : A -> Promise B) (e0 : Error) (l1 l2 : list A) :
  (forall x e, f x = Rejected e -> e = e0) ->
  Permutation l1 l2 ->
  permutedOutcome (mapInCallContext f l1) (mapInCallContext f l2).
Proof.
  intros He P. induction P as [|x l l' P IH|x y l|l l' l'' P1 IH1 P2 IH2].
  - simpl. constructor.
  - simpl. destruct (f x) as [y|e]; simpl; [|reflexivity].
    destruct (mapInCallContext f l), (mapInCallContext f l'); simpl in *;
      try tauto. now constructor.
  - simpl. destruct (f x) as [x'|ex] eqn:Ex, (f y) as [y'|ey] eqn:Ey; simpl;
      try reflexivity.
    + destruct (mapInCallContext f l); simpl; [apply perm_swap|reflexivity].
    + apply He in Ex, Ey. congruence.
  - eapply permutedOutcome_trans; eassumption.
Qed.

Lemma withIdHash_error (l : list (option bytes)) (e : Error) :
  mapInCallContext withIdHash l = Rejected e -> e = TypeError.
Proof.
  induction l as [|[b|] l IH]; simpl.
  - discriminate.
  - destruct (mapInCallContext withIdHash l); simpl; [discriminate|]. exact IH.
  - now intros [= <-].
Qed.

Lemma findEntriesForSearchToken_error (this : Facade) (r : Restriction) m row e :
  snd (_findEntriesForSearchToken this r m row) = Rejected e -> e = TypeError.
Proof.
  unfold _findEntriesForSearchToken. destruct row as [token fromRow].
  destruct (selectRowsToRead _ _ _ _ _) as [toRead lastRead]. simpl.
  destruct (mapInCallContext withIdHash _) as [entries|e'] eqn:E; simpl; [discriminate|].
  intros [= <-]. now apply withIdHash_error in E.
Qed.

Lemma findIndexEntriesFrom_promise (this : Facade) (r : Restriction) m rows :
  snd (_findIndexEntriesFrom this r m rows)
  = mapInCallContext (fun row => snd (_findEntriesForSearchToken this r m row)) rows.
Proof.
  induction rows as [|row rows IH]; [reflexivity|].
  simpl. destruct (_findEntriesForSearchToken this r m row) as [row' [k|e]]; simpl;
    [|reflexivity].
  destruct (_findIndexEntriesFrom this r m rows) as [rows' q]. simpl in *. now rewrite IH.
Qed.

Lemma findIndexEntries_shape (this : Facade) (sr : Result) m :
  exists rows,
    _findIndexEntries this sr m
    = (set_lastReadSearchIndexRow sr rows,
       mapInCallContext
         (fun row => snd (_findEntriesForSearchToken this (restriction sr) m row))
         (lastReadSearchIndexRow sr)).
Proof.
  unfold _findIndexEntries.
  pose proof (findIndexEntriesFrom_promise this (restriction sr) m
                (lastReadSearchIndexRow sr)) as H.
  destruct (_findIndexEntriesFrom _ _ _ _) as [rows p]. simpl in H. subst p. now exists rows.
Qed.

(** *** Unique element ids *)

Lemma previous_found_iff (rs : list (IdTuple Id)) (i : Id) :
  truthyObj (find (fun r => Id_eqb (snd r) i) rs) = true <-> In i (map snd rs).
Proof.
  split.
  - destruct (find (fun r => Id_eqb (snd r) i) rs) as [r|] eqn:F; [|discriminate]. intros _.
    apply find_some in F as [Hin E]. apply Id_eqb_eq in E. subst. now apply in_map.
  - intros Hin. apply in_map_iff in Hin as (r & <- & Hr).
    destruct (find (fun r0 => Id_eqb (snd r0) (snd r)) rs) as [r'|] eqn:F; [reflexivity|].
    apply (find_none _ _ F) in Hr. rewrite Id_eqb_refl in Hr. discriminate.
Qed.

Lemma seen_iff (seen : list Id) (i : Id) : existsb (Id_eqb i) seen = true <-> In i seen.
Proof.
  rewrite existsb_exists. split.
  - intros (x & Hx & E). apply Id_eqb_eq in E. now subst.
  - intros H. exists i. split; [assumption|apply Id_eqb_refl].
Qed.

Lemma uniqueElementIdsFrom_In (prev : Result) (l : list Entry) :
  forall seen e, In e (uniqueElementIdsFrom seen prev l) -> In e l.
Proof.
  induction l as [|x l IH]; intros seen e; simpl; [tauto|].
  destruct (_ && _); simpl; intros H.
  - destruct H as [H|H]; [now left|right; eapply IH; eassumption].
  - right. eapply IH; eassumption.
Qed.

Lemma uniqueElementIdsFrom_ids (prev : Result) (l : list Entry) :
  forall seen i,
    In i (map (@id Id) (uniqueElementIdsFrom seen prev l))
    <-> In i (map (@id Id) l) /\ ~ In i seen /\ ~ In i (map snd (results prev)).
Proof.
  induction l as [|x l IH]; intros seen i; simpl; [tauto|].
  destruct (existsb (Id_eqb (id x)) seen) eqn:Hs; simpl.
  - apply seen_iff in Hs. rewrite IH. split; [tauto|].
    intros [[E|H] [Hn Hp]]; [subst; contradiction|tauto].
  - assert (Hns : ~ In (id x) seen)
      by (intros H; apply seen_iff in H; congruence).
    destruct (truthyObj (find (fun r => Id_eqb (snd r) (id x)) (results prev))) eqn:Hp; simpl.
    + apply previous_found_iff in Hp. rewrite IH. split; [tauto|].
      intros [[E|H] [Hn Hq]]; [subst; contradiction|tauto].
    + assert (Hnp : ~ In (id x) (map snd (results prev)))
        by (intros H; apply previous_found_iff in H; congruence).
      rewrite IH. simpl. split.
      * intros [E|[H [Hn Hq]]]; [subst; tauto|tauto].
      * intros [[E|H] [Hn Hq]]; [now left|].
        destruct (Id_eq_dec (id x) i) as [E|NE]; [now left|right]. tauto.
Qed.

Lemma uniqueElementIdsFrom_NoDup (prev : Result) (l : list Entry) :
  forall seen, NoDup (map (@id Id) (uniqueElementIdsFrom seen prev l)).
Proof.
  induction l as [|x l IH]; intros seen; simpl; [constructor|].
  destruct (_ && _); simpl; [|apply IH].
  constructor; [|apply IH].
  intros H. apply uniqueElementIdsFrom_ids in H as (_ & H & _). apply H. now left.
Qed.

(** *** Assembling *)

Lemma slice0_Forall2 (A B : Type) (P : A -> B -> Prop) (e : Z) (l1 : list A) (l2 : list B) :
  Forall2 P l1 l2 -> Forall2 P (slice0 l1 e) (slice0 l2 e).
Proof.
  intros H. unfold slice0. rewrite (Forall2_length H).
  destruct (e <? 0); now apply firstn_Forall2.
Qed.

Lemma same_ids_sameKey (l1 l2 : list Entry) :
  (forall a b : Entry, decrypted a -> decrypted b -> id a = id b -> encId a = encId b) ->
  Forall decrypted l1 -> Forall decrypted l2 ->
  map (@id Id) l1 = map (@id Id) l2 -> Forall2 sameKey l1 l2.
Proof.
  intros Hdet H1. revert l2. induction H1 as [|a l1 Ha H1 IH]; intros l2 H2 Hmap.
  - destruct l2; [constructor|discriminate].
  - destruct H2 as [|b l2 Hb H2]; [discriminate|]. simpl in Hmap.
    injection Hmap as Hid Hrest. constructor; [|now apply IH].
    split; [assumption|now apply Hdet].
Qed.

End TokenOrder.

Section TokenOrderPipeline.

Context {C : Collaborators} {O : IdOrder C}.

Local Abbreviation Restriction := (SearchRestriction Id TypeRef).
Local Abbreviation Result := (SearchResult Id TypeRef).
Local Abbreviation Facade := (SearchFacade Id TypeRef).
Local Abbreviation Entry := (SearchIndexEntry Id).

Hypothesis deterministic : deterministicIdEncryption.

Lemma sorted_sameKey (u1 u2 : list Entry) :
  equivalentEntries u1 u2 ->
  Forall2 sameKey
    (sortBy (fun l r => compareNewestFirst (id l) (id r)) u1)
    (sortBy (fun l r => compareNewestFirst (id l) (id r)) u2).
Proof.
  intros (N1 & N2 & Hids & D1 & D2).
  apply same_ids_sameKey.
  - intros a b [ba ->] [bb ->]. apply deterministic.
  - eapply Permutation_Forall; [apply sortBy_perm|assumption].
  - eapply Permutation_Forall; [apply sortBy_perm|assumption].
  - rewrite !(sortBy_map (@id Id) compareNewestFirst). now apply sortBy_unique.
Qed.

Lemma filterByListIdAndGroupSearchResults_equivalent (this : Facade) (sr1 sr2 : Result) m
  (u1 u2 : list Entry) :
  restriction sr1 = restriction sr2 -> results sr1 = results sr2 ->
  equivalentEntries u1 u2 ->
  results (fst (_filterByListIdAndGroupSearchResults this u1 sr1 m))
  = results (fst (_filterByListIdAndGroupSearchResults this u2 sr2 m)).
Proof.
  intros Hr Hres Hu. unfold _filterByListIdAndGroupSearchResults. simpl.
  pose proof (sorted_sameKey Hu) as HS.
  rewrite Hr, Hres, (Forall2_length HS).
  apply groupSearchResults_ext. now apply slice0_Forall2.
Qed.

Lemma reduceIndexEntries_perm (this : Facade) (sr1 sr2 : Result)
  (ks1 ks2 : list KeyToEncryptedIndexEntries) :
  restriction sr1 = restriction sr2 -> results sr1 = results sr2 ->
  matchWordOrder sr1 = false -> matchWordOrder sr2 = false ->
  Permutation ks1 ks2 ->
  match reduceIndexEntries this sr1 ks1, reduceIndexEntries this sr2 ks2 with
  | Resolved u1, Resolved u2 => equivalentEntries u1 u2
  | Rejected e1, Rejected e2 => e1 = e2
  | _, _ => False
  end.
Proof.
  intros Hr Hres Hm1 Hm2 P. unfold reduceIndexEntries. rewrite Hm1, Hm2, <- Hr.
  set (D1 := _decryptSearchResult (_filterByEncryptedId ks1)).
  set (D2 := _decryptSearchResult (_filterByEncryptedId ks2)).
  assert (PT : Permutation (_filterByTypeAndAttributeAndTime this D1 (restriction sr1))
                 (_filterByTypeAndAttributeAndTime this D2 (restriction sr1))).
  { apply filterByTypeAndAttributeAndTime_perm, decryptSearchResult_perm.
    now apply filterByEncryptedId_perm. }
  assert (Hdec : forall D t e, (D = D1 \/ D = D2) ->
                   In t (_filterByTypeAndAttributeAndTime this D (restriction sr1)) ->
                   In e (indexEntries t) -> decrypted e).
  { intros D t e HD Ht He.
    destruct (filterByTypeAndAttributeAndTime_entries _ _ _ _ _ Ht He) as (r & Hr' & He').
    destruct HD as [-> | ->]; eapply decryptSearchResult_decrypted; eassumption. }
  destruct (_filterByTypeAndAttributeAndTime this D1 (restriction sr1)) as [|h1 t1] eqn:E1;
    destruct (_filterByTypeAndAttributeAndTime this D2 (restriction sr1)) as [|h2 t2] eqn:E2;
    simpl.
  - reflexivity.
  - apply Permutation_nil in PT. discriminate.
  - apply Permutation_sym, Permutation_nil in PT. discriminate.
  - assert (H21 : In h2 (h1 :: t1))
      by (eapply Permutation_in; [symmetry; exact PT|now left]).
    assert (H11 : In h1 (h1 :: t1)) by now left.
    rewrite <- E1 in H21, H11.
    unfold equivalentEntries, _reduceToUniqueElementIds.
    split; [apply uniqueElementIdsFrom_NoDup|].
    split; [apply uniqueElementIdsFrom_NoDup|].
    split; [|split].
    + intros i. rewrite !uniqueElementIdsFrom_ids, Hres. split.
      * intros (Hi & Hrest). split; [|assumption].
        eapply filterByTypeAndAttributeAndTime_same_ids; [exact H11|exact H21|exact Hi].
      * intros (Hi & Hrest). split; [|assumption].
        eapply filterByTypeAndAttributeAndTime_same_ids; [exact H21|exact H11|exact Hi].
    + apply Forall_forall. intros e He. apply uniqueElementIdsFrom_In in He.
      apply (Hdec D1 h1 e); [now left|assumption|assumption].
    + apply Forall_forall. intros e He. apply uniqueElementIdsFrom_In in He.
      apply (Hdec D1 h2 e); [now left|assumption|assumption].
Qed.

(** A page gives the same results and settles the same way whatever the
    order of the cursor rows, as long as the word order need not match. *)
Lemma startOrContinueSearch_perm (this : Facade) (sr1 sr2 : Result) m :
  restriction sr1 = restriction sr2 -> results sr1 = results sr2 ->
  matchWordOrder sr1 = false -> matchWordOrder sr2 = false ->
  Permutation (lastReadSearchIndexRow sr1) (lastReadSearchIndexRow sr2) ->
  snd (_startOrContinueSearch this sr1 m) = snd (_startOrContinueSearch this sr2 m)
  /\ results (fst (_startOrContinueSearch this sr1 m))
     = results (fst (_startOrContinueSearch this sr2 m)).
Proof.
  intros Hr Hres Hm1 Hm2 P. unfold _startOrContinueSearch.
  destruct (findIndexEntries_shape this sr1 m) as [rows1 ->].
  destruct (findIndexEntries_shape this sr2 m) as [rows2 ->].
  rewrite <- Hr.
  pose proof (mapInCallContext_perm
                (fun row => snd (_findEntriesForSearchToken this (restriction sr1) m row))
                (e0 := TypeError)
                (fun row e => @findEntriesForSearchToken_error C this (restriction sr1) m row e)
                P) as PK.
  destruct (mapInCallContext _ (lastReadSearchIndexRow sr1)) as [ks1|e1];
    destruct (mapInCallContext _ (lastReadSearchIndexRow sr2)) as [ks2|e2];
    simpl in PK; try contradiction.
  - simpl.
    pose proof (@reduceIndexEntries_perm this
                  (set_lastReadSearchIndexRow sr1 rows1) (set_lastReadSearchIndexRow sr2 rows2)
                  ks1 ks2 Hr Hres Hm1 Hm2 PK) as HR.
    destruct (reduceIndexEntries this (set_lastReadSearchIndexRow sr1 rows1) ks1) as [u1|x1];
      destruct (reduceIndexEntries this (set_lastReadSearchIndexRow sr2 rows2) ks2) as [u2|x2];
      try contradiction.
    + split; [reflexivity|].
      now apply filterByListIdAndGroupSearchResults_equivalent.
    + simpl. subst. now split.
  - simpl. subst. now split.
Qed.

Lemma searchAllTokens_perm (this : Facade) (sr1 sr2 : Result) m :
  restriction sr1 = restriction sr2 -> results sr1 = results sr2 ->
  matchWordOrder sr1 = false -> matchWordOrder sr2 = false ->
  Permutation (lastReadSearchIndexRow sr1) (lastReadSearchIndexRow sr2) ->
  fst (searchAllTokens this sr1 m) = fst (searchAllTokens this sr2 m)
  /\ match snd (searchAllTokens this sr1 m), snd (searchAllTokens this sr2 m) with
     | Resolved a, Resolved b => results a = results b
     | Rejected e1, Rejected e2 => e1 = e2
     | _, _ => False
     end.
Proof.
  intros Hr Hres Hm1 Hm2 P. unfold searchAllTokens, _searchForTokens. rewrite <- Hr.
  destruct (_tryExtendIndex this (restriction sr1)) as [this' [u|e]]; simpl; [|now split].
  destruct (@startOrContinueSearch_perm this' sr1 sr2 m Hr Hres Hm1 Hm2 P) as [Hp Hrs].
  destruct (_startOrContinueSearch this' sr1 m) as [r1 p1].
  destruct (_startOrContinueSearch this' sr2 m) as [r2 p2].
  simpl in *. subst p2. split; [reflexivity|].
  destruct p1; simpl; [|reflexivity]. now rewrite Hrs.
Qed.

End TokenOrderPipeline.

(** ** C9: reordering the search words *)

Section SearchTokenOrder.

Context {C : Collaborators}.

(** Without suggestions wanted, or without a suggestion facade for the type,
    [search] is the plain search over all words. *)
Lemma search_without_suggestions (this : SearchFacade Id TypeRef) q
  (r : SearchRestriction Id TypeRef) msc m :
  msc <= 0 \/ findSuggestionFacade this r = None ->
  search this q r msc m
  = if (0 <? length (tokenize q))%nat
    then searchAllTokens this (initialResult this q r (tokenize q)) m
    else (this, Resolved (initialResult this q r (tokenize q))).
Proof.
  intros H. unfold search. destruct (0 <? length (tokenize q))%nat; [|reflexivity].
  destruct (findSuggestionFacade this r) as [sf|]; [|reflexivity].
  destruct H as [H|H]; [|discriminate].
  replace (msc >? 0) with false by (symmetry; rewrite Z.gtb_ltb; apply Z.ltb_ge; lia).
  reflexivity.
Qed.

End SearchTokenOrder.

(** C9, as stated, fails: with suggestions wanted and a suggestion facade for
    the type, the last word is not searched in the index but used as prefix
    filter.  [ann be] finds the contact 30, whose text has a word starting
    with [be]; [be ann] finds nothing, as no contact is indexed under [be]. *)
Lemma suggestion_search_depends_on_word_order :
  Permutation (tokenize (Collaborators := Scenario.collaborators) "ann be")
    (tokenize (Collaborators := Scenario.collaborators) "be ann")
  /\ option_map (fun sr => (matchWordOrder sr, results sr))
       (Scenario.resolved
          (snd (search (C := Scenario.collaborators) Scenario.facade "ann be" Scenario.contacts
                  5 (Some 10))))
     = Some (false, [Scenario.element 30])
  /\ option_map (fun sr => (matchWordOrder sr, results sr))
       (Scenario.resolved
          (snd (search (C := Scenario.collaborators) Scenario.facade "be ann" Scenario.contacts
                  5 (Some 10))))
     = Some (false, []).
Proof.
  split; [apply perm_swap|]. split; vm_compute; reflexivity.
Qed.

(** C9, amended.  For a search that does not use its last word as suggestion
    word (no suggestions wanted, or no suggestion facade for the type) and
    whose word order need not match, the order of the search words is
    irrelevant: two queries whose words are permutations of each other settle
    alike, with the same list of results.  The id order is assumed to be a
    strict total order and ids to be encrypted deterministically. *)
Theorem search_word_order_irrelevant :
  forall (C : Collaborators) (O : IdOrder C) (this : SearchFacade Id TypeRef)
         (q1 q2 : string) (r : SearchRestriction Id TypeRef) (minSuggestionCount : Z)
         (maxResults : option Z),
    deterministicIdEncryption ->
    minSuggestionCount <= 0 \/ findSuggestionFacade this r = None ->
    Permutation (tokenize q1) (tokenize q2) ->
    matchWordOrder (initialResult this q1 r (tokenize q1)) = false ->
    matchWordOrder (initialResult this q2 r (tokenize q2)) = false ->
    sameResults (snd (search this q1 r minSuggestionCount maxResults))
      (snd (search this q2 r minSuggestionCount maxResults)).
Proof.
  intros C O this q1 q2 r msc m Hdet Hplain P Hm1 Hm2.
  rewrite !(search_without_suggestions _ _ _ _ Hplain).
  rewrite <- (Permutation_length P).
  destruct (0 <? length (tokenize q1))%nat; [|reflexivity].
  apply searchAllTokens_perm; try assumption; try reflexivity.
  simpl. now apply Permutation_map.
Qed.

Lemma scenario_deterministic : deterministicIdEncryption (C := Scenario.collaborators).
Proof.
  assert (Hz : forall i, Byte.to_N i = 0%N -> i = Byte.x00).
  { intros i H. pose proof (Byte.of_to_N i) as E. rewrite H in E. simpl in E. congruence. }
  assert (Hinj : forall i j, Byte.to_N i = Byte.to_N j -> i = j).
  { intros i j H. pose proof (Byte.of_to_N i) as E. rewrite H, Byte.of_to_N in E. congruence. }
  intros b1 b2. simpl. unfold Scenario.decodeEntry.
  destruct b1 as [|i1 [|a1 p1]], b2 as [|i2 [|a2 p2]]; simpl; try reflexivity;
    intros H; f_equal; auto; symmetry; auto.
Qed.

(** Scenario S1: [alpha beta] and [beta alpha] on mails. *)
Lemma search_word_order_irrelevant_witness :
  sameResults
    (snd (search (C := Scenario.collaborators) Scenario.facade "alpha beta" Scenario.mails 0
            (Some 10)))
    (snd (search (C := Scenario.collaborators) Scenario.facade "beta alpha" Scenario.mails 0
            (Some 10))).
Proof.
  apply (search_word_order_irrelevant scenario_idOrder Scenario.facade "alpha beta"
           "beta alpha" Scenario.mails (minSuggestionCount := 0) (Some 10)).
  - exact scenario_deterministic.
  - left. lia.
  - apply perm_swap.
  - reflexivity.
  - reflexivity.
Defined.

(** Scenario S1 itself: the two words meet on the ids 100 and 80. *)
Example search_scenario_S1 :
  option_map (@results N string)
    (Scenario.resolved
       (snd (search (C := Scenario.collaborators) Scenario.facade "alpha beta" Scenario.mails 0
               (Some 10))))
  = Some [Scenario.element 100; Scenario.element 80].
Proof. vm_compute. reflexivity. Qed.

(** ** Two further properties of a page *)

Section FurtherProperties.

Context {C : Collaborators}.

Lemma selectRowsToRead_below (m : option Z) (f : N) (rows : list SearchIndexMetadataEntry) :
  truthyZ m = true -> f <> 0%N ->
  forall entitiesToRead lastReadRowId r,
    In r (fst (selectRowsToRead m (Some f) entitiesToRead lastReadRowId rows)) ->
    (key r < f)%N.
Proof.
  intros Hm Hf. induction rows as [|x rows IH]; intros e l r; simpl; [tauto|].
  rewrite Hm.
  replace (negb (f =? 0)%N) with true by (symmetry; apply negb_true_iff, N.eqb_neq; exact Hf).
  simpl. destruct ((key x <? f)%N && (e <? 1000)%N) eqn:Hsel.
  - specialize (IH (e + size x)%N (key x) r).
    destruct (selectRowsToRead m (Some f) (e + size x) (key x) rows) as [sel last].
    simpl in *. intros [<-|Hin]; [|now apply IH].
    apply andb_true_iff in Hsel as [Hk _]. now apply N.ltb_lt.
  - apply IH.
Qed.

Lemma sortedResult_sorted {O : IdOrder C} (sr : SearchResult Id TypeRef) :
  Sorted newerEq (map snd (results (sortedResult sr))).
Proof.
  unfold sortedResult. simpl.
  pose proof (sortBy_map (@snd Id Id) compareNewestFirst (results sr)) as H.
  change (map snd (sortBy compareTuplesNewestFirst (results sr))
          = sortBy compareNewestFirst (map snd (results sr))) in H.
  rewrite H. apply sortBy_sorted.
Qed.

End FurtherProperties.

(** X1.  A page with [maxResults] set whose cursor for a word is a row key
    other than 0 reads only descriptors of that word with a smaller key. *)
Theorem rowsToRead_below_cursor :
  forall (C : Collaborators) (this : SearchFacade Id TypeRef)
         (restriction : SearchRestriction Id TypeRef) (maxResults : option Z)
         (searchToken : string) (fromRow : N) (r : SearchIndexMetadataEntry),
    truthyZ maxResults = true ->
    fromRow <> 0%N ->
    In r (rowsToRead this restriction maxResults (searchToken, Some fromRow)) ->
    (key r < fromRow)%N.
Proof.
  intros C this restriction m token f r Hm Hf. unfold rowsToRead. simpl.
  now apply selectRowsToRead_below.
Qed.

(** A cursor at 5 on the scenario store: the row with key 1 is read. *)
Lemma rowsToRead_below_cursor_witness :
  map key (rowsToRead (C := Scenario.collaborators) Scenario.facade Scenario.mails (Some 2)
             ("alpha"%string, Some 5%N)) = [1%N]
  /\ (1 < 5)%N.
Proof.
  split; [reflexivity|].
  apply (rowsToRead_below_cursor Scenario.collaborators Scenario.facade Scenario.mails
           (Some 2) "alpha" (fromRow := 5%N)
           {| key := 1%N; size := 3%N; app := 1%N; mtype := 1%N |}).
  - reflexivity.
  - discriminate.
  - vm_compute. now left.
Defined.

(** X2.  Unless it takes the branch for one search word with a suggestion
    facade, [search] resolves with results sorted newest first. *)
Theorem search_results_newest_first :
  forall (C : Collaborators) (O : IdOrder C) (this this' : SearchFacade Id TypeRef)
         (q : string) (r : SearchRestriction Id TypeRef) (minSuggestionCount : Z)
         (maxResults : option Z) (result : SearchResult Id TypeRef),
    length (tokenize q) <> 1%nat \/ minSuggestionCount <= 0
    \/ findSuggestionFacade this r = None ->
    search this q r minSuggestionCount maxResults = (this', Resolved result) ->
    Sorted newerEq (map snd (results result)).
Proof.
  intros C O this this' q r msc m result Hbranch. unfold search.
  destruct (0 <? length (tokenize q))%nat; [|intros [= _ <-]; constructor].
  assert (Hall : searchAllTokens this (initialResult this q r (tokenize q)) m
                 = (this', Resolved result) ->
                 Sorted newerEq (map snd (results result))).
  { unfold searchAllTokens.
    destruct (_searchForTokens this _ [] m) as [t [result' [u|e]]]; simpl; [|discriminate].
    intros [= _ <-]. apply sortedResult_sorted. }
  destruct (findSuggestionFacade this r) as [sf|]; [|exact Hall].
  destruct (msc >? 0) eqn:Hmsc; simpl; [|exact Hall].
  destruct (length (tokenize q) =? 1)%nat eqn:Hone; simpl.
  - apply Nat.eqb_eq in Hone. apply Z.gtb_lt in Hmsc.
    destruct Hbranch as [H|[H|H]]; [contradiction|lia|discriminate].
  - unfold searchWithSuggestionToken.
    destruct (pop _) as [[row|] rows]; [|discriminate].
    destruct (_searchForTokens this _ [fst row] None) as [t [result1 [u|e]]]; simpl;
      [|discriminate].
    destruct (snd (_loadAndReduce _ _ _ _ _)) as [filtered|e]; simpl; [|discriminate].
    intros [= _ <-]. apply sortedResult_sorted.
Qed.

(** Scenario S1. *)
Lemma search_results_newest_first_witness :
  match search (C := Scenario.collaborators) Scenario.facade "alpha beta" Scenario.mails 0
          (Some 10) with
  | (_, Resolved result) => Sorted (newerEq (C := Scenario.collaborators)) (map snd (results result))
  | (_, Rejected _) => False
  end.
Proof.
  destruct (search (C := Scenario.collaborators) Scenario.facade "alpha beta" Scenario.mails 0
              (Some 10)) as [this' [result|e]] eqn:E.
  - assert (H : length (tokenize (Collaborators := Scenario.collaborators) "alpha beta")
                <> 1%nat \/ 0 <= 0
                \/ findSuggestionFacade (C := Scenario.collaborators) Scenario.facade
                     Scenario.mails = None) by (right; left; lia).
    exact (search_results_newest_first scenario_idOrder Scenario.facade "alpha beta"
             Scenario.mails (Some 10) H E).
  - vm_compute in E. discriminate E.
Defined.

(** * Further properties *)

(** ** The assembler *)

Section Assembler.

Context {C : Collaborators}.

Local Abbreviation Restriction := (SearchRestriction Id TypeRef).
Local Abbreviation Result := (SearchResult Id TypeRef).
Local Abbreviation Facade := (SearchFacade Id TypeRef).
Local Abbreviation Entry := (SearchIndexEntry Id).

Lemma firstn_NoDup (A : Type) (n : nat) (l : list A) : NoDup l -> NoDup (firstn n l).
Proof.
  intros H. rewrite <- (firstn_skipn n l) in H. now apply NoDup_app_remove_r in H.
Qed.

Lemma map_firstn (A B : Type) (f : A -> B) (n : nat) (l : list A) :
  map f (firstn n l) = firstn n (map f l).
Proof. revert n. induction l; intros [|n]; simpl; congruence. Qed.

Lemma slice0_In (A : Type) (l : list A) (e : Z) (x : A) : In x (slice0 l e) -> In x l.
Proof.
  unfold slice0. destruct (e <? 0); intros H.
  - rewrite <- (firstn_skipn (Z.to_nat (Z.of_nat (length l) + e)) l).
    apply in_or_app. now left.
  - rewrite <- (firstn_skipn (Z.to_nat e) l). apply in_or_app. now left.
Qed.

Lemma slice0_NoDup_map (A B : Type) (f : A -> B) (l : list A) (e : Z) :
  NoDup (map f l) -> NoDup (map f (slice0 l e)).
Proof.
  unfold slice0. destruct (e <? 0); rewrite map_firstn; apply firstn_NoDup.
Qed.

(** *** What a page does to the results *)

Lemma uniqueElementIdsFrom_previous (a b : Result) (l : list Entry) :
  results a = results b ->
  forall seen, uniqueElementIdsFrom seen a l = uniqueElementIdsFrom seen b l.
Proof.
  intros H. induction l as [|x l IH]; intros seen; simpl; [reflexivity|].
  rewrite H. destruct (_ && _); now rewrite IH.
Qed.

Lemma reduceIndexEntries_cursor (this : Facade) (sr : Result) rows ks :
  reduceIndexEntries this (set_lastReadSearchIndexRow sr rows) ks
  = reduceIndexEntries this sr ks.
Proof.
  unfold reduceIndexEntries. simpl.
  destruct (_reduceWords _ _); simpl; [|reflexivity].
  unfold _reduceToUniqueElementIds. f_equal. now apply uniqueElementIdsFrom_previous.
Qed.

(** Either the page fails before the assembler runs, with a [TypeError] and
    the results untouched, or it resolves and the results are what the
    assembler makes of the unique entries. *)
Lemma startOrContinueSearch_cases (this : Facade) (sr : Result) m :
  (snd (_startOrContinueSearch this sr m) = Rejected TypeError
   /\ results (fst (_startOrContinueSearch this sr m)) = results sr)
  \/ exists ks u,
       mapInCallContext
         (fun row => snd (_findEntriesForSearchToken this (restriction sr) m row))
         (lastReadSearchIndexRow sr) = Resolved ks
       /\ reduceIndexEntries this sr ks = Resolved u
       /\ snd (_startOrContinueSearch this sr m) = Resolved tt
       /\ results (fst (_startOrContinueSearch this sr m))
          = groupSearchResults this (restriction sr) m
              (slice0 (sortBy (fun l r => compareNewestFirst (id l) (id r)) u)
                 (sliceEnd m
                    (length (sortBy (fun l r => compareNewestFirst (id l) (id r)) u))))
              (results sr).
Proof.
  unfold _startOrContinueSearch.
  destruct (findIndexEntries_shape this sr m) as [rows ->].
  destruct (mapInCallContext _ (lastReadSearchIndexRow sr)) as [ks|e] eqn:Hks; simpl.
  - rewrite reduceIndexEntries_cursor.
    destruct (reduceIndexEntries this sr ks) as [u|e] eqn:Hu.
    + right. exists ks, u.
      split; [reflexivity|]. split; [exact Hu|]. split; reflexivity.
    + left. split; [|reflexivity].
      assert (He : e = TypeError).
      { unfold reduceIndexEntries in Hu.
        destruct (_filterByTypeAndAttributeAndTime _ _ _) as [|h t]; simpl in Hu;
          [congruence|].
        destruct (matchWordOrder sr); discriminate. }
      now subst e.
  - left. split; [|reflexivity].
    enough (He : e = TypeError) by now subst e.
    assert (Hall : forall rows e,
               mapInCallContext
                 (fun row => snd (_findEntriesForSearchToken this (restriction sr) m row))
                 rows = Rejected e -> e = TypeError).
    { induction rows0 as [|row rows0 IH]; intros e0; simpl; [discriminate|].
      destruct (snd (_findEntriesForSearchToken this (restriction sr) m row)) as [k|e1] eqn:E1;
        simpl.
      - destruct (mapInCallContext _ rows0) as [ks0|e2]; simpl; [discriminate|].
        intros [= <-]. now apply IH.
      - intros [= <-]. now apply findEntriesForSearchToken_error in E1. }
    now apply (Hall _ _ Hks).
Qed.

Lemma reduceIndexEntries_unique (this : Facade) (sr : Result) ks u :
  reduceIndexEntries this sr ks = Resolved u ->
  NoDup (map (@id Id) u)
  /\ forall e, In e u -> ~ In (id e) (map snd (results sr)).
Proof.
  unfold reduceIndexEntries.
  destruct (_reduceWords _ _) as [l|e]; simpl; [|discriminate].
  intros [= <-]. unfold _reduceToUniqueElementIds. split.
  - apply uniqueElementIdsFrom_NoDup.
  - intros e He Hin.
    assert (H : In (id e) (map (@id Id) (uniqueElementIdsFrom [] sr l)))
      by now apply in_map.
    apply uniqueElementIdsFrom_ids in H as (_ & _ & H). contradiction.
Qed.

Lemma startOrContinueSearch_appends (this : Facade) (sr : Result) m :
  exists added,
    results (fst (_startOrContinueSearch this sr m)) = results sr ++ added
    /\ NoDup (map snd added)
    /\ forall t, In t added -> ~ In (snd t) (map snd (results sr)).
Proof.
  destruct (startOrContinueSearch_cases this sr m) as [[_ ->]|(ks & u & _ & Hu & _ & ->)].
  - exists []. split; [now rewrite app_nil_r|]. split; [constructor|intros t []].
  - destruct (reduceIndexEntries_unique _ _ _ Hu) as [Hnd Hnew].
    set (sliced := slice0 _ _).
    destruct (groupSearchResults_appends this (restriction sr) m sliced (results sr))
      as (added & Heq & Hadded).
    exists added. split; [exact Heq|]. split.
    + refine (@groupSearchResults_added_NoDup C this (restriction sr) m sliced _
                (results sr) added Heq).
      apply slice0_NoDup_map.
      rewrite (sortBy_map (@id Id) compareNewestFirst).
      eapply Permutation_NoDup; [apply sortBy_perm|exact Hnd].
    + intros t Ht. destruct (Hadded t Ht) as (e & He & -> & _).
      apply Hnew. apply slice0_In in He.
      eapply Permutation_in; [symmetry; apply sortBy_perm|exact He].
Qed.

End Assembler.

(** X3.  A page of [getMoreSearchResults] only appends to [results]: the
    results it starts with stay where they are, and the ids it adds are
    pairwise different and different from every id already there. *)
Theorem getMoreSearchResults_appends :
  forall (C : Collaborators) (this : SearchFacade Id TypeRef)
         (searchResult : SearchResult Id TypeRef) (moreResultCount : Z),
    exists added,
      results (fst (getMoreSearchResults this searchResult moreResultCount))
      = results searchResult ++ added
      /\ NoDup (map snd added)
      /\ forall t, In t added -> ~ In (snd t) (map snd (results searchResult)).
Proof.
  intros C this sr m. apply startOrContinueSearch_appends.
Qed.

(** X4.  With a count other than 0, a page never makes [results] longer than
    the count plus four, unless it was longer already: the mapper tests the
    count when it is called, up to five lookups are in flight at a time, and
    each of them may still push a result; so the count itself can be
    exceeded.  A page with a count above 0 adds at most that many results. *)
Theorem getMoreSearchResults_bound :
  forall (C : Collaborators) (this : SearchFacade Id TypeRef)
         (searchResult : SearchResult Id TypeRef) (moreResultCount : Z),
    moreResultCount <> 0 ->
    Z.of_nat (length (results (fst (getMoreSearchResults this searchResult moreResultCount))))
    <= Z.max (Z.of_nat (length (results searchResult))) (moreResultCount + 4)
    /\ (0 < moreResultCount ->
        Z.of_nat
          (length (results (fst (getMoreSearchResults this searchResult moreResultCount))))
        <= Z.of_nat (length (results searchResult)) + moreResultCount).
Proof.
  intros C this sr m Hm. unfold getMoreSearchResults.
  destruct (startOrContinueSearch_cases this sr (Some m)) as [[_ ->]|(ks & u & _ & _ & _ & ->)].
  - split; lia.
  - split; [now apply groupSearchResults_length|]. intros Hpos.
    set (sorted := sortBy (fun l r => compareNewestFirst (id l) (id r)) u).
    pose proof (groupSearchResults_added_length this (restriction sr) (Some m)
                  (slice0 sorted (sliceEnd (Some m) (length sorted))) (results sr)) as H.
    assert (Hslice : (length (slice0 sorted (sliceEnd (Some m) (length sorted)))
                      <= Z.to_nat m)%nat).
    { unfold sliceEnd, truthyZ, slice0.
      replace (negb (m =? 0)) with true by (symmetry; apply negb_true_iff, Z.eqb_neq; exact Hm).
      replace (m <? 0) with false by (symmetry; apply Z.ltb_ge; lia).
      apply firstn_le_length. }
    lia.
Qed.

(** The search for [alpha] with one result wanted, a page of two that finds
    the cursor at the end, and a second page of two: both of its lookups
    are asked for while [results] holds one tuple, and it ends with
    three. *)
Lemma getMoreSearchResults_bound_witness :
  match search (C := Scenario.collaborators) Scenario.facade "alpha" Scenario.mails 0
          (Some 1) with
  | (_, Resolved result) =>
      let page := laterPages (C := Scenario.collaborators) [(Scenario.facade, 2)] result in
      map snd (results page) = [100%N]
      /\ map snd (results (fst (getMoreSearchResults (C := Scenario.collaborators)
                                  Scenario.facade page 2)))
         = [100%N; 90%N; 80%N]
      /\ Z.of_nat (length (results (fst (getMoreSearchResults (C := Scenario.collaborators)
                                           Scenario.facade page 2))))
         <= Z.max (Z.of_nat (length (results page))) (2 + 4)
  | (_, Rejected _) => False
  end.
Proof.
  destruct (search (C := Scenario.collaborators) Scenario.facade "alpha" Scenario.mails 0
              (Some 1)) as [this' [result|e]] eqn:E.
  - cbv zeta. split; [|split].
    + vm_compute in E. injection E as _ <-. reflexivity.
    + vm_compute in E. injection E as _ <-. reflexivity.
    + apply (@getMoreSearchResults_bound Scenario.collaborators Scenario.facade
               (laterPages (C := Scenario.collaborators) [(Scenario.facade, 2)] result) 2).
      discriminate.
  - vm_compute in E. discriminate E.
Defined.

(** ** Results of a search and of its pages *)

Section SearchResults.

Context {C : Collaborators}.

Local Abbreviation Restriction := (SearchRestriction Id TypeRef).
Local Abbreviation Result := (SearchResult Id TypeRef).
Local Abbreviation Facade := (SearchFacade Id TypeRef).

Lemma startOrContinueSearch_NoDup (this : Facade) (sr : Result) m :
  NoDup (map snd (results sr)) ->
  NoDup (map snd (results (fst (_startOrContinueSearch this sr m)))).
Proof.
  intros H. destruct (startOrContinueSearch_appends this sr m) as (added & -> & Hnd & Hnew).
  rewrite map_app. apply NoDup_app; [assumption|assumption|].
  intros i Hi Hin. apply in_map_iff in Hin as (t & <- & Ht). now apply (Hnew t Ht).
Qed.

Lemma searchForTokens_NoDup (this : Facade) (sr : Result) suggestions m :
  NoDup (map snd (results sr)) ->
  NoDup (map snd (results (fst (snd (_searchForTokens this sr suggestions m))))).
Proof.
  intros H. unfold _searchForTokens.
  destruct (_tryExtendIndex this (restriction sr)) as [this' [u|e]]; simpl; [|assumption].
  now apply startOrContinueSearch_NoDup.
Qed.

Lemma sortedResult_NoDup (sr : Result) :
  NoDup (map snd (results sr)) -> NoDup (map snd (results (sortedResult sr))).
Proof.
  intros H. simpl. eapply Permutation_NoDup; [|exact H].
  apply Permutation_map, sortBy_perm.
Qed.

Lemma filter_keeps_distinct (V K : Type) (keyOf : V -> K) (keep : V -> bool) :
  forall vs : list V, NoDup (map keyOf vs) -> NoDup (map keyOf (filter keep vs)).
Proof.
  intros vs Hnd. induction vs as [|v vs IH]; [constructor|].
  simpl in Hnd. apply NoDup_cons_iff in Hnd as [Hv Hvs]. simpl.
  destruct (keep v); [simpl|now apply IH].
  apply NoDup_cons_iff. split; [|now apply IH].
  rewrite in_map_iff. intros (w & Hw & Hin). apply Hv.
  apply filter_In in Hin as [Hin _]. rewrite <- Hw. now apply in_map.
Qed.

(** What [_loadAndReduce] resolves with is an initial part of the candidates
    that pass some test, at most [minSuggestionCount] of them. *)
Lemma loadAndReduce_resolved_shape (this : Facade) (r : Restriction) candidates token msc
  final :
  snd (_loadAndReduce this r candidates token msc) = Resolved final ->
  exists p, final = firstn (Z.to_nat msc) (filter p candidates).
Proof.
  unfold _loadAndReduce. destruct candidates as [|c candidates].
  - simpl. intros [= <-]. exists (fun _ => true). now destruct (Z.to_nat msc).
  - change (0 <? length (c :: candidates))%nat with true. cbv iota.
    destruct (resolveTypeReference (rtype r)) as [model|e]; [|discriminate].
    intros H. exists (passesPrefixCheck this r model token).
    apply loadAndReduceFrom_resolved in H; [exact H|simpl; lia].
Qed.

(** The result of the branch with a suggestion word, in terms of the result
    of the search over the other words. *)
Lemma searchWithSuggestionToken_results (this this' : Facade) (result res : Result) msc :
  searchWithSuggestionToken this result msc = (this', Resolved res) ->
  exists row rows p,
    pop (lastReadSearchIndexRow result) = (Some row, rows)
    /\ results res
       = sortBy compareTuplesNewestFirst
           (firstn (Z.to_nat msc)
              (filter p
                 (sortBy compareTuplesNewestFirst
                    (results
                       (fst (snd (_searchForTokens this
                                    (set_lastReadSearchIndexRow result rows)
                                    [fst row] None))))))).
Proof.
  unfold searchWithSuggestionToken.
  destruct (pop (lastReadSearchIndexRow result)) as [[row|] rows]; [|discriminate].
  destruct (_searchForTokens this _ [fst row] None) as [t [result1 [u|e]]] eqn:S; simpl;
    [|discriminate].
  destruct (snd (_loadAndReduce _ _ _ _ _)) as [filtered|e] eqn:L; simpl; [|discriminate].
  intros [= _ <-]. apply loadAndReduce_resolved_shape in L as [p ->].
  exists row, rows, p. split; [reflexivity|]. rewrite S. reflexivity.
Qed.

Lemma search_resolved_NoDup (this this' : Facade) q (r : Restriction) msc m res :
  search this q r msc m = (this', Resolved res) -> NoDup (map snd (results res)).
Proof.
  unfold search.
  destruct (0 <? length (tokenize q))%nat; [|intros [= _ <-]; constructor].
  assert (Hall : searchAllTokens this (initialResult this q r (tokenize q)) m
                 = (this', Resolved res) -> NoDup (map snd (results res))).
  { unfold searchAllTokens.
    pose proof (searchForTokens_NoDup this (initialResult this q r (tokenize q)) [] m
                  (NoDup_nil _)) as H.
    destruct (_searchForTokens this _ [] m) as [t [result' [u|e]]]; simpl in *;
      [|discriminate].
    intros [= _ <-]. now apply sortedResult_NoDup. }
  destruct (findSuggestionFacade this r) as [sf|]; [|exact Hall].
  destruct ((msc >? 0) && (length (tokenize q) =? 1)%nat).
  - unfold searchFirstWord.
    pose proof (searchForTokens_NoDup this (initialResult this q r (tokenize q))
                  (getSuggestions sf (hd EmptyString (tokenize q))) m (NoDup_nil _)) as H.
    destruct (_searchForTokens this _ _ m) as [t [result' [u|e]]]; simpl in *;
      [|discriminate].
    now intros [= _ <-].
  - destruct ((msc >? 0) && negb (length (tokenize q) =? 1)%nat); [|exact Hall].
    intros H. apply searchWithSuggestionToken_results in H as (row & rows & p & _ & ->).
    eapply Permutation_NoDup; [apply Permutation_map, sortBy_perm|].
    rewrite map_firstn. apply firstn_NoDup, filter_keeps_distinct.
    eapply Permutation_NoDup; [apply Permutation_map, sortBy_perm|].
    apply searchForTokens_NoDup. constructor.
Qed.

(** An error a page or a search over all words can fail with. *)
Lemma startOrContinueSearch_error (this : Facade) (sr : Result) m e :
  snd (_startOrContinueSearch this sr m) = Rejected e -> e = TypeError.
Proof.
  destruct (startOrContinueSearch_cases this sr m) as [[-> _]|(ks & u & _ & _ & -> & _)].
  - now intros [= <-].
  - discriminate.
Qed.

Lemma tryExtendIndex_not_cancelled (this : Facade) (r : Restriction) :
  snd (_tryExtendIndex this r) <> Rejected CancelledError.
Proof.
  assert (Hc : forall p, catchCancelled p <> Rejected CancelledError).
  { intros [u|[]]; simpl; discriminate. }
  unfold _tryExtendIndex.
  destruct (isSameTypeRef MailTypeRef (rtype r)); [|discriminate].
  destruct (awaitMailboxIndexing this) as [this1 [u|e]].
  - destruct (end_ r) as [e|]; [|discriminate].
    destruct (_ && _); [|discriminate].
    destruct (awaitMailboxIndexing _) as [this3 p3]. apply Hc.
  - apply (Hc (Rejected e)).
Qed.

Lemma tryExtendIndex_other_type (this : Facade) (r : Restriction) :
  isSameTypeRef MailTypeRef (rtype r) = false ->
  _tryExtendIndex this r = (this, Resolved tt).
Proof. intros H. unfold _tryExtendIndex. now rewrite H. Qed.

End SearchResults.

(** X5.  The results of a search never hold an id twice, and no later page
    changes that. *)
Theorem search_results_distinct_ids :
  forall (C : Collaborators) (this this' : SearchFacade Id TypeRef) (q : string)
         (r : SearchRestriction Id TypeRef) (minSuggestionCount : Z) (maxResults : option Z)
         (result : SearchResult Id TypeRef) (pages : list (SearchFacade Id TypeRef * Z)),
    search this q r minSuggestionCount maxResults = (this', Resolved result) ->
    NoDup (map snd (results (laterPages pages result))).
Proof.
  intros C this this' q r msc m result pages H.
  apply search_resolved_NoDup in H. unfold laterPages.
  revert result H. induction pages as [|page pages IH]; intros result H; [exact H|].
  simpl. apply IH. now apply startOrContinueSearch_NoDup.
Qed.

(** Scenario S3 with three further pages of three. *)
Lemma search_results_distinct_ids_witness :
  match search (C := Scenario.collaborators) Scenario.facade "alpha" Scenario.mails 0
          (Some 2) with
  | (_, Resolved result) =>
      NoDup (map snd (results (laterPages (C := Scenario.collaborators)
                                 [(Scenario.facade, 3); (Scenario.facade, 3);
                                  (Scenario.facade, 3)] result)))
  | (_, Rejected _) => False
  end.
Proof.
  destruct (search (C := Scenario.collaborators) Scenario.facade "alpha" Scenario.mails 0
              (Some 2)) as [this' [result|e]] eqn:E.
  - exact (@search_results_distinct_ids Scenario.collaborators Scenario.facade this'
             "alpha"%string Scenario.mails 0 (Some 2) result _ E).
  - vm_compute in E. discriminate E.
Defined.

(** X6.  A search that uses its last word as suggestion word (suggestions
    wanted, several words, a suggestion facade for the type) resolves with
    at most [minSuggestionCount] results, whatever [maxResults] is. *)
Theorem suggestion_search_bound :
  forall (C : Collaborators) (this this' : SearchFacade Id TypeRef) (q : string)
         (r : SearchRestriction Id TypeRef) (minSuggestionCount : Z) (maxResults : option Z)
         (result : SearchResult Id TypeRef),
    minSuggestionCount > 0 ->
    (2 <= length (tokenize q))%nat ->
    findSuggestionFacade this r <> None ->
    search this q r minSuggestionCount maxResults = (this', Resolved result) ->
    Z.of_nat (length (results result)) <= minSuggestionCount.
Proof.
  intros C this this' q r msc m result Hmsc Hlen Hsf H.
  rewrite (search_with_suggestion_token this q r m Hmsc Hlen Hsf) in H.
  apply searchWithSuggestionToken_results in H as (row & rows & p & _ & ->).
  rewrite <- (Permutation_length (sortBy_perm _ _)).
  pose proof (firstn_le_length (Z.to_nat msc)
                (filter p (sortBy compareTuplesNewestFirst
                             (results (fst (snd (_searchForTokens this
                                (set_lastReadSearchIndexRow
                                   (initialResult this q r (tokenize q)) rows)
                                [fst row] None))))))) as Hle.
  lia.
Qed.

(** The query [ann be] on contacts with five suggestions wanted. *)
Lemma suggestion_search_bound_witness :
  match search (C := Scenario.collaborators) Scenario.facade "ann be" Scenario.contacts 5
          None with
  | (_, Resolved result) => Z.of_nat (length (results result)) <= 5
  | (_, Rejected _) => False
  end.
Proof.
  destruct (search (C := Scenario.collaborators) Scenario.facade "ann be" Scenario.contacts 5
              None) as [this' [result|e]] eqn:E.
  - assert (H5 : 5 > 0) by lia.
    assert (Hlen : (2 <= length (tokenize (Collaborators := Scenario.collaborators)
                                   "ann be"))%nat) by (vm_compute; lia).
    assert (Hsf : findSuggestionFacade (C := Scenario.collaborators) Scenario.facade
                    Scenario.contacts <> None) by (vm_compute; discriminate).
    exact (@suggestion_search_bound Scenario.collaborators Scenario.facade this'
             "ann be"%string Scenario.contacts 5 None result H5 Hlen Hsf E).
  - vm_compute in E. discriminate E.
Defined.

(** ** The request a result belongs to *)

(** X7.  The result of a search repeats the query and the restriction it was
    called with, and its [currentIndexTimestamp] is the end timestamp read
    from the facade as it was when [search] was called, before any extension
    of the index; later pages change none of the three, nor the word-order
    flag. *)
Theorem search_result_request :
  forall (C : Collaborators) (this this' : SearchFacade Id TypeRef) (q : string)
         (r : SearchRestriction Id TypeRef) (minSuggestionCount : Z) (maxResults : option Z)
         (result : SearchResult Id TypeRef) (pages : list (SearchFacade Id TypeRef * Z)),
    search this q r minSuggestionCount maxResults = (this', Resolved result) ->
    query (laterPages pages result) = q
    /\ restriction (laterPages pages result) = r
    /\ currentIndexTimestamp (laterPages pages result) = _getSearchEndTimestamp this r
    /\ matchWordOrder (laterPages pages result) = matchWordOrder result.
Proof.
  intros C this this' q r msc m result pages H.
  destruct (laterPages_sameRequest pages result) as (-> & -> & -> & _ & -> & _).
  enough (Hinit : query result = q /\ restriction result = r
                  /\ currentIndexTimestamp result = _getSearchEndTimestamp this r)
    by tauto.
  revert H. unfold search.
  destruct (0 <? length (tokenize q))%nat; [|intros [= _ <-]; now repeat split].
  destruct (findSuggestionFacade this r) as [sf|].
  - destruct ((msc >? 0) && (length (tokenize q) =? 1)%nat).
    + intros H. apply searchFirstWord_resolved in H as (-> & -> & -> & _). now repeat split.
    + destruct ((msc >? 0) && negb (length (tokenize q) =? 1)%nat).
      * intros H. apply searchWithSuggestionToken_resolved in H as (-> & -> & -> & _).
        now repeat split.
      * intros H. apply searchAllTokens_resolved in H as (-> & -> & -> & _).
        now repeat split.
  - intros H. apply searchAllTokens_resolved in H as (-> & -> & -> & _). now repeat split.
Qed.

(** Scenario S3 and one further page. *)
Lemma search_result_request_witness :
  match search (C := Scenario.collaborators) Scenario.facade "alpha" Scenario.mails 0
          (Some 2) with
  | (_, Resolved result) =>
      query (laterPages (C := Scenario.collaborators) [(Scenario.facade, 2)] result)
      = "alpha"%string
  | (_, Rejected _) => False
  end.
Proof.
  destruct (search (C := Scenario.collaborators) Scenario.facade "alpha" Scenario.mails 0
              (Some 2)) as [this' [result|e]] eqn:E.
  - exact (proj1 (@search_result_request Scenario.collaborators Scenario.facade this'
                    "alpha"%string Scenario.mails 0 (Some 2) result _ E)).
  - vm_compute in E. discriminate E.
Defined.

(** ** A query without search words *)

(** X8.  When the tokenizer finds no word in the query, [search] resolves at
    once with no results and no cursor rows, leaving the facade as it is.
    Asking for more results of such a result is an error: a page over no
    cursor rows rejects with a [TypeError] and leaves the results alone. *)
Theorem search_without_words :
  forall (C : Collaborators) (this : SearchFacade Id TypeRef) (q : string)
         (r : SearchRestriction Id TypeRef) (minSuggestionCount : Z) (maxResults : option Z),
    tokenize q = [] ->
    search this q r minSuggestionCount maxResults
      = (this, Resolved (initialResult this q r []))
    /\ results (initialResult this q r []) = []
    /\ lastReadSearchIndexRow (initialResult this q r []) = []
    /\ forall (facade : SearchFacade Id TypeRef) (searchResult : SearchResult Id TypeRef)
              (moreResultCount : Z),
         lastReadSearchIndexRow searchResult = [] ->
         snd (getMoreSearchResults facade searchResult moreResultCount) = Rejected TypeError
         /\ results (fst (getMoreSearchResults facade searchResult moreResultCount))
            = results searchResult.
Proof.
  intros C this q r msc m Hq. split; [|split; [reflexivity|split; [reflexivity|]]].
  - unfold search. now rewrite Hq.
  - intros facade sr k Hrows. unfold getMoreSearchResults, _startOrContinueSearch,
      _findIndexEntries. rewrite Hrows. simpl. now split.
Qed.

(** The empty query on the scenario store. *)
Lemma search_without_words_witness :
  search (C := Scenario.collaborators) Scenario.facade EmptyString Scenario.mails 0 (Some 10)
  = (Scenario.facade,
     Resolved (initialResult (C := Scenario.collaborators) Scenario.facade EmptyString
                 Scenario.mails [])).
Proof.
  exact (proj1 (@search_without_words Scenario.collaborators Scenario.facade EmptyString
                  Scenario.mails 0 (Some 10) eq_refl)).
Defined.

(** ** Errors and the indexer *)

(** X9.  A search that does not load entities (no suggestions wanted, or no
    suggestion facade for the type) never rejects with a [CancelledError]: a
    cancelled extension of the index is swallowed.  On a type other than
    mail the indexer is not involved at all and the facade is left as it
    is. *)
Theorem search_all_words_errors :
  forall (C : Collaborators) (this : SearchFacade Id TypeRef) (q : string)
         (r : SearchRestriction Id TypeRef) (minSuggestionCount : Z) (maxResults : option Z),
    minSuggestionCount <= 0 \/ findSuggestionFacade this r = None ->
    snd (search this q r minSuggestionCount maxResults) <> Rejected CancelledError
    /\ (isSameTypeRef MailTypeRef (rtype r) = false ->
        fst (search this q r minSuggestionCount maxResults) = this).
Proof.
  intros C this q r msc m Hplain.
  rewrite (search_without_suggestions _ _ _ _ Hplain).
  destruct (0 <? length (tokenize q))%nat.
  2:{ split; [discriminate|]. intros _. reflexivity. }
  unfold searchAllTokens, _searchForTokens.
  change (restriction (initialResult this q r (tokenize q))) with r.
  split.
  - pose proof (tryExtendIndex_not_cancelled this r) as Hc.
    destruct (_tryExtendIndex this r) as [this' [u|e]]; simpl in *; [|congruence].
    destruct (_startOrContinueSearch this' _ m) as [sr' [u'|e]] eqn:S; simpl;
      [discriminate|].
    pose proof (startOrContinueSearch_error this' (initialResult this q r (tokenize q)) m) as He.
    rewrite S in He. simpl in He. rewrite (He e eq_refl). discriminate.
  - intros Hother. rewrite (tryExtendIndex_other_type this r Hother).
    now destruct (_startOrContinueSearch this _ m) as [sr' [u'|e]].
Qed.

(** The search for [food] on contacts. *)
Lemma search_all_words_errors_witness :
  snd (search (C := Scenario.collaborators) Scenario.facade "food" Scenario.contacts 0
         (Some 10)) <> Rejected CancelledError
  /\ fst (search (C := Scenario.collaborators) Scenario.facade "food" Scenario.contacts 0
            (Some 10)) = Scenario.facade.
Proof.
  assert (H0 : 0 <= 0 \/ findSuggestionFacade (C := Scenario.collaborators) Scenario.facade
                          Scenario.contacts = None) by (left; lia).
  destruct (@search_all_words_errors Scenario.collaborators Scenario.facade "food"%string
              Scenario.contacts 0 (Some 10) H0) as [Hc Hother].
  split; [exact Hc|]. apply Hother. reflexivity.
Defined.

(** ** Every result matches every search word *)

Section AllWords.

Context {C : Collaborators}.

Local Abbreviation Restriction := (SearchRestriction Id TypeRef).
Local Abbreviation Result := (SearchResult Id TypeRef).
Local Abbreviation Facade := (SearchFacade Id TypeRef).
Local Abbreviation Entry := (SearchIndexEntry Id).

Lemma mapInCallContext_Forall2 (A B : Type) (f : A -> Promise B) (l : list A) :
  forall ys, mapInCallContext f l = Resolved ys ->
             Forall2 (fun x y => f x = Resolved y) l ys.
Proof.
  induction l as [|x l IH]; intros ys; simpl.
  - intros [= <-]. constructor.
  - destruct (f x) as [y|e] eqn:Fx; simpl; [|discriminate].
    destruct (mapInCallContext f l) as [ys'|e]; simpl; [|discriminate].
    intros [= <-]. constructor; [assumption|now apply IH].
Qed.

Lemma Forall2_In_l (A B : Type) (P : A -> B -> Prop) (l1 : list A) (l2 : list B) (x : A) :
  Forall2 P l1 l2 -> In x l1 -> exists y, In y l2 /\ P x y.
Proof.
  induction 1 as [|a b l1 l2 Hab HF IH]; intros Hin; [contradiction|].
  destruct Hin as [<-|Hin].
  - exists b. split; [now left|assumption].
  - destruct (IH Hin) as (y & Hy & Hp). exists y. split; [now right|assumption].
Qed.

Lemma Forall2_In_r (A B : Type) (P : A -> B -> Prop) (l1 : list A) (l2 : list B) (y : B) :
  Forall2 P l1 l2 -> In y l2 -> exists x, In x l1 /\ P x y.
Proof.
  induction 1 as [|a b l1 l2 Hab HF IH]; intros Hin; [contradiction|].
  destruct Hin as [<-|Hin].
  - exists a. split; [now left|assumption].
  - destruct (IH Hin) as (x & Hx & Hp). exists x. split; [now right|assumption].
Qed.

(** The entries with hash are the slots, none of them a hole. *)
Lemma withIdHash_slots (slots : list (option bytes)) :
  forall xs, mapInCallContext withIdHash slots = Resolved xs ->
             slots = map (fun x => Some (encEntry x)) xs
             /\ forall x, In x xs ->
                          idHash x = arrayHash (getIdFromEncSearchIndexEntry (encEntry x)).
Proof.
  induction slots as [|[b|] slots IH]; intros xs; simpl.
  - intros [= <-]. now split.
  - destruct (mapInCallContext withIdHash slots) as [xs'|e]; simpl; [|discriminate].
    intros [= <-]. destruct (IH xs' eq_refl) as [-> Hh]. split; [reflexivity|].
    intros x [<-|Hx]; [reflexivity|now apply Hh].
  - discriminate.
Qed.

Lemma findEntriesForSearchToken_resolved (this : Facade) (r : Restriction) m row k :
  snd (_findEntriesForSearchToken this r m row) = Resolved k ->
  slotsRead this r m row = map (fun x => Some (encEntry x)) (e_indexEntries k)
  /\ forall x, In x (e_indexEntries k) ->
               idHash x = arrayHash (getIdFromEncSearchIndexEntry (encEntry x)).
Proof.
  unfold _findEntriesForSearchToken, slotsRead, rowsToRead. destruct row as [token fromRow].
  simpl. destruct (selectRowsToRead _ _ _ _ _) as [toRead lastRead]. simpl.
  destruct (mapInCallContext withIdHash _) as [xs|e] eqn:E; simpl; [|discriminate].
  intros [= <-]. simpl. now apply withIdHash_slots.
Qed.

Lemma postingsRead_In (this : Facade) (r : Restriction) m row k x :
  snd (_findEntriesForSearchToken this r m row) = Resolved k ->
  In x (e_indexEntries k) ->
  In (decryptSearchIndexEntry (encEntry x)) (postingsRead this r m row).
Proof.
  intros H Hx. apply findEntriesForSearchToken_resolved in H as [H _].
  unfold postingsRead. rewrite H. apply in_flat_map.
  exists (Some (encEntry x)). split; [|now left].
  apply in_map_iff. now exists x.
Qed.

Lemma postingsRead_inv (this : Facade) (r : Restriction) m row k e :
  snd (_findEntriesForSearchToken this r m row) = Resolved k ->
  In e (postingsRead this r m row) ->
  exists x, In x (e_indexEntries k) /\ e = decryptSearchIndexEntry (encEntry x).
Proof.
  intros H He. apply findEntriesForSearchToken_resolved in H as [H _].
  unfold postingsRead in He. rewrite H in He. apply in_flat_map in He as (slot & Hs & He).
  apply in_map_iff in Hs as (x & <- & Hx). destruct He as [<-|[]]. now exists x.
Qed.

(** An entry the filter leaves for one word has, for every word, an accepted
    entry with the same id among the entries that went in. *)
Lemma filterByTypeAndAttributeAndTime_all_words (this : Facade) (restriction : Restriction)
  (rs : list (KeyToIndexEntries Id)) t e :
  In t (_filterByTypeAndAttributeAndTime this rs restriction) ->
  In e (indexEntries t) ->
  forall d, In d rs ->
            exists e', In e' (indexEntries d) /\ id e' = id e
                       /\ acceptsEntry this restriction e' = true.
Proof.
  unfold _filterByTypeAndAttributeAndTime.
  set (first := fun result : KeyToIndexEntries Id =>
                  {| indexKey := indexKey result;
                     indexEntries := filter (acceptsEntry this restriction)
                                       (indexEntries result) |}).
  intros Ht He d Hd.
  apply in_map_iff in Ht as (r1 & <- & Hr1). simpl in He.
  apply filter_In in He as [_ HM].
  pose proof (proj1 (hasKey_matchingKeysOf Id_eqb (@id Id) (@indexEntries Id) Id_eqb_eq
                       (map first rs) (id e)) HM) as [_ Hall].
  specialize (Hall (first d) (in_map first rs d Hd)).
  apply in_map_iff in Hall as (e' & E' & He'). simpl in He'.
  apply filter_In in He' as [He' Hacc]. now exists e'.
Qed.

Lemma reduceWords_In (T : list (KeyToIndexEntries Id)) mwo l e :
  _reduceWords T mwo = Resolved l -> In e l ->
  exists h rest, T = h :: rest /\ In e (indexEntries h).
Proof.
  destruct T as [|h rest]; simpl; [discriminate|].
  destruct mwo; intros [= <-] He.
  - apply filter_In in He as [He _]. now exists h, rest.
  - now exists h, rest.
Qed.

(** The entries a page hands to the assembler. *)
Lemma reduceIndexEntries_sound (this : Facade) (sr : Result) m ks u e :
  mapInCallContext
    (fun row => snd (_findEntriesForSearchToken this (restriction sr) m row))
    (lastReadSearchIndexRow sr) = Resolved ks ->
  reduceIndexEntries this sr ks = Resolved u ->
  In e u ->
  (forall row, In row (lastReadSearchIndexRow sr) ->
               exists e', In e' (postingsRead this (restriction sr) m row)
                          /\ id e' = id e
                          /\ acceptsEntry this (restriction sr) e' = true)
  /\ exists row, In row (lastReadSearchIndexRow sr)
                 /\ In e (postingsRead this (restriction sr) m row).
Proof.
  intros Hks Hu He. apply mapInCallContext_Forall2 in Hks.
  unfold reduceIndexEntries in Hu.
  destruct (_reduceWords _ _) as [l|x] eqn:Hw; simpl in Hu; [|discriminate].
  injection Hu as <-. apply uniqueElementIdsFrom_In in He.
  destruct (reduceWords_In _ _ e Hw He) as (h & rest & HT & Hh).
  assert (Hin : In h (_filterByTypeAndAttributeAndTime this
                        (_decryptSearchResult (_filterByEncryptedId ks)) (restriction sr)))
    by (rewrite HT; now left).
  assert (Hk : forall d, In d (_decryptSearchResult (_filterByEncryptedId ks)) ->
                         exists k, In k ks
                                   /\ forall e0, In e0 (indexEntries d) ->
                                        exists x, In x (e_indexEntries k)
                                                  /\ e0 = decryptSearchIndexEntry (encEntry x)).
  { intros d Hd. unfold _decryptSearchResult, _filterByEncryptedId in Hd.
    apply in_map_iff in Hd as (k' & <- & Hk'). apply in_map_iff in Hk' as (k & <- & Hk).
    exists k. split; [assumption|]. simpl. intros e0 He0.
    apply in_map_iff in He0 as (x & <- & Hx). apply filter_In in Hx as [Hx _]. now exists x. }
  split.
  - intros row Hrow.
    destruct (Forall2_In_l _ Hks Hrow) as (k & Hkin & Hk').
    set (d := {| indexKey := e_indexKey k;
                 indexEntries :=
                   map (fun entry => decryptSearchIndexEntry (encEntry entry))
                     (filter (fun entry => hasZ (matchingEncIdsOf ks) (idHash entry))
                        (e_indexEntries k)) |}).
    assert (Hd : In d (_decryptSearchResult (_filterByEncryptedId ks))).
    { unfold _decryptSearchResult, _filterByEncryptedId. rewrite map_map.
      apply in_map_iff. now exists k. }
    destruct (filterByTypeAndAttributeAndTime_all_words _ _ _ _ _ Hin Hh d Hd)
      as (e' & He' & Hid & Hacc).
    exists e'. split; [|now split]. simpl in He'.
    apply in_map_iff in He' as (x & <- & Hx). apply filter_In in Hx as [Hx _].
    eapply postingsRead_In; eassumption.
  - destruct (filterByTypeAndAttributeAndTime_entries _ _ _ _ _ Hin Hh) as (d & Hd & Hed).
    destruct (Hk d Hd) as (k & Hkin & Hx). destruct (Hx e Hed) as (x & Hxin & ->).
    destruct (Forall2_In_r _ Hks Hkin) as (row & Hrow & Hrk).
    exists row. split; [assumption|]. eapply postingsRead_In; eassumption.
Qed.

(** What a page appends, entry by entry. *)
Lemma startOrContinueSearch_added (this : Facade) (sr : Result) m :
  exists added,
    results (fst (_startOrContinueSearch this sr m)) = results sr ++ added
    /\ forall t, In t added ->
         (forall row, In row (lastReadSearchIndexRow sr) ->
                      exists e, In e (postingsRead this (restriction sr) m row)
                                /\ id e = snd t
                                /\ acceptsEntry this (restriction sr) e = true)
         /\ (exists row e, In row (lastReadSearchIndexRow sr)
                           /\ In e (postingsRead this (restriction sr) m row)
                           /\ id e = snd t
                           /\ storedUnder this (restriction sr) e (fst t))
         /\ ~ In (snd t) (map snd (results sr)).
Proof.
  destruct (startOrContinueSearch_cases this sr m) as [[_ ->]|(ks & u & Hks & Hu & _ & ->)].
  - exists []. split; [now rewrite app_nil_r|intros t []].
  - set (sliced := slice0 _ _).
    destruct (groupSearchResults_appends this (restriction sr) m sliced (results sr))
      as (added & Heq & Hadded).
    exists added. split; [exact Heq|]. intros t Ht.
    destruct (Hadded t Ht) as (e & He & Hid & Hadm).
    assert (Heu : In e u).
    { apply slice0_In in He.
      eapply Permutation_in; [symmetry; apply sortBy_perm|exact He]. }
    destruct (reduceIndexEntries_sound this sr m e Hks Hu Heu) as [Hall (row & Hrow & Hpost)].
    rewrite Hid. split; [exact Hall|]. split.
    + exists row, e. split; [exact Hrow|]. split; [exact Hpost|].
      split; [reflexivity|exact Hadm].
    + destruct (reduceIndexEntries_unique _ _ _ Hu) as [_ Hnew]. now apply Hnew.
Qed.

End AllWords.

(** X10.  A result that a page adds matches every search word of the cursor:
    for each cursor row the page has read, among the index rows it selected
    for that word, an entry with the id of the result that passes the
    attribute and time filter.  One of these entries has element data whose
    list id is the one reported, which is the list the restriction asks for
    if it asks for one; and the id was not among the results before. *)
Theorem page_results_match_every_word :
  forall (C : Collaborators) (this : SearchFacade Id TypeRef)
         (searchResult : SearchResult Id TypeRef) (maxResults : option Z) (l i : Id),
    In (l, i) (results (fst (_startOrContinueSearch this searchResult maxResults))) ->
    ~ In (l, i) (results searchResult) ->
    (forall row, In row (lastReadSearchIndexRow searchResult) ->
                 exists e, In e (postingsRead this (restriction searchResult) maxResults row)
                           /\ id e = i
                           /\ acceptsEntry this (restriction searchResult) e = true)
    /\ (exists row e, In row (lastReadSearchIndexRow searchResult)
                      /\ In e (postingsRead this (restriction searchResult) maxResults row)
                      /\ id e = i
                      /\ storedUnder this (restriction searchResult) e l)
    /\ ~ In i (map snd (results searchResult)).
Proof.
  intros C this sr m l i Hin Hnew.
  destruct (startOrContinueSearch_added this sr m) as (added & Heq & Hadded).
  rewrite Heq in Hin. apply in_app_or in Hin as [Hin|Hin]; [contradiction|].
  exact (Hadded (l, i) Hin).
Qed.

(** X11.  A search word without a metadata row in the index makes the page
    add nothing, whatever the other words match. *)
Theorem page_with_unknown_word :
  forall (C : Collaborators) (this : SearchFacade Id TypeRef)
         (searchResult : SearchResult Id TypeRef) (maxResults : option Z)
         (token : string) (fromRow : option N),
    In (token, fromRow) (lastReadSearchIndexRow searchResult) ->
    SearchIndexMetaDataOS (_db this) (encryptIndexKeyBase64 token) = None ->
    results (fst (_startOrContinueSearch this searchResult maxResults))
    = results searchResult.
Proof.
  intros C this sr m token fromRow Hrow Hmeta.
  destruct (startOrContinueSearch_added this sr m) as (added & -> & Hadded).
  destruct added as [|t added]; [now rewrite app_nil_r|exfalso].
  destruct (Hadded t (or_introl eq_refl)) as (Hall & _).
  destruct (Hall _ Hrow) as (e & He & _).
  unfold postingsRead, slotsRead, rowsToRead, filteredRows in He. simpl in He.
  rewrite Hmeta in He. simpl in He. now destruct (truthyZ m).
Qed.

(** Scenario S1: the page for [alpha beta] adds the element 100. *)
Lemma page_results_match_every_word_witness :
  exists e,
    In e (postingsRead (C := Scenario.collaborators) Scenario.facade Scenario.mails (Some 10)
            ("beta"%string, None))
    /\ id e = 100%N
    /\ acceptsEntry (C := Scenario.collaborators) Scenario.facade Scenario.mails e = true.
Proof.
  set (start := initialResult (C := Scenario.collaborators) Scenario.facade "alpha beta"
                  Scenario.mails ["alpha"; "beta"]%string).
  assert (Hin : In (Scenario.element 100)
                  (results (fst (_startOrContinueSearch (C := Scenario.collaborators)
                                   Scenario.facade start (Some 10)))))
    by (vm_compute; tauto).
  assert (Hnew : ~ In (Scenario.element 100) (results start)) by (simpl; tauto).
  destruct (@page_results_match_every_word Scenario.collaborators Scenario.facade start
              (Some 10) Scenario.L 100%N Hin Hnew) as (Hall & _).
  apply (Hall ("beta"%string, None)). simpl. tauto.
Defined.

(** The page for [alpha zeta]: [zeta] is not in the index. *)
Lemma page_with_unknown_word_witness :
  results (fst (_startOrContinueSearch (C := Scenario.collaborators) Scenario.facade
                  (initialResult (C := Scenario.collaborators) Scenario.facade "alpha zeta"
                     Scenario.mails ["alpha"; "zeta"]%string) (Some 10))) = [].
Proof.
  apply (@page_with_unknown_word Scenario.collaborators Scenario.facade
           (initialResult (C := Scenario.collaborators) Scenario.facade "alpha zeta"
              Scenario.mails ["alpha"; "zeta"]%string) (Some 10) "zeta"%string None).
  - simpl. tauto.
  - reflexivity.
Defined.

(** ** Selecting the index rows of a word *)

Section RowSelection.

Context {C : Collaborators}.

Lemma last_cons_default (A : Type) (x : A) (l : list A) (d d' : A) :
  last (x :: l) d = last (x :: l) d'.
Proof.
  revert x. induction l as [|y l IH]; intros x; [reflexivity|].
  change (last (y :: l) d = last (y :: l) d'). apply IH.
Qed.

Lemma selectRowsToRead_cursor (m : option Z) (fromRow : option N)
  (rows : list SearchIndexMetadataEntry) :
  truthyZ m = true ->
  forall entitiesToRead lastReadRowId,
    snd (selectRowsToRead m fromRow entitiesToRead lastReadRowId rows)
    = last (map key (fst (selectRowsToRead m fromRow entitiesToRead lastReadRowId rows)))
        lastReadRowId.
Proof.
  intros Hm. induction rows as [|r rows IH]; intros e l; [reflexivity|].
  simpl. rewrite Hm. destruct (_ && _).
  - specialize (IH (e + size r)%N (key r)).
    destruct (selectRowsToRead m fromRow (e + size r) (key r) rows) as [sel lastRow].
    simpl in *. rewrite IH. destruct sel as [|s sel]; [reflexivity|].
    change (last (map key (s :: sel)) (key r) = last (map key (s :: sel)) l).
    apply last_cons_default.
  - apply IH.
Qed.

Lemma selectRowsToRead_all (m : option Z) (fromRow : option N)
  (rows : list SearchIndexMetadataEntry) :
  truthyZ m = false ->
  forall entitiesToRead lastReadRowId,
    selectRowsToRead m fromRow entitiesToRead lastReadRowId rows = (rows, lastReadRowId).
Proof.
  intros Hm. induction rows as [|r rows IH]; intros e l; [reflexivity|].
  simpl. rewrite Hm, IH. reflexivity.
Qed.

Lemma selectRowsToRead_work (m : option Z) (fromRow : option N)
  (rows : list SearchIndexMetadataEntry) :
  truthyZ m = true ->
  forall entitiesToRead lastReadRowId,
    fst (selectRowsToRead m fromRow entitiesToRead lastReadRowId rows) <> [] ->
    (entitiesToRead
     + fold_right N.add 0
         (map size
            (removelast (fst (selectRowsToRead m fromRow entitiesToRead lastReadRowId rows))))
     < 1000)%N.
Proof.
  intros Hm. induction rows as [|r rows IH]; intros e l; simpl; [congruence|].
  rewrite Hm. destruct (_ && _) eqn:Hsel.
  - apply andb_true_iff in Hsel as [_ He]. apply N.ltb_lt in He.
    specialize (IH (e + size r)%N (key r)).
    destruct (selectRowsToRead m fromRow (e + size r) (key r) rows) as [sel lastRow].
    simpl in *. intros _. destruct sel as [|s sel]; simpl; [lia|].
    assert (Hne : s :: sel <> []) by discriminate.
    specialize (IH Hne). simpl in IH.
    destruct sel; simpl in *; lia.
  - apply IH.
Qed.

End RowSelection.

(** X12.  The cursor a call of [_findEntriesForSearchToken] leaves for a word
    is, with [maxResults] set, the key of the last descriptor it selected,
    and 0 when it selected none; without [maxResults] the call selects every
    descriptor of the word for the searched type and leaves the cursor 0. *)
Theorem cursor_after_reading :
  forall (C : Collaborators) (this : SearchFacade Id TypeRef)
         (restriction : SearchRestriction Id TypeRef) (maxResults : option Z)
         (searchToken : string) (fromRow : option N),
    fst (_findEntriesForSearchToken this restriction maxResults (searchToken, fromRow))
    = (searchToken,
       Some (if truthyZ maxResults
             then last (map key (rowsToRead this restriction maxResults
                                   (searchToken, fromRow))) 0%N
             else 0%N))
    /\ (truthyZ maxResults = false ->
        rowsToRead this restriction maxResults (searchToken, fromRow)
        = filteredRows this restriction searchToken).
Proof.
  intros C this restriction m token fromRow.
  unfold _findEntriesForSearchToken, rowsToRead. simpl.
  destruct (truthyZ m) eqn:Hm.
  - pose proof (selectRowsToRead_cursor m fromRow (filteredRows this restriction token) Hm
                  0%N 0%N) as H.
    destruct (selectRowsToRead m fromRow 0 0 (filteredRows this restriction token))
      as [sel lastRow].
    simpl in *. split; [now rewrite H|discriminate].
  - rewrite (selectRowsToRead_all m fromRow (filteredRows this restriction token) Hm).
    simpl. now split.
Qed.

(** X13.  With [maxResults] set, the descriptors a call selects for a word,
    the last one left aside, announce fewer than 1000 entries in total: once
    1000 entries are reached no further descriptor is selected. *)
Theorem rows_selected_per_page :
  forall (C : Collaborators) (this : SearchFacade Id TypeRef)
         (restriction : SearchRestriction Id TypeRef) (maxResults : option Z)
         (searchTokenInfo : string * option N),
    truthyZ maxResults = true ->
    (fold_right N.add 0
       (map size (removelast (rowsToRead this restriction maxResults searchTokenInfo)))
     < 1000)%N.
Proof.
  intros C this restriction m info Hm. unfold rowsToRead.
  pose proof (selectRowsToRead_work m (snd info)
                (filteredRows this restriction (fst info)) Hm 0%N 0%N) as H.
  destruct (fst (selectRowsToRead m (snd info) 0 0
                   (filteredRows this restriction (fst info)))) as [|s sel] eqn:E.
  - simpl. lia.
  - assert (Hne : s :: sel <> []) by discriminate. specialize (H Hne). lia.
Qed.

(** Five rows of 250 entries: the fourth row read, of key 12, is where the
    cursor stands after a page; without a limit all five are selected. *)
Lemma cursor_after_reading_witness :
  fst (_findEntriesForSearchToken (C := Scenario.collaborators) LargeWord.facade
         Scenario.mails (Some 10%Z) ("big"%string, None))
  = ("big"%string, Some 12%N)
  /\ rowsToRead (C := Scenario.collaborators) LargeWord.facade Scenario.mails None
       ("big"%string, None)
     = filteredRows (C := Scenario.collaborators) LargeWord.facade Scenario.mails
         "big"%string.
Proof.
  split.
  - exact (proj1 (@cursor_after_reading Scenario.collaborators LargeWord.facade
                    Scenario.mails (Some 10%Z) "big"%string None)).
  - apply (proj2 (@cursor_after_reading Scenario.collaborators LargeWord.facade
                    Scenario.mails None "big"%string None)).
    reflexivity.
Defined.

(** Five rows of 250 entries: four are selected. *)
Lemma rows_selected_per_page_witness :
  map key (rowsToRead (C := Scenario.collaborators) LargeWord.facade Scenario.mails (Some 10%Z)
             ("big"%string, None)) = [15; 14; 13; 12]%N
  /\ (fold_right N.add 0
        (map size (removelast (rowsToRead (C := Scenario.collaborators) LargeWord.facade
                                 Scenario.mails (Some 10%Z) ("big"%string, None))))
      < 1000)%N.
Proof.
  split; [reflexivity|].
  apply (@rows_selected_per_page Scenario.collaborators LargeWord.facade Scenario.mails
           (Some 10%Z) ("big"%string, None)).
  reflexivity.
Defined.

(** ** The hash filter in front of the decryption *)

Section HashFilter.

Context {C : Collaborators}.

Local Abbreviation Restriction := (SearchRestriction Id TypeRef).
Local Abbreviation Facade := (SearchFacade Id TypeRef).
Local Abbreviation Entry := (SearchIndexEntry Id).

Lemma filter_chain (A B : Type) (dec : A -> B) (hf : A -> bool) (acc P Q : B -> bool)
  (l : list A) :
  (forall x, In x l -> acc (dec x) = true -> hf x && P (dec x) = Q (dec x)) ->
  filter P (filter acc (map dec (filter hf l))) = filter Q (filter acc (map dec l)).
Proof.
  induction l as [|x l IH]; intros H; [reflexivity|].
  assert (IH' : filter P (filter acc (map dec (filter hf l)))
                = filter Q (filter acc (map dec l)))
    by (apply IH; intros y Hy; apply H; now right).
  pose proof (H x (or_introl eq_refl)) as Hx.
  simpl. destruct (acc (dec x)) eqn:Ha.
  - specialize (Hx eq_refl). destruct (hf x); simpl.
    + rewrite Ha. simpl. simpl in Hx. rewrite Hx, IH'. reflexivity.
    + simpl in Hx. rewrite <- Hx. exact IH'.
  - destruct (hf x); simpl; [rewrite Ha|]; exact IH'.
Qed.

Lemma sameIdSameHash_spec (ks : list KeyToEncryptedIndexEntries) :
  sameIdSameHash ks = true ->
  forall k1 x1 k2 x2,
    In k1 ks -> In x1 (e_indexEntries k1) ->
    In k2 ks -> In x2 (e_indexEntries k2) ->
    id (decryptSearchIndexEntry (encEntry x1)) = id (decryptSearchIndexEntry (encEntry x2)) ->
    idHash x1 = idHash x2.
Proof.
  intros Hhash k1 x1 k2 x2 Hk1 Hx1 Hk2 Hx2 Hi. unfold sameIdSameHash in Hhash.
  rewrite forallb_forall in Hhash.
  assert (H1 : In x1 (flat_map e_indexEntries ks)) by (apply in_flat_map; eauto).
  assert (H2 : In x2 (flat_map e_indexEntries ks)) by (apply in_flat_map; eauto).
  specialize (Hhash x1 H1). rewrite forallb_forall in Hhash. specialize (Hhash x2 H2).
  rewrite Hi, Id_eqb_refl in Hhash. simpl in Hhash. now apply Z.eqb_eq.
Qed.

Lemma filterByEncryptedId_transparent (this : Facade) (r : Restriction)
  (ks : list KeyToEncryptedIndexEntries) :
  (forall k1 x1 k2 x2,
      In k1 ks -> In x1 (e_indexEntries k1) ->
      In k2 ks -> In x2 (e_indexEntries k2) ->
      id (decryptSearchIndexEntry (encEntry x1)) = id (decryptSearchIndexEntry (encEntry x2)) ->
      idHash x1 = idHash x2) ->
  _filterByTypeAndAttributeAndTime this (_decryptSearchResult (_filterByEncryptedId ks)) r
  = _filterByTypeAndAttributeAndTime this (_decryptSearchResult ks) r.
Proof.
  intros Hsame0.
  unfold _filterByTypeAndAttributeAndTime, _decryptSearchResult, _filterByEncryptedId.
  set (H := matchingEncIdsOf ks).
  set (dec := fun entry : EncryptedSearchIndexEntryWithHash =>
                decryptSearchIndexEntry (encEntry entry)).
  set (hf := fun entry : EncryptedSearchIndexEntryWithHash => hasZ H (idHash entry)).
  set (first := fun result : KeyToIndexEntries Id =>
                  {| indexKey := indexKey result;
                     indexEntries := filter (acceptsEntry this r) (indexEntries result) |}).
  set (decK := fun searchResult : KeyToEncryptedIndexEntries =>
                 {| indexKey := e_indexKey searchResult;
                    indexEntries := map dec (e_indexEntries searchResult) |}).
  set (FH := fun k : KeyToEncryptedIndexEntries =>
               {| e_indexKey := e_indexKey k;
                  e_indexEntries := filter hf (e_indexEntries k) |}).
  set (M' := matchingIdsOf (map first (map decK (map FH ks)))).
  set (M := matchingIdsOf (map first (map decK ks))).
  rewrite !map_map. apply map_ext_in. intros k Hk. simpl. f_equal.
  apply filter_chain. intros x Hx Hacc.
  assert (HM : forall i, hasId M i = true
                         <-> forall k0, In k0 ks ->
                               exists x0, In x0 (e_indexEntries k0)
                                          /\ acceptsEntry this r (dec x0) = true
                                          /\ id (dec x0) = i).
  { intros i. unfold M.
    rewrite (hasKey_matchingKeysOf Id_eqb (@id Id) (@indexEntries Id) Id_eqb_eq
               (map first (map decK ks)) i).
    split.
    - intros [_ Hall] k0 Hk0.
      specialize (Hall (first (decK k0)) (in_map first _ _ (in_map decK _ _ Hk0))).
      apply in_map_iff in Hall as (e & He & Hin). simpl in Hin.
      apply filter_In in Hin as [Hin Ha]. apply in_map_iff in Hin as (x0 & <- & Hx0).
      now exists x0.
    - intros Hall. split.
      + destruct ks; [contradiction|discriminate].
      + intros d Hd. apply in_map_iff in Hd as (d1 & <- & Hd1).
        apply in_map_iff in Hd1 as (k0 & <- & Hk0).
        destruct (Hall k0 Hk0) as (x0 & Hx0 & Ha & Hi).
        apply in_map_iff. exists (dec x0). split; [assumption|]. simpl.
        apply filter_In. split; [now apply in_map|assumption]. }
  assert (HM' : forall i, hasId M' i = true
                          <-> forall k0, In k0 ks ->
                                exists x0, In x0 (e_indexEntries k0)
                                           /\ hf x0 = true
                                           /\ acceptsEntry this r (dec x0) = true
                                           /\ id (dec x0) = i).
  { intros i. unfold M'.
    rewrite (hasKey_matchingKeysOf Id_eqb (@id Id) (@indexEntries Id) Id_eqb_eq
               (map first (map decK (map FH ks))) i).
    split.
    - intros [_ Hall] k0 Hk0.
      specialize (Hall (first (decK (FH k0)))
                    (in_map first _ _ (in_map decK _ _ (in_map FH _ _ Hk0)))).
      apply in_map_iff in Hall as (e & He & Hin). simpl in Hin.
      apply filter_In in Hin as [Hin Ha]. apply in_map_iff in Hin as (x0 & <- & Hx0).
      apply filter_In in Hx0 as [Hx0 Hh]. now exists x0.
    - intros Hall. split.
      + destruct ks; [contradiction|discriminate].
      + intros d Hd. apply in_map_iff in Hd as (d1 & <- & Hd1).
        apply in_map_iff in Hd1 as (k1 & <- & Hk1).
        apply in_map_iff in Hk1 as (k0 & <- & Hk0).
        destruct (Hall k0 Hk0) as (x0 & Hx0 & Hh & Ha & Hi).
        apply in_map_iff. exists (dec x0). split; [assumption|]. simpl.
        apply filter_In. split; [|assumption]. apply in_map. apply filter_In. now split. }
  assert (HH : forall h, hasZ H h = true
                         <-> forall k0, In k0 ks -> In h (map idHash (e_indexEntries k0))).
  { intros h. unfold H.
    rewrite (hasKey_matchingKeysOf Z.eqb idHash e_indexEntries Z.eqb_eq ks h).
    split; [now intros [_ Hall]|]. intros Hall. split; [|assumption].
    destruct ks; [contradiction|discriminate]. }
  apply eq_true_iff_eq. rewrite andb_true_iff, HM, HM'. split.
  - intros [_ Hall] k0 Hk0. destruct (Hall k0 Hk0) as (x0 & Hx0 & _ & Ha & Hi). now exists x0.
  - intros Hall.
    assert (Hsame : forall k0 x0, In k0 ks -> In x0 (e_indexEntries k0) ->
                                  id (dec x0) = id (dec x) -> idHash x0 = idHash x).
    { intros k0 x0 Hk0 Hx0 Hi. exact (Hsame0 k0 x0 k x Hk0 Hx0 Hk Hx Hi). }
    assert (Hhx : hf x = true).
    { unfold hf. apply HH. intros k0 Hk0. destruct (Hall k0 Hk0) as (x0 & Hx0 & Ha & Hi).
      apply in_map_iff. exists x0. split; [|assumption]. eapply Hsame; eassumption. }
    split; [exact Hhx|].
    intros k0 Hk0. destruct (Hall k0 Hk0) as (x0 & Hx0 & Ha & Hi).
    exists x0. split; [assumption|]. split; [|now split].
    unfold hf. rewrite (Hsame k0 x0 Hk0 Hx0 Hi). exact Hhx.
Qed.

End HashFilter.

(** X14.  The filter on id hashes in front of the decryption changes nothing
    in what the attribute, time and id filter behind it lets through, as
    long as entries of the same element carry the same id hash: it only
    spares decrypting entries that would be dropped anyway. *)
Theorem hash_filter_is_transparent :
  forall (C : Collaborators) (this : SearchFacade Id TypeRef)
         (restriction : SearchRestriction Id TypeRef)
         (ks : list KeyToEncryptedIndexEntries),
    sameIdSameHash ks = true ->
    _filterByTypeAndAttributeAndTime this
      (_decryptSearchResult (_filterByEncryptedId ks)) restriction
    = _filterByTypeAndAttributeAndTime this (_decryptSearchResult ks) restriction.
Proof.
  intros C this restriction ks Hhash.
  apply filterByEncryptedId_transparent. now apply sameIdSameHash_spec.
Qed.

(** The entries read for [alpha] and [beta]. *)
Lemma hash_filter_is_transparent_witness :
  match
    snd (_findIndexEntriesFrom (C := Scenario.collaborators) Scenario.facade Scenario.mails
           (Some 10%Z) [("alpha"%string, None); ("beta"%string, None)])
  with
  | Resolved ks =>
      sameIdSameHash (C := Scenario.collaborators) ks = true
      /\ _filterByTypeAndAttributeAndTime (C := Scenario.collaborators) Scenario.facade
           (_decryptSearchResult (_filterByEncryptedId ks)) Scenario.mails
         = _filterByTypeAndAttributeAndTime (C := Scenario.collaborators) Scenario.facade
             (_decryptSearchResult ks) Scenario.mails
  | Rejected _ => False
  end.
Proof.
  destruct (snd (_findIndexEntriesFrom (C := Scenario.collaborators) Scenario.facade
                   Scenario.mails (Some 10%Z) [("alpha"%string, None); ("beta"%string, None)]))
    as [ks|e] eqn:E.
  - assert (H : sameIdSameHash (C := Scenario.collaborators) ks = true).
    { vm_compute in E. injection E as <-. vm_compute. reflexivity. }
    split; [exact H|].
    exact (@hash_filter_is_transparent Scenario.collaborators Scenario.facade Scenario.mails
             ks H).
  - vm_compute in E. discriminate E.
Defined.

(** ** A page without a limit *)

Section UnboundedPage.

Context {C : Collaborators}.

Local Abbreviation Restriction := (SearchRestriction Id TypeRef).
Local Abbreviation Result := (SearchResult Id TypeRef).
Local Abbreviation Facade := (SearchFacade Id TypeRef).
Local Abbreviation Entry := (SearchIndexEntry Id).

Lemma slice0_all (A : Type) (l : list A) (m : option Z) :
  truthyZ m = false -> slice0 l (sliceEnd m (length l)) = l.
Proof.
  intros Hm. assert (E : sliceEnd m (length l) = Z.of_nat (length l) + 1).
  { unfold sliceEnd. destruct m as [v|]; [|reflexivity]. now rewrite Hm. }
  rewrite E. unfold slice0.
  destruct (Z.ltb_spec (Z.of_nat (length l) + 1) 0) as [H|H]; [lia|].
  apply firstn_all2. lia.
Qed.

Lemma filterByTypeAndAttributeAndTime_complete (this : Facade) (restriction : Restriction)
  (rs : list (KeyToIndexEntries Id)) (i : Id) :
  (forall d, In d rs ->
             exists e, In e (indexEntries d) /\ id e = i
                       /\ acceptsEntry this restriction e = true) ->
  forall t, In t (_filterByTypeAndAttributeAndTime this rs restriction) ->
            In i (map (@id Id) (indexEntries t)).
Proof.
  unfold _filterByTypeAndAttributeAndTime.
  set (first := fun result : KeyToIndexEntries Id =>
                  {| indexKey := indexKey result;
                     indexEntries := filter (acceptsEntry this restriction)
                                       (indexEntries result) |}).
  intros Hall t Ht.
  apply in_map_iff in Ht as (r1 & <- & Hr1). apply in_map_iff in Hr1 as (d & <- & Hd).
  simpl. destruct (Hall d Hd) as (e & He & Hid & Hacc).
  apply in_map_iff. exists e. split; [assumption|].
  apply filter_In. split; [apply filter_In; now split|].
  rewrite Hid.
  apply (hasKey_matchingKeysOf Id_eqb (@id Id) (@indexEntries Id) Id_eqb_eq (map first rs) i).
  split.
  - destruct rs; [contradiction|discriminate].
  - intros r' Hr'. apply in_map_iff in Hr' as (d' & <- & Hd'). simpl.
    destruct (Hall d' Hd') as (e' & He' & Hid' & Hacc').
    apply in_map_iff. exists e'. split; [assumption|]. apply filter_In. now split.
Qed.

Lemma postingsRead_decrypted (this : Facade) (r : Restriction) m row e :
  In e (postingsRead this r m row) ->
  exists b, In (Some b) (slotsRead this r m row) /\ e = decryptSearchIndexEntry b.
Proof.
  unfold postingsRead. intros H. apply in_flat_map in H as ([b|] & Hs & He); [|contradiction].
  destruct He as [<-|[]]. now exists b.
Qed.

Lemma hashFollowsId_read (this : Facade) (r : Restriction) m rows ks :
  hashFollowsId (entriesRead this r m rows) = true ->
  mapInCallContext (fun row => snd (_findEntriesForSearchToken this r m row)) rows
    = Resolved ks ->
  forall k1 x1 k2 x2,
    In k1 ks -> In x1 (e_indexEntries k1) ->
    In k2 ks -> In x2 (e_indexEntries k2) ->
    id (decryptSearchIndexEntry (encEntry x1)) = id (decryptSearchIndexEntry (encEntry x2)) ->
    idHash x1 = idHash x2.
Proof.
  intros Hhash Hks k1 x1 k2 x2 Hk1 Hx1 Hk2 Hx2 Hi.
  apply mapInCallContext_Forall2 in Hks.
  assert (Hread : forall k x, In k ks -> In x (e_indexEntries k) ->
                              In (encEntry x) (entriesRead this r m rows)
                              /\ idHash x
                                 = arrayHash (getIdFromEncSearchIndexEntry (encEntry x))).
  { intros k x Hk Hx. destruct (Forall2_In_r _ Hks Hk) as (row & Hrow & Hrk).
    apply findEntriesForSearchToken_resolved in Hrk as [Hs Hh]. split; [|now apply Hh].
    unfold entriesRead. apply in_flat_map. exists row. split; [assumption|].
    apply in_flat_map. exists (Some (encEntry x)). split; [|now left].
    rewrite Hs. apply in_map_iff. now exists x. }
  destruct (Hread k1 x1 Hk1 Hx1) as [H1 ->]. destruct (Hread k2 x2 Hk2 Hx2) as [H2 ->].
  unfold hashFollowsId in Hhash. rewrite forallb_forall in Hhash.
  specialize (Hhash _ H1). rewrite forallb_forall in Hhash. specialize (Hhash _ H2).
  rewrite Hi, Id_eqb_refl in Hhash. simpl in Hhash. now apply Z.eqb_eq.
Qed.

(** What a page without a limit adds when the words need not be in order. *)
Lemma startOrContinueSearch_complete (this : Facade) (sr : Result) m (l i : Id) :
  truthyZ m = false ->
  matchWordOrder sr = false ->
  deterministicIdEncryption ->
  hashFollowsId (entriesRead this (restriction sr) m (lastReadSearchIndexRow sr)) = true ->
  snd (_startOrContinueSearch this sr m) = Resolved tt ->
  (forall row, In row (lastReadSearchIndexRow sr) ->
               exists e, In e (postingsRead this (restriction sr) m row)
                         /\ id e = i
                         /\ acceptsEntry this (restriction sr) e = true) ->
  (exists row e, In row (lastReadSearchIndexRow sr)
                 /\ In e (postingsRead this (restriction sr) m row)
                 /\ id e = i
                 /\ storedUnder this (restriction sr) e l) ->
  ~ In i (map snd (results sr)) ->
  In (l, i) (results (fst (_startOrContinueSearch this sr m))).
Proof.
  intros Hm Hmwo Hdet Hhash Hres Hall (row0 & e0 & Hrow0 & He0 & Hid0 & Hadm0) Hnew.
  destruct (startOrContinueSearch_cases this sr m)
    as [[Hrej _]|(ks & u & Hks & Hu & _ & ->)]; [congruence|].
  rewrite (@slice0_all _ _ m Hm).
  pose proof (@mapInCallContext_Forall2 _ _ _ _ _ Hks) as HF.
  pose proof Hu as Hu'. unfold reduceIndexEntries in Hu'.
  rewrite (filterByEncryptedId_transparent this (restriction sr) ks
             (@hashFollowsId_read this (restriction sr) m (lastReadSearchIndexRow sr) ks Hhash Hks)) in Hu'.
  destruct (_filterByTypeAndAttributeAndTime this (_decryptSearchResult ks) (restriction sr))
    as [|h rest] eqn:HT; [discriminate|].
  rewrite Hmwo in Hu'. simpl in Hu'. injection Hu' as Hu'.
  assert (Hh : In i (map (@id Id) (indexEntries h))).
  { apply (filterByTypeAndAttributeAndTime_complete this (restriction sr)
             (_decryptSearchResult ks) (i := i)); [|rewrite HT; now left].
    intros d Hd. unfold _decryptSearchResult in Hd.
    apply in_map_iff in Hd as (k & <- & Hk). simpl.
    destruct (Forall2_In_r _ HF Hk) as (row & Hrow & Hrk).
    destruct (Hall row Hrow) as (e & He & Hid & Hacc).
    destruct (@postingsRead_inv C this (restriction sr) m row k e Hrk He) as (x & Hx & ->).
    exists (decryptSearchIndexEntry (encEntry x)). split; [|now split].
    apply in_map_iff. now exists x. }
  assert (Hin : In i (map (@id Id) u)).
  { rewrite <- Hu'. unfold _reduceToUniqueElementIds. apply uniqueElementIdsFrom_ids.
    split; [assumption|]. split; [intros []|assumption]. }
  apply in_map_iff in Hin as (e & Hid & He).
  destruct (reduceIndexEntries_sound this sr m e Hks Hu He) as [_ (row & Hrow & Hpost)].
  destruct (@postingsRead_decrypted this (restriction sr) m row e Hpost) as (b & _ & ->).
  destruct (@postingsRead_decrypted this (restriction sr) m row0 e0 He0) as (b0 & _ & ->).
  rewrite <- Hid.
  apply groupSearchResults_complete; [assumption| |].
  - eapply Permutation_in; [apply sortBy_perm|exact He].
  - destruct Hadm0 as [Hed Hl]. split; [|exact Hl].
    rewrite (Hdet b b0); [exact Hed|congruence].
Qed.

End UnboundedPage.

(** X15.  A page read without a limit, for words in any order, misses
    nothing: an element that every word of the cursor has an accepted index
    entry for, whose element data is there and lies in the list asked for,
    is among the results once the page resolves, unless its id was among
    them before.  Ids are taken to be encrypted deterministically and the
    id hash to be a function of the id. *)
Theorem unbounded_page_is_complete :
  forall (C : Collaborators) (this : SearchFacade Id TypeRef)
         (searchResult : SearchResult Id TypeRef) (maxResults : option Z) (l i : Id),
    truthyZ maxResults = false ->
    matchWordOrder searchResult = false ->
    deterministicIdEncryption ->
    hashFollowsId
      (entriesRead this (restriction searchResult) maxResults
         (lastReadSearchIndexRow searchResult)) = true ->
    snd (_startOrContinueSearch this searchResult maxResults) = Resolved tt ->
    (forall row, In row (lastReadSearchIndexRow searchResult) ->
                 exists e, In e (postingsRead this (restriction searchResult) maxResults row)
                           /\ id e = i
                           /\ acceptsEntry this (restriction searchResult) e = true) ->
    (exists row e, In row (lastReadSearchIndexRow searchResult)
                   /\ In e (postingsRead this (restriction searchResult) maxResults row)
                   /\ id e = i
                   /\ storedUnder this (restriction searchResult) e l) ->
    ~ In i (map snd (results searchResult)) ->
    In (l, i) (results (fst (_startOrContinueSearch this searchResult maxResults))).
Proof.
  intros C this sr m l i. apply startOrContinueSearch_complete.
Qed.

(** Scenario S1 without a limit: the element 80 has an entry for [alpha] and
    one for [beta]. *)
Lemma unbounded_page_is_complete_witness :
  In (Scenario.element 80)
    (results
       (fst (_startOrContinueSearch (C := Scenario.collaborators) Scenario.facade
               (initialResult (C := Scenario.collaborators) Scenario.facade "alpha beta"
                  Scenario.mails ["alpha"; "beta"]%string) None))).
Proof.
  apply (@unbounded_page_is_complete Scenario.collaborators Scenario.facade
           (initialResult (C := Scenario.collaborators) Scenario.facade "alpha beta"
              Scenario.mails ["alpha"; "beta"]%string) None Scenario.L 80%N).
  - reflexivity.
  - reflexivity.
  - exact scenario_deterministic.
  - vm_compute. reflexivity.
  - vm_compute. reflexivity.
  - intros row [<-|[<-|[]]].
    + exists (Scenario.decodeEntry (Scenario.block 80 1 [2%N])).
      split; [vm_compute; tauto|]. split; reflexivity.
    + exists (Scenario.decodeEntry (Scenario.block 80 1 [7%N])).
      split; [vm_compute; tauto|]. split; reflexivity.
  - exists ("alpha"%string, None), (Scenario.decodeEntry (Scenario.block 80 1 [2%N])).
    split; [simpl; tauto|]. split; [vm_compute; tauto|]. split; [reflexivity|].
    split; [reflexivity|]. intros wanted H. discriminate H.
  - simpl. tauto.
Defined.

(** ** Words in order and words in any order *)

Section WordOrder.

Context {C : Collaborators}.

Local Abbreviation Result := (SearchResult Id TypeRef).
Local Abbreviation Facade := (SearchFacade Id TypeRef).

Lemma startOrContinueSearch_resolves (this : Facade) (sr : Result) m ks u :
  mapInCallContext
    (fun row => snd (_findEntriesForSearchToken this (restriction sr) m row))
    (lastReadSearchIndexRow sr) = Resolved ks ->
  reduceIndexEntries this sr ks = Resolved u ->
  snd (_startOrContinueSearch this sr m) = Resolved tt.
Proof.
  intros Hks Hu. unfold _startOrContinueSearch.
  destruct (findIndexEntries_shape this sr m) as [rows ->].
  rewrite Hks. simpl. rewrite reduceIndexEntries_cursor, Hu. reflexivity.
Qed.

Lemma startOrContinueSearch_any_order (this : Facade) (sr : Result) m (l i : Id) :
  truthyZ m = false ->
  deterministicIdEncryption ->
  hashFollowsId (entriesRead this (restriction sr) m (lastReadSearchIndexRow sr)) = true ->
  In (l, i) (results (fst (_startOrContinueSearch this sr m))) ->
  In (l, i) (results (fst (_startOrContinueSearch this (withMatchWordOrder sr false) m))).
Proof.
  intros Hm Hdet Hhash Hin.
  destruct (startOrContinueSearch_added this sr m) as (added & Heq & Hadded).
  rewrite Heq in Hin. apply in_app_or in Hin as [Hin|Hin].
  - destruct (startOrContinueSearch_added this (withMatchWordOrder sr false) m)
      as (added' & -> & _).
    apply in_or_app. now left.
  - destruct (Hadded (l, i) Hin) as (Hall & Hadm & Hnew).
    destruct (startOrContinueSearch_cases this sr m)
      as [[_ Hsame]|(ks & u & Hks & Hu & _ & _)].
    { rewrite Heq in Hsame. rewrite <- (app_nil_r (results sr)) in Hsame at 2.
      apply app_inv_head in Hsame. subst added. contradiction. }
    assert (Hu' : exists u', reduceIndexEntries this (withMatchWordOrder sr false) ks
                             = Resolved u').
    { unfold reduceIndexEntries in *. simpl.
      destruct (_filterByTypeAndAttributeAndTime _ _ _) as [|h rest]; simpl in *;
        [discriminate|]. eauto. }
    destruct Hu' as [u' Hu'].
    apply (@startOrContinueSearch_complete C this (withMatchWordOrder sr false) m l i Hm
             eq_refl Hdet Hhash); try assumption.
    exact (@startOrContinueSearch_resolves this (withMatchWordOrder sr false) m ks u' Hks Hu').
Qed.

End WordOrder.

(** X16.  Giving up the word order loses nothing on a page read without a
    limit: every result of the page is a result of the same page read with
    the word-order flag off.  Ids are taken to be encrypted
    deterministically and the id hash to be a function of the id. *)
Theorem results_kept_without_word_order :
  forall (C : Collaborators) (this : SearchFacade Id TypeRef)
         (searchResult : SearchResult Id TypeRef) (maxResults : option Z) (l i : Id),
    truthyZ maxResults = false ->
    deterministicIdEncryption ->
    hashFollowsId
      (entriesRead this (restriction searchResult) maxResults
         (lastReadSearchIndexRow searchResult)) = true ->
    In (l, i) (results (fst (_startOrContinueSearch this searchResult maxResults))) ->
    In (l, i)
      (results
         (fst (_startOrContinueSearch this (withMatchWordOrder searchResult false)
                 maxResults))).
Proof.
  intros C this sr m l i. apply startOrContinueSearch_any_order.
Qed.

(** The phrase [alpha beta] matches the element 100, and so do the two words
    in any order. *)
Lemma results_kept_without_word_order_witness :
  In (Scenario.element 100)
    (results
       (fst (_startOrContinueSearch (C := Scenario.collaborators) Scenario.facade
               (withMatchWordOrder
                  (initialResult (C := Scenario.collaborators) Scenario.facade
                     (dquote ++ "alpha beta" ++ dquote)%string Scenario.mails
                     ["alpha"; "beta"]%string) false) None))).
Proof.
  apply (@results_kept_without_word_order Scenario.collaborators Scenario.facade
           (initialResult (C := Scenario.collaborators) Scenario.facade
              (dquote ++ "alpha beta" ++ dquote)%string Scenario.mails
              ["alpha"; "beta"]%string) None Scenario.L 100%N).
  - reflexivity.
  - exact scenario_deterministic.
  - vm_compute. reflexivity.
  - vm_compute. tauto.
Defined.

(** ** The order of what a page appends *)

(** X17.  When the transaction answers its lookups in the order they were
    asked, the assembler pushes the results in the lookup order of
    [Promise.map] with five lookups at a time: the entries are sorted newest
    first and cut to [maxResults]; the first five are looked up in that
    order, and the others from the oldest to the newest.  With [maxResults]
    set the assembler may stop on the way; without it every entry is looked
    up.  Nothing sorts the results afterwards, so a page of more than five
    entries is not appended newest first. *)
Theorem assembler_lookup_order :
  forall (C : Collaborators) (this : SearchFacade Id TypeRef)
         (indexEntries : list (SearchIndexEntry Id))
         (searchResult : SearchResult Id TypeRef) (maxResults : option Z),
    answersInOrder ->
    let sorted := sortBy (fun l r => compareNewestFirst (id l) (id r)) indexEntries in
    let sliced := slice0 sorted (sliceEnd maxResults (length sorted)) in
    (exists n,
        results (fst (_filterByListIdAndGroupSearchResults this indexEntries searchResult
                        maxResults))
        = lookedUp this (restriction searchResult) (firstn n (lookupOrder sliced))
            (results searchResult))
    /\ (truthyZ maxResults = false ->
        results (fst (_filterByListIdAndGroupSearchResults this indexEntries searchResult
                        maxResults))
        = lookedUp this (restriction searchResult) (lookupOrder sorted)
            (results searchResult)).
Proof.
  intros C this indexEntries sr m Hfifo sorted sliced.
  unfold _filterByListIdAndGroupSearchResults. simpl. fold sorted. fold sliced.
  destruct (groupSearchResults_in_order this (restriction sr) m sliced (results sr) Hfifo)
    as [Hsome Hall].
  split; [exact Hsome|]. intros Hm. rewrite (Hall Hm). unfold sliced.
  now rewrite (slice0_all sorted m Hm).
Qed.

(** Seven entries and no limit: the five newest are pushed newest first,
    then the oldest and the one before it. *)
Lemma assembler_lookup_order_witness :
  map snd
    (results
       (fst (_filterByListIdAndGroupSearchResults (C := Scenario.collaborators)
               Scenario.facade SevenMails.entries
               (initialResult (C := Scenario.collaborators) Scenario.facade "seven"
                  Scenario.mails ["seven"%string]) None)))
  = [70; 60; 50; 40; 30; 10; 20]%N.
Proof.
  assert (Hfifo : answersInOrder (C := Scenario.collaborators)) by (intros keys; reflexivity).
  destruct (@assembler_lookup_order Scenario.collaborators Scenario.facade SevenMails.entries
              (initialResult (C := Scenario.collaborators) Scenario.facade "seven"
                 Scenario.mails ["seven"%string]) None Hfifo) as [_ Hall].
  rewrite (Hall eq_refl). reflexivity.
Defined.

(** X18.  On a search result without results, as [search] hands it to its
    page, the assembler with [maxResults] above 0 never stops early: at
    most [maxResults] entries are mapped, so no mapper finds [maxResults]
    reached, and the element data of every one of them is looked up. *)
Theorem first_page_looks_up_all :
  forall (C : Collaborators) (this : SearchFacade Id TypeRef)
         (indexEntries : list (SearchIndexEntry Id))
         (searchResult : SearchResult Id TypeRef) (maxResults : Z),
    0 < maxResults ->
    results searchResult = [] ->
    let sorted := sortBy (fun l r => compareNewestFirst (id l) (id r)) indexEntries in
    exists looked,
      Permutation looked (firstn (Z.to_nat maxResults) sorted)
      /\ results (fst (_filterByListIdAndGroupSearchResults this indexEntries searchResult
                         (Some maxResults)))
         = lookedUp this (restriction searchResult) looked [].
Proof.
  intros C this indexEntries sr k Hk Hres sorted.
  unfold _filterByListIdAndGroupSearchResults, set_results. cbn [fst results].
  fold sorted. rewrite Hres.
  assert (Hslice : slice0 sorted (sliceEnd (Some k) (length sorted))
                   = firstn (Z.to_nat k) sorted).
  { unfold sliceEnd, truthyZ, slice0.
    replace (negb (k =? 0)) with true by (symmetry; apply negb_true_iff, Z.eqb_neq; lia).
    now replace (k <? 0) with false by (symmetry; apply Z.ltb_ge; lia). }
  rewrite Hslice.
  destruct (@groupSearchResults_below C this (restriction sr) k
              (firstn (Z.to_nat k) sorted) [])
    as (looked & Heq & Hp).
  - pose proof (firstn_le_length (Z.to_nat k) sorted). simpl. lia.
  - exists looked. now split.
Qed.

(** Seven entries and two results wanted: the two newest are looked up. *)
Lemma first_page_looks_up_all_witness :
  map snd
    (results
       (fst (_filterByListIdAndGroupSearchResults (C := Scenario.collaborators)
               Scenario.facade SevenMails.entries
               (initialResult (C := Scenario.collaborators) Scenario.facade "seven"
                  Scenario.mails ["seven"%string]) (Some 2))))
  = [70; 60]%N.
Proof.
  assert (H2 : 0 < 2) by lia.
  destruct (@first_page_looks_up_all Scenario.collaborators Scenario.facade
              SevenMails.entries
              (initialResult (C := Scenario.collaborators) Scenario.facade "seven"
                 Scenario.mails ["seven"%string]) 2 H2 eq_refl) as (looked & _ & _).
  reflexivity.
Defined.
